(** * Wave Function Collapse terrain grid (wfc.js): model and verification

    A shallow embedding of the WFC engine: the tile catalogue, the cardinal
    adjacency rules, the Uint8Array bit sets, the [WFCGrid] state with its
    neighbour geometry, entropy selection, weighted collapse, the worklist
    propagation and the [run] generator.

    Conventions of the embedding.
    - JavaScript integers (cell indices, tile indices, coordinates, bytes,
      the [-1]/[-2] sentinels) are [Z].
    - A JavaScript array is a [list], read with [arr_get] and written with
      [arr_set] at a [Z] index.
    - [Math.random()] is an explicit oracle [rand : nat -> Q] together with
      the number of draws already consumed.
    - In [_pickLowestEntropy] the draw, its product with the number of
      candidates and the floor of the product are binary64, as in
      JavaScript (section "Binary64 numbers").
    - In [_collapseCell] the weights, their sum and the running remainder
      are exact rationals. The general theorems about [_collapseCell] and
      [run] hold for every draw and do not depend on which option a draw
      selects.
    - The [while] loops of [_propagate] and [run] take a fuel argument and
      return [None] when it runs out; the theorems show that this never
      happens with the fuel the top-level definitions supply. *)

From Stdlib Require Import ZArith List Bool Lia QArith Qround Qpower FinFun Lqa.
From Stdlib Require SpecFloat.
Import ListNotations.
Open Scope Z_scope.

(** ** Arrays *)

Definition arr_get {A : Type} (d : A) (l : list A) (i : Z) : A :=
  nth (Z.to_nat i) l d.

Fixpoint upd_nat {A : Type} (l : list A) (n : nat) (x : A) : list A :=
  match l, n with
  | [], _ => []
  | _ :: tl, O => x :: tl
  | h :: tl, S n' => h :: upd_nat tl n' x
  end.

(** A write inside the array; every index the engine writes at is inside
    (see [grid_wf] and the neighbour lemmas), outside nothing is stored. *)
Definition arr_set {A : Type} (l : list A) (i : Z) (x : A) : list A :=
  if i <? 0 then l else upd_nat l (Z.to_nat i) x.

(** [for (let i = 0; i < n; i++)] visits [range n]. *)
Definition range (n : Z) : list Z := map Z.of_nat (seq 0 (Z.to_nat n)).

(** ** Tile catalogue *)

Inductive terrain : Type := sea | ground | mountain | house.

Definition terrain_eqb (a b : terrain) : bool :=
  match a, b with
  | sea, sea | ground, ground | mountain, mountain | house, house => true
  | _, _ => false
  end.

Record tile : Type := mkTile { t_terrain : terrain; t_z : Z }.

(** [for (let z = lo; z <= hi; z++)] visits [from_to lo hi]. *)
Definition from_to (lo hi : Z) : list Z := map (Z.add lo) (range (hi - lo + 1)).

Definition buildTileCatalogue : list tile :=
  [mkTile sea 0]
  ++ map (fun z => mkTile ground z) (from_to 0 5)
  ++ map (fun z => mkTile mountain z) (from_to 6 10)
  ++ map (fun z => mkTile house z) (from_to 0 10).

Definition ALL_TILES : list tile := Eval cbv in buildTileCatalogue.
Definition N_TILES : Z := Eval cbv in Z.of_nat (length ALL_TILES).

(** [ALL_TILES[i]] *)
Definition tile_at (i : Z) : tile := arr_get (mkTile sea 0) ALL_TILES i.

(** ** Cardinal adjacency rules *)

Definition cardinalCompatible (a b : tile) : bool :=
  match t_terrain a with
  | sea =>
      if terrain_eqb (t_terrain b) sea then true
      else if terrain_eqb (t_terrain b) ground && (t_z b =? 0) then true
      else false
  | ground =>
      match t_terrain b with
      | sea => t_z a =? 0
      | ground => true
      | mountain => t_z a >=? 5
      | house => true
      end
  | mountain => t_z b >=? 5
  | house =>
      if terrain_eqb (t_terrain b) sea then t_z a =? 0 else true
  end.

(** [allowed[i]] is the set of the [j] with
    [cardinalCompatible(ALL_TILES[i], ALL_TILES[j])]. *)
Definition buildAdjacencySets : list (list Z) :=
  map (fun i =>
         filter (fun j => cardinalCompatible (tile_at i) (tile_at j))
                (range N_TILES))
      (range N_TILES).

Definition CARDINAL_ALLOWED : list (list Z) := Eval cbv in buildAdjacencySets.

(** [CARDINAL_ALLOWED[c].has(n)] *)
Definition allowed_has (c n : Z) : bool :=
  existsb (Z.eqb n) (arr_get [] CARDINAL_ALLOWED c).

(** ** Bit sets ([Uint8Array] bit masks) *)

Definition bits : Type := list Z.

(** The conversion applied when a number is stored in a [Uint8Array]. *)
Definition to_uint8 (v : Z) : Z := v mod 256.

(** [new Uint8Array(Math.ceil(N_TILES / 8)).fill(0)] *)
Definition bitsNew : bits := repeat 0 (Z.to_nat ((N_TILES + 7) / 8)).

Definition bitsSet (b : bits) (i : Z) : bits :=
  arr_set b (Z.shiftr i 3)
    (to_uint8 (Z.lor (arr_get 0 b (Z.shiftr i 3)) (Z.shiftl 1 (Z.land i 7)))).

Definition bitsClear (b : bits) (i : Z) : bits :=
  arr_set b (Z.shiftr i 3)
    (to_uint8 (Z.land (arr_get 0 b (Z.shiftr i 3))
                      (Z.lnot (Z.shiftl 1 (Z.land i 7))))).

Definition bitsHas (b : bits) (i : Z) : Z :=
  Z.land (Z.shiftr (arr_get 0 b (Z.shiftr i 3)) (Z.land i 7)) 1.

(** Truthiness of the number [bitsHas(b, i)]. *)
Definition has (b : bits) (i : Z) : bool := negb (bitsHas b i =? 0).

Definition bitsAll : bits := fold_left bitsSet (range N_TILES) bitsNew.

Definition bitsCount (b : bits) : Z :=
  fold_left (fun c i => if has b i then c + 1 else c) (range N_TILES) 0.

Definition bitsClone (b : bits) : bits := b.

(** The loop runs over [a.length]; the engine only compares bit sets of the
    same length. *)
Fixpoint bitsEqual (a b : bits) : bool :=
  match a, b with
  | [], _ => true
  | x :: a', y :: b' => if x =? y then bitsEqual a' b' else false
  | _ :: _, [] => false
  end.

(** [bitsForEach(b, fn)] calls [fn] on the members of [b] in increasing
    order: the list of the calls' arguments. *)
Definition bitsForEach (b : bits) : list Z := filter (has b) (range N_TILES).

(** ** Grid / wave state *)

(** A JavaScript [Set] of cell indices, in insertion order. *)
Definition set_add (s : list Z) (x : Z) : list Z :=
  if existsb (Z.eqb x) s then s else s ++ [x].

Record WFCGrid : Type := mkGrid {
  width : Z;
  height : Z;
  size : Z;
  wave : list bits;        (* possible tile indices per cell *)
  collapsed : list Z;      (* Int16Array: tile index, -1 in superposition *)
  dirty : list Z
}.

Definition wave_at (g : WFCGrid) (idx : Z) : bits := arr_get [] (wave g) idx.
Definition collapsed_at (g : WFCGrid) (idx : Z) : Z := arr_get (-1) (collapsed g) idx.

Definition set_wave (g : WFCGrid) (idx : Z) (b : bits) : WFCGrid :=
  mkGrid (width g) (height g) (size g) (arr_set (wave g) idx b)
         (collapsed g) (dirty g).

Definition set_collapsed (g : WFCGrid) (idx : Z) (t : Z) : WFCGrid :=
  mkGrid (width g) (height g) (size g) (wave g)
         (arr_set (collapsed g) idx t) (dirty g).

Definition add_dirty (g : WFCGrid) (idx : Z) : WFCGrid :=
  mkGrid (width g) (height g) (size g) (wave g) (collapsed g)
         (set_add (dirty g) idx).

Definition _idx (g : WFCGrid) (x y : Z) : Z := y * width g + x.
Definition _xy (g : WFCGrid) (idx : Z) : Z * Z :=
  (Z.rem idx (width g), idx / width g).

Definition is_house (i : Z) : bool := terrain_eqb (t_terrain (tile_at i)) house.

Definition _removeHouseTiles (g : WFCGrid) (idx : Z) : WFCGrid :=
  set_wave g idx
    (fold_left (fun b i => if is_house i then bitsClear b i else b)
               (range N_TILES) (wave_at g idx)).

(** [x === 0 || y === 0 || x === this.width - 1 || y === this.height - 1] *)
Definition at_edge (g : WFCGrid) (x y : Z) : bool :=
  (x =? 0) || (y =? 0) || (x =? width g - 1) || (y =? height g - 1).

Definition reset (g : WFCGrid) : WFCGrid :=
  let g0 := mkGrid (width g) (height g) (size g)
                   (map (fun _ => bitsAll) (range (size g)))
                   (map (fun _ => -1) (range (size g)))
                   [] in
  fold_left
    (fun g1 y =>
       fold_left
         (fun g2 x =>
            if at_edge g2 x y then _removeHouseTiles g2 (_idx g2 x y) else g2)
         (range (width g1)) g1)
    (range (height g0)) g0.

(** [new WFCGrid(width, height)] *)
Definition new_WFCGrid (w h : Z) : WFCGrid :=
  reset (mkGrid w h (w * h) [] [] []).

Definition _cardinalNeighbours (g : WFCGrid) (idx : Z) : list Z :=
  let '(x, y) := _xy g idx in
  (if x >? 0 then [_idx g (x - 1) y] else [])
  ++ (if x <? width g - 1 then [_idx g (x + 1) y] else [])
  ++ (if y >? 0 then [_idx g x (y - 1)] else [])
  ++ (if y <? height g - 1 then [_idx g x (y + 1)] else []).

Definition _allNeighbours (g : WFCGrid) (idx : Z) : list Z :=
  let '(x, y) := _xy g idx in
  flat_map
    (fun dy =>
       flat_map
         (fun dx =>
            if (dx =? 0) && (dy =? 0) then []
            else
              let nx := x + dx in
              let ny := y + dy in
              if (nx >=? 0) && (nx <? width g) && (ny >=? 0) && (ny <? height g)
              then [_idx g nx ny] else [])
         (from_to (-1) 1))
    (from_to (-1) 1).

(** ** Entropy and selection *)

(** The scan of [_pickLowestEntropy]: [best] is [None] for [Infinity]; the
    result is [None] when the scan returns -1 at a cell without options, and
    the final candidate list otherwise. *)
Fixpoint pick_scan (g : WFCGrid) (cells : list Z) (best : option Z)
         (candidates : list Z) : option (list Z) :=
  match cells with
  | [] => Some candidates
  | i :: rest =>
      if negb (collapsed_at g i =? -1) then pick_scan g rest best candidates
      else
        let c := bitsCount (wave_at g i) in
        if c =? 0 then None
        else if match best with None => true | Some b => c <? b end
        then pick_scan g rest (Some c) [i]
        else if match best with None => false | Some b => c =? b end
        then pick_scan g rest best (candidates ++ [i])
        else pick_scan g rest best candidates
  end.

(** ** Binary64 numbers

    JavaScript numbers are IEEE 754 binary64: the finite ones are the
    rationals [m * 2^e] with [|m| < 2^53] and [-1074 <= e <= 971]. Rounding
    keeps 53 significant binary digits, and no digit below [2^-1074].
    Overflow to infinity is not modelled: the numbers rounded here are
    below [2^53]. *)

(** [floor(log2 x)] for [x > 0]. *)
Definition Qlog2 (x : Q) : Z :=
  let e := Z.log2 (Qnum x) - Z.log2 (Z.pos (Qden x)) in
  if Qle_bool (2 ^ e)%Q x then e else e - 1.

(** The exponent of the last binary digit that binary64 keeps of [x > 0]. *)
Definition b64_exp (x : Q) : Z := Z.max (Qlog2 x - 52) (-1074).

(** The nearest integer, ties to the even one. *)
Definition round_half_even (y : Q) : Z :=
  let f := Qfloor y in
  match (y - inject_Z f ?= 1 # 2)%Q with
  | Lt => f
  | Gt => f + 1
  | Eq => if Z.even f then f else f + 1
  end.

(** [x] rounded to binary64, the magnitude of its last kept digit being
    rounded by [rnd]. *)
Definition b64_round (rnd : Q -> Z) (x : Q) : Q :=
  (match x ?= 0 with
   | Eq => 0
   | Gt => inject_Z (rnd (x / 2 ^ b64_exp x)) * 2 ^ b64_exp x
   | Lt => - (inject_Z (rnd (- x / 2 ^ b64_exp (- x))) * 2 ^ b64_exp (- x))
   end)%Q.

(** Round to nearest, ties to even: the rounding of the arithmetic
    operators of JavaScript. *)
Definition b64_nearest : Q -> Q := b64_round round_half_even.

(** Round toward zero. *)
Definition b64_toward_zero : Q -> Q := b64_round Qfloor.

(** [Math.floor(Math.random() * n)]. [Math.random()] returns a binary64
    number: the value [u] of the oracle rounded toward zero, which is [u]
    itself when [u] is a binary64 number ([b64_toward_zero_fixes]). The
    product is the binary64 one. *)
Definition random_index (u : Q) (n : Z) : Z :=
  Qfloor (b64_nearest (b64_toward_zero u * inject_Z n)).

(** *** Cross-check with the Standard Library's IEEE 754 specification *)

(** The value of a finite float of [SpecFloat]. *)
Definition SF2Q (f : SpecFloat.spec_float) : Q :=
  match f with
  | SpecFloat.S754_finite s m e =>
      ((if s then -1 else 1) * inject_Z (Z.pos m) * 2 ^ e)%Q
  | _ => 0%Q
  end.

(** The binary64 product of [m * 2^e] and [n] by [SpecFloat.SFmul]. *)
Definition ieee_mul (m e n : Z) : Q :=
  SF2Q (SpecFloat.SFmul 53 1024
          (SpecFloat.binary_normalize 53 1024 m e false)
          (SpecFloat.binary_normalize 53 1024 n 0 false)).

(** The binary64 quotient of the integers [a] and [b] by [SpecFloat.SFdiv]. *)
Definition ieee_div (a b : Z) : Q :=
  SF2Q (SpecFloat.SFdiv 53 1024
          (SpecFloat.binary_normalize 53 1024 a 0 false)
          (SpecFloat.binary_normalize 53 1024 b 0 false)).

(** Pseudo-random test data. *)
Fixpoint lcg (k : nat) (s : Z) : list Z :=
  match k with
  | O => []
  | S k' =>
      let s' := (s * 6364136223846793005 + 1442695040888963407) mod 2 ^ 64 in
      s' :: lcg k' s'
  end.

(** Mantissas of up to 53 bits, exponents from -1074 up, and factors of up
    to 32 bits. *)
Definition mul_cases : list (Z * Z * Z) :=
  [(6004799503160661, -53, 3); (6004799503160661, -53, 12);
   (2 ^ 53 - 1, -53, 3); (2 ^ 53 - 1, -53, 2 ^ 32 - 1); (1, -1074, 3);
   (3, -1074, 5); (2 ^ 52 + 1, -53, 3); (0, 0, 7)]
  ++ map (fun s => (s mod 2 ^ 53, - (53 + (s / 2 ^ 53) mod 8 * ((s / 2 ^ 57) mod 3)),
                    1 + (s / 2 ^ 20) mod (if s mod 7 =? 0 then 2 ^ 32 else 50)))
         (lcg 120 12345)
  ++ map (fun s => (s mod 2 ^ ((s / 2 ^ 40) mod 54), -1074 + (s / 2 ^ 53) mod 60,
                    1 + (s / 2 ^ 20) mod 50))
         (lcg 60 999).

Definition div_cases : list (Z * Z) :=
  map (fun s => (1 + s mod 2 ^ ((s / 2 ^ 40) mod 53),
                 1 + (s / 2 ^ 11) mod 2 ^ ((s / 2 ^ 50) mod 53)))
      (lcg 60 4242).

(** Returns the picked cell (or -1, -2) and the number of draws consumed so
    far. *)
Definition _pickLowestEntropy (rand : nat -> Q) (k : nat) (g : WFCGrid)
  : Z * nat :=
  match pick_scan g (range (size g)) None [] with
  | None => (-1, k)
  | Some [] => (-2, k)
  | Some candidates =>
      (arr_get 0 candidates
               (random_index (rand k) (Z.of_nat (length candidates))), S k)
  end.

(** ** Collapse *)

(** The weights. [0.3] and [0.6] are the rationals 3/10 and 3/5, and the
    sum of the weights and the running remainder of the draw are exact: the
    binary64 rounding of this arithmetic is not modelled. *)
Definition weight (i : Z) : Q :=
  let t := tile_at i in
  match t_terrain t with
  | sea => 6
  | ground => inject_Z (8 - t_z t)
  | mountain => 2 + inject_Z (10 - t_z t) * (3 # 10)
  | house => 3 # 5
  end.

(** The sampling loop: [r -= weights[k]; if (r <= 0) { chosen = options[k];
    break; }]. *)
Fixpoint sample (r : Q) (options : list Z) (weights : list Q) (chosen : Z) : Z :=
  match options, weights with
  | o :: options', w :: weights' =>
      let r' := (r - w)%Q in
      if Qle_bool r' 0 then o else sample r' options' weights' chosen
  | _, _ => chosen
  end.

Definition _collapseCell (rand : nat -> Q) (k : nat) (g : WFCGrid) (idx : Z)
  : bool * WFCGrid * nat :=
  let options := bitsForEach (wave_at g idx) in
  match options with
  | [] => (false, g, k)
  | first :: _ =>
      let weights := map weight options in
      let total := fold_left Qplus weights 0%Q in
      let r := (rand k * total)%Q in
      let chosen := sample r options weights first in
      let g1 := set_wave g idx (bitsSet bitsNew chosen) in
      let g2 := set_collapsed g1 idx chosen in
      (true, add_dirty g2 idx, S k)
  end.

(** ** Constraint propagation *)

(** Whether neighbour [nIdx] is, or can still become, [terrain]. *)
Definition neighbour_matches (g : WFCGrid) (terr : terrain) (nIdx : Z) : bool :=
  if negb (collapsed_at g nIdx =? -1)
  then terrain_eqb (t_terrain (tile_at (collapsed_at g nIdx))) terr
  else existsb (fun nt => terrain_eqb (t_terrain (tile_at nt)) terr)
               (bitsForEach (wave_at g nIdx)).

Definition foundUniform (g : WFCGrid) (idx : Z) : bool :=
  existsb (fun terr => forallb (neighbour_matches g terr) (_allNeighbours g idx))
          [sea; ground; mountain].

(** [_enforceHouseConstraints(idx, wave)]: the bit set [wave] after the call.
    The neighbours' waves and collapsed tiles are read in [g]; [idx] is not
    among its own neighbours ([allNeighbours_not_self]), so the result is the
    same when [wave] is the cell's own bit set, changed in place. *)
Definition _enforceHouseConstraints (g : WFCGrid) (idx : Z) (w : bits) : bits :=
  let '(x, y) := _xy g idx in
  let atEdge := at_edge g x y in
  fold_left
    (fun w t =>
       if negb (has w t) then w
       else if negb (is_house t) then w
       else if atEdge then bitsClear w t
       else if negb (foundUniform g idx) then bitsClear w t
       else w)
    (range N_TILES) w.

(** The state of the loop of [_propagate]; the head of [p_stack] is the top
    of the stack (the last element of the JavaScript array). *)
Record pstate : Type := mkP {
  p_grid : WFCGrid;
  p_stack : list Z;
  p_changed : list Z
}.

(** [this.collapsed[nIdx] = t] for each member [t], when there is one member. *)
Definition collapse_if_single (g : WFCGrid) (nIdx : Z) (w : bits) : WFCGrid :=
  if bitsCount w =? 1
  then fold_left (fun g1 t => set_collapsed g1 nIdx t) (bitsForEach w) g
  else g.

Definition narrowed (g : WFCGrid) (current nIdx : Z) : bits :=
  fold_left
    (fun newWave nTile =>
       if existsb (fun cTile => allowed_has cTile nTile)
                  (bitsForEach (wave_at g current))
       then bitsSet newWave nTile else newWave)
    (bitsForEach (wave_at g nIdx)) bitsNew.

(** The body of the loop over the cardinal neighbours. *)
Definition cardinal_step (current : Z) (st : pstate) (nIdx : Z) : pstate :=
  let g := p_grid st in
  if negb (collapsed_at g nIdx =? -1) then st
  else
    let before := bitsClone (wave_at g nIdx) in
    let newWave := _enforceHouseConstraints g nIdx (narrowed g current nIdx) in
    if negb (bitsEqual before newWave) then
      let g1 := add_dirty (set_wave g nIdx newWave) nIdx in
      mkP (collapse_if_single g1 nIdx newWave)
          (nIdx :: p_stack st) (set_add (p_changed st) nIdx)
    else st.

(** The body of the loop over all 8 neighbours. *)
Definition house_step (st : pstate) (nIdx : Z) : pstate :=
  let g := p_grid st in
  if negb (collapsed_at g nIdx =? -1) then st
  else
    let before := bitsClone (wave_at g nIdx) in
    let g1 := set_wave g nIdx (_enforceHouseConstraints g nIdx (wave_at g nIdx)) in
    if negb (bitsEqual before (wave_at g1 nIdx)) then
      let g2 := add_dirty g1 nIdx in
      mkP (collapse_if_single g2 nIdx (wave_at g2 nIdx))
          (nIdx :: p_stack st) (set_add (p_changed st) nIdx)
    else mkP g1 (p_stack st) (p_changed st).

(** One iteration of the [while] loop, [current] already popped. *)
Definition propagate_iter (current : Z) (st : pstate) : pstate :=
  let st1 := fold_left (cardinal_step current)
                       (_cardinalNeighbours (p_grid st) current) st in
  fold_left house_step (_allNeighbours (p_grid st1) current) st1.

Fixpoint propagate_loop (fuel : nat) (st : pstate) : option pstate :=
  match p_stack st with
  | [] => Some st
  | current :: stack' =>
      match fuel with
      | O => None
      | S fuel' =>
          propagate_loop fuel'
            (propagate_iter current (mkP (p_grid st) stack' (p_changed st)))
      end
  end.

(** The sum of the entropies of the cells. *)
Definition total_entropy (g : WFCGrid) : Z :=
  fold_left (fun s b => s + bitsCount b) (wave g) 0.

(** Iterations that [_propagate] can need at most. *)
Definition propagate_fuel (g : WFCGrid) (seeds : list Z) : nat :=
  length seeds + Z.to_nat (total_entropy g).

(** [_propagate(seeds)]: the grid afterwards and the returned set. *)
Definition _propagate (g : WFCGrid) (seeds : list Z) : option (WFCGrid * list Z) :=
  match propagate_loop (propagate_fuel g seeds)
                       (mkP g (rev seeds) (fold_left set_add seeds []))
  with
  | Some st => Some (p_grid st, p_changed st)
  | None => None
  end.

(** ** The generator [run] *)

Inductive event : Type :=
| Collapse (idx tile : Z)
| Propagate (changed : list Z)
| Done
| Contradiction (idx : Z).

Definition is_terminal (e : event) : bool :=
  match e with
  | Done | Contradiction _ => true
  | _ => false
  end.

(** Every yielded event is paired with the grid at the time of the [yield]. *)
Definition trace : Type := list (event * WFCGrid).

(** The [while (true)] loop of [run]. *)
Fixpoint run_loop (fuel : nat) (rand : nat -> Q) (k : nat) (g : WFCGrid)
  : option trace :=
  match fuel with
  | O => None
  | S fuel' =>
      let '(next, k1) := _pickLowestEntropy rand k g in
      if next =? -2 then Some [(Done, g)]
      else if next =? -1 then Some [(Contradiction (-1), g)]
      else
        let '(ok, g1, k2) := _collapseCell rand k1 g next in
        if negb ok then Some [(Contradiction next, g1)]
        else
          match _propagate g1 [next] with
          | None => None
          | Some (g2, changed) =>
              match run_loop fuel' rand k2 g2 with
              | None => None
              | Some rest =>
                  Some ((Collapse next (collapsed_at g1 next), g1)
                          :: (Propagate changed, g2) :: rest)
              end
          end
  end.

Definition run_from (fuel : nat) (rand : nat -> Q) (g : WFCGrid) (startIdx : Z)
  : option trace :=
  let '(ok, g1, k1) := _collapseCell rand 0%nat g startIdx in
  if negb ok then Some [(Contradiction startIdx, g1)]
  else
    match _propagate g1 [startIdx] with
    | None => None
    | Some (g2, firstChanged) =>
        match run_loop fuel rand k1 g2 with
        | None => None
        | Some rest =>
            Some ((Collapse startIdx (collapsed_at g1 startIdx), g1)
                    :: (Propagate firstChanged, g2) :: rest)
        end
    end.

(** Iterations of the main loop that [run] can need at most: one per cell
    and one for the terminal event. *)
Definition run (rand : nat -> Q) (g : WFCGrid) (startIdx : Z) : option trace :=
  run_from (S (Z.to_nat (size g))) rand g startIdx.

(** ** Accessors *)

Definition getTile (g : WFCGrid) (idx : Z) : option tile :=
  if collapsed_at g idx =? -1 then None else Some (tile_at (collapsed_at g idx)).

Definition getEntropy (g : WFCGrid) (idx : Z) : Z := bitsCount (wave_at g idx).

Definition isCollapsed (g : WFCGrid) (idx : Z) : bool :=
  negb (collapsed_at g idx =? -1).

Definition totalCollapsed (g : WFCGrid) : Z :=
  fold_left (fun c i => if negb (collapsed_at g i =? -1) then c + 1 else c)
            (range (size g)) 0.

(** ** Hit testing (renderer.js)

    Of the renderer only the geometry is modelled: the canvas, its drawing
    context and the highlight map play no part in [hitTest]. Pixel
    coordinates are rationals and the subtraction and the division on them
    are exact: the rounding of double arithmetic is not modelled, nor are
    NaN, the infinities and a division by a step of 0 (the constructor
    makes the step 33). *)

Definition CELL_SIZE : Z := 32.
Definition CELL_GAP : Z := 1.

Record Renderer : Type := mkRenderer {
  gridW : Z;
  gridH : Z;
  cellPx : Z;
  gap : Z
}.

(** [new Renderer(canvas, gridW, gridH)] *)
Definition new_Renderer (w h : Z) : Renderer := mkRenderer w h CELL_SIZE CELL_GAP.

(** The pixel column (or row) at which [draw] places cell column [x]:
    [this.gap + x * step]. *)
Definition cell_origin (r : Renderer) (x : Z) : Z :=
  gap r + x * (cellPx r + gap r).

Definition hitTest (r : Renderer) (px py : Q) : Z :=
  let step := cellPx r + gap r in
  let cx := Qfloor ((px - inject_Z (gap r)) / inject_Z step) in
  let cy := Qfloor ((py - inject_Z (gap r)) / inject_Z step) in
  if (cx <? 0) || (cy <? 0) || (cx >=? gridW r) || (cy >=? gridH r) then -1
  else cy * gridW r + cx.

(** * Specification predicates *)

Definition in_grid (g : WFCGrid) (c : Z) : Prop := 0 <= c < size g.

Definition is_tile (t : Z) : Prop := 0 <= t < N_TILES.

(** A bit set as the engine builds them: [ceil(N_TILES / 8)] bytes, and no
    bit beyond the tiles. *)
Definition bits_wf (b : bits) : Prop :=
  length b = 3%nat /\ Forall (fun x => 0 <= x < 256) b /\ has b 23 = false.

(** The bit set [{t}]. *)
Definition singleton (t : Z) : bits := bitsSet bitsNew t.

(** [a] is included in [b]. *)
Definition bits_sub (a b : bits) : Prop :=
  forall t, is_tile t -> has a t = true -> has b t = true.

(** The grids the engine works on: positive dimensions, one bit set and one
    marker per cell, and every collapsed cell holds the singleton of its
    tile. *)
Definition grid_wf (g : WFCGrid) : Prop :=
  0 < width g /\ 0 < height g /\ size g = width g * height g /\
  length (wave g) = Z.to_nat (size g) /\
  length (collapsed g) = Z.to_nat (size g) /\
  (forall c, in_grid g c -> bits_wf (wave_at g c)) /\
  (forall c, in_grid g c -> collapsed_at g c <> -1 ->
             is_tile (collapsed_at g c) /\
             wave_at g c = singleton (collapsed_at g c)).

(** [g'] is a later state of [g]: same dimensions, every possibility set
    included in the earlier one, and the collapsed cells untouched. *)
Definition evolves (g g' : WFCGrid) : Prop :=
  width g' = width g /\ height g' = height g /\ size g' = size g /\
  (forall c, in_grid g c -> bits_sub (wave_at g' c) (wave_at g c)) /\
  (forall c, in_grid g c -> collapsed_at g c <> -1 ->
             collapsed_at g' c = collapsed_at g c /\
             wave_at g' c = wave_at g c).

(** What both passes of [_propagate] do with a neighbour whose bit set
    changed to [w]. *)
Definition install (g : WFCGrid) (nIdx : Z) (w : bits) : WFCGrid :=
  collapse_if_single (add_dirty (set_wave g nIdx w) nIdx) nIdx w.

(** The draws of [Math.random()] lie in the unit interval. *)
Definition unit_draws (rand : nat -> Q) : Prop :=
  forall n, (0 <= rand n)%Q /\ (rand n < 1)%Q.

(** The cells in superposition, in row-major order. *)
Definition uncollapsed_cells (g : WFCGrid) : list Z :=
  filter (fun i => collapsed_at g i =? -1) (range (size g)).

(** The least entropy among [cells], starting from [init]. *)
Definition min_entropy (g : WFCGrid) (cells : list Z) (init : option Z)
  : option Z :=
  fold_left
    (fun m i =>
       let c := bitsCount (wave_at g i) in
       match m with None => Some c | Some b => Some (Z.min b c) end)
    cells init.

(** The cells in superposition whose entropy is the least one. *)
Definition lowest_entropy_cells (g : WFCGrid) : list Z :=
  match min_entropy g (uncollapsed_cells g) None with
  | None => []
  | Some m => filter (fun i => bitsCount (wave_at g i) =? m) (uncollapsed_cells g)
  end.

(** The result of the scan in closed form. *)
Definition scan_result (g : WFCGrid) (cells : list Z) (best : option Z)
           (candidates : list Z) : option (list Z) :=
  let u := filter (fun i => collapsed_at g i =? -1) cells in
  if existsb (fun i => bitsCount (wave_at g i) =? 0) u then None
  else
    Some match min_entropy g u best with
         | None => candidates
         | Some m =>
             (if match best with Some b => b =? m | None => false end
              then candidates else [])
             ++ filter (fun i => bitsCount (wave_at g i) =? m) u
         end.

(** Successive grids of a trace, starting after [g]. *)
Fixpoint chain (g : WFCGrid) (tr : trace) : Prop :=
  match tr with
  | [] => True
  | (_, g1) :: rest => grid_wf g1 /\ evolves g g1 /\ chain g1 rest
  end.

(** One terminal event, at the end. *)
Definition well_terminated (evs : list event) : Prop :=
  exists body last,
    evs = body ++ [last] /\ is_terminal last = true /\
    Forall (fun e => is_terminal e = false) body.

(** What [_removeHouseTiles] does to one bit set. *)
Definition clearHouses (b : bits) : bits :=
  fold_left (fun b i => if is_house i then bitsClear b i else b)
            (range N_TILES) b.

(** The full bit set without the house tiles. *)
Definition houseless : bits := Eval cbv in clearHouses bitsAll.

(** The cell of [(x, y)] is [c] and lies on the edge of a [w] by [h] grid. *)
Definition edge_hit (w h c : Z) (p : Z * Z) : bool :=
  ((fst p =? 0) || (snd p =? 0) || (fst p =? w - 1) || (snd p =? h - 1))
  && (snd p * w + fst p =? c).

(** The grids [reset] goes through. *)
Definition reset_inv (w h : Z) (g : WFCGrid) : Prop :=
  width g = w /\ height g = h /\ size g = w * h /\
  length (wave g) = Z.to_nat (w * h) /\
  collapsed g = map (fun _ => -1) (range (w * h)) /\
  (forall c, 0 <= c < w * h -> wave_at g c = bitsAll \/ wave_at g c = houseless).

(** [g'] is [g] with the house tiles removed at the edge cells of [cells]. *)
Definition reset_rel (w h : Z) (cells : list (Z * Z)) (g g' : WFCGrid) : Prop :=
  reset_inv w h g' /\
  forall c, 0 <= c < w * h ->
            wave_at g' c = if existsb (edge_hit w h c) cells then houseless
                           else wave_at g c.

(** The cell [c] has 8 neighbours, all collapsed to one terrain among sea,
    ground and mountain. *)
Definition house_uniform_at (g : WFCGrid) (c : Z) : bool :=
  let ns := _allNeighbours g c in
  (Z.of_nat (length ns) =? 8)
  && existsb
       (fun terr =>
          forallb (fun n => negb (collapsed_at g n =? -1)
                            && terrain_eqb (t_terrain (tile_at (collapsed_at g n))) terr)
                  ns)
       [sea; ground; mountain].

(** Every cell collapsed to a house tile satisfies [house_uniform_at]. *)
Definition houses_uniform (g : WFCGrid) : bool :=
  forallb (fun c => if negb (collapsed_at g c =? -1) && is_house (collapsed_at g c)
                    then house_uniform_at g c else true)
          (range (size g)).

(** [cardinalCompatible] holds from every cell to each cardinal neighbour. *)
Definition adjacent_compatible (g : WFCGrid) : bool :=
  forallb
    (fun c =>
       forallb (fun n => cardinalCompatible (tile_at (collapsed_at g c))
                                            (tile_at (collapsed_at g n)))
               (_cardinalNeighbours g c))
    (range (size g)).

(** The last yield of a trace. *)
Definition final (tr : trace) : option (event * WFCGrid) :=
  match rev tr with
  | [] => None
  | p :: _ => Some p
  end.

(** Draws that collapse the start cell to house z=5, pick the first
    candidate, collapse it to mountain z=6, and from then on take the first
    candidate and its first option. *)
Definition draws_mixed (k : nat) : Q :=
  match k with
  | 0%nat => 121 # 128
  | 2%nat => 3 # 4
  | _ => 0
  end.

(** Draws that collapse the start cell to house z=0 and from then on take
    the first candidate and its first option. *)
Definition draws_house_sea (k : nat) : Q :=
  match k with
  | 0%nat => 57 # 64
  | _ => 0
  end.

(** The stack is unchanged, or [n] was pushed and its bit set strictly
    shrank. *)
Definition pushed_only_on_change (st st' : pstate) (n : Z) : Prop :=
  p_stack st' = p_stack st
  \/ (p_stack st' = n :: p_stack st /\
      bits_sub (wave_at (p_grid st') n) (wave_at (p_grid st) n) /\
      bitsCount (wave_at (p_grid st') n) < bitsCount (wave_at (p_grid st) n)).

(** A loop state of [_propagate] whose grid is well formed and whose stack
    holds cells of the grid. *)
Definition p_ok (st : pstate) : Prop :=
  grid_wf (p_grid st) /\ Forall (in_grid (p_grid st)) (p_stack st).

(** The quantity that every iteration of the loop of [_propagate] decreases. *)
Definition pmeasure (st : pstate) : Z :=
  Z.of_nat (length (p_stack st)) + total_entropy (p_grid st).

Definition p_step (st st' : pstate) : Prop :=
  p_ok st' /\ evolves (p_grid st) (p_grid st') /\ pmeasure st' <= pmeasure st.

(** Every option of [n] is compatible, as a neighbour, with some option of
    [c]: [cardinalCompatible] from the option of [c] to the option of [n]. *)
Definition supported (g : WFCGrid) (c n : Z) : Prop :=
  forall t, is_tile t -> has (wave_at g n) t = true ->
  exists s, is_tile s /\ has (wave_at g c) s = true /\
            cardinalCompatible (tile_at s) (tile_at t) = true.

(** [c] supports each of its cardinal neighbours in superposition. *)
Definition arc_consistent_at (g : WFCGrid) (c : Z) : Prop :=
  forall n, In n (_cardinalNeighbours g c) -> collapsed_at g n = -1 ->
            supported g c n.

(** A cell in superposition holds a house tile only if it is not on the
    edge and some terrain is still possible at all of its neighbours. *)
Definition house_consistent_at (g : WFCGrid) (n : Z) : Prop :=
  collapsed_at g n = -1 ->
  forall t, is_tile t -> is_house t = true -> has (wave_at g n) t = true ->
  at_edge g (fst (_xy g n)) (snd (_xy g n)) = false /\ foundUniform g n = true.

(** A neighbour of [n] is on the stack, or [n] is house consistent. *)
Definition pending_or_house (g0 : WFCGrid) (st : pstate) (n : Z) : Prop :=
  (exists m, In m (_allNeighbours g0 n) /\ In m (p_stack st))
  \/ house_consistent_at (p_grid st) n.

(** [x] is a finite binary64 number that is not negative (the bound on the
    exponent from above is left out). *)
Definition is_b64 (x : Q) : Prop :=
  exists m e, 0 <= m < 2 ^ 53 /\ -1074 <= e /\ (x == inject_Z m * 2 ^ e)%Q.

(** One pass step on neighbour [n]: nothing happens, or the bit set of the
    cell [n] in superposition becomes the strictly smaller [w], which is
    installed, and [n] is pushed and recorded. *)
Definition stepped (st st' : pstate) (n : Z) : Prop :=
  st' = st
  \/ (collapsed_at (p_grid st) n = -1 /\
      exists w,
        bits_wf w /\ bits_sub w (wave_at (p_grid st) n) /\
        bitsCount w < bitsCount (wave_at (p_grid st) n) /\
        st' = mkP (install (p_grid st) n w) (n :: p_stack st)
                  (set_add (p_changed st) n)).

(** The main loop of [run] from grid [g]: what each yield is, and the grid
    it is made on. *)
Inductive run_shape : WFCGrid -> trace -> Prop :=
| shape_done g :
    uncollapsed_cells g = [] -> run_shape g [(Done, g)]
| shape_contradiction g i :
    In i (uncollapsed_cells g) -> bitsCount (wave_at g i) = 0 ->
    run_shape g [(Contradiction (-1), g)]
| shape_step g next chosen g1 g2 changed rest :
    In next (lowest_entropy_cells g) ->
    (forall i, In i (uncollapsed_cells g) -> bitsCount (wave_at g i) <> 0) ->
    In chosen (bitsForEach (wave_at g next)) ->
    g1 = add_dirty (set_collapsed (set_wave g next (singleton chosen))
                                  next chosen) next ->
    _propagate g1 [next] = Some (g2, changed) ->
    run_shape g2 rest ->
    run_shape g ((Collapse next chosen, g1) :: (Propagate changed, g2) :: rest).

(** The cells of the [Collapse] events of a trace. *)
Fixpoint collapse_cells (tr : trace) : list Z :=
  match tr with
  | [] => []
  | (Collapse idx _, _) :: rest => idx :: collapse_cells rest
  | _ :: rest => collapse_cells rest
  end.

(** Events alternate [Collapse], [Propagate] up to one terminal event. *)
Fixpoint alternating (evs : list event) : Prop :=
  match evs with
  | [e] => is_terminal e = true
  | Collapse _ _ :: Propagate _ :: rest => alternating rest
  | _ => False
  end.

(** No cell in superposition is down to exactly one option. *)
Definition no_single (g : WFCGrid) : Prop :=
  forall c, in_grid g c -> collapsed_at g c = -1 ->
            bitsCount (wave_at g c) <> 1.

(** * Properties *)

(** Linear arithmetic with division and remainder by constants. *)
Ltac dlia := Z.to_euclidean_division_equations; lia.

(** ** Arrays and ranges *)

Lemma length_upd_nat {A} (l : list A) n x : length (upd_nat l n x) = length l.
Proof. revert n; induction l; intros [|n]; simpl; auto. Qed.

Lemma nth_upd_nat_eq {A} (l : list A) n x d :
  (n < length l)%nat -> nth n (upd_nat l n x) d = x.
Proof.
  revert n; induction l; intros [|n]; simpl; intros; try lia; auto.
  apply IHl; lia.
Qed.

Lemma nth_upd_nat_neq {A} (l : list A) n m x d :
  n <> m -> nth m (upd_nat l n x) d = nth m l d.
Proof.
  revert n m; induction l; intros [|n] [|m]; simpl; intros; try lia; auto.
Qed.

Lemma upd_nat_same {A} (l : list A) n d : upd_nat l n (nth n l d) = l.
Proof.
  revert n; induction l; intros [|n]; simpl; auto. now rewrite IHl.
Qed.

Lemma length_arr_set {A} (l : list A) i x : length (arr_set l i x) = length l.
Proof. unfold arr_set; destruct (i <? 0); auto using length_upd_nat. Qed.

Lemma arr_get_set_eq {A} (l : list A) i x d :
  0 <= i < Z.of_nat (length l) -> arr_get d (arr_set l i x) i = x.
Proof.
  intros H; unfold arr_get, arr_set.
  destruct (Z.ltb_spec i 0); try lia. apply nth_upd_nat_eq; lia.
Qed.

Lemma arr_get_set_neq {A} (l : list A) i j x d :
  0 <= j -> i <> j -> arr_get d (arr_set l i x) j = arr_get d l j.
Proof.
  intros Hj Hij; unfold arr_get, arr_set.
  destruct (Z.ltb_spec i 0); auto. apply nth_upd_nat_neq; lia.
Qed.

Lemma arr_set_same {A} (l : list A) i d : arr_set l i (arr_get d l i) = l.
Proof.
  unfold arr_set, arr_get; destruct (i <? 0); auto using upd_nat_same.
Qed.

Lemma in_range n i : In i (range n) <-> 0 <= i < n.
Proof.
  unfold range; rewrite in_map_iff; split.
  - intros (k & <- & Hk); apply in_seq in Hk; lia.
  - intros H; exists (Z.to_nat i); split; [lia | apply in_seq; lia].
Qed.

Lemma range_succ n : 0 <= n -> range (n + 1) = range n ++ [n].
Proof.
  intros H; unfold range.
  replace (Z.to_nat (n + 1)) with (Z.to_nat n + 1)%nat by lia.
  rewrite seq_app, map_app; simpl. now rewrite Z2Nat.id.
Qed.

Lemma NoDup_range n : NoDup (range n).
Proof.
  unfold range. apply Injective_map_NoDup; [| apply seq_NoDup].
  intros a b; lia.
Qed.

(** ** Bit sets *)

Lemma has_spec b i :
  0 <= i -> has b i = Z.testbit (arr_get 0 b (i / 8)) (i mod 8).
Proof.
  intros Hi; unfold has, bitsHas.
  rewrite (Z.shiftr_div_pow2 i 3) by lia.
  change 7 with (Z.ones 3); rewrite (Z.land_ones i 3) by lia.
  change (2 ^ 3) with 8.
  set (byte := arr_get 0 b (i / 8)).
  change 1 with (Z.ones 1); rewrite Z.land_ones by lia.
  change (2 ^ 1) with 2.
  rewrite <- Z.bit0_mod, Z.shiftr_spec by lia. simpl.
  now destruct (Z.testbit _ _).
Qed.

Lemma bitsSet_eq b i :
  bitsSet b i = arr_set b (i / 8) (to_uint8 (Z.setbit (arr_get 0 b (i / 8)) (i mod 8))).
Proof.
  unfold bitsSet. rewrite (Z.shiftr_div_pow2 i 3) by lia.
  change 7 with (Z.ones 3); rewrite (Z.land_ones i 3) by lia.
  now rewrite Z.setbit_spec', Z.shiftl_1_l.
Qed.

Lemma bitsClear_eq b i :
  bitsClear b i =
  arr_set b (i / 8) (to_uint8 (Z.clearbit (arr_get 0 b (i / 8)) (i mod 8))).
Proof.
  unfold bitsClear. rewrite (Z.shiftr_div_pow2 i 3) by lia.
  change 7 with (Z.ones 3); rewrite (Z.land_ones i 3) by lia.
  now rewrite Z.clearbit_spec', Z.shiftl_1_l, Z.ldiff_land.
Qed.

Lemma testbit_uint8 v k : 0 <= k < 8 -> Z.testbit (to_uint8 v) k = Z.testbit v k.
Proof. intros; unfold to_uint8; change 256 with (2 ^ 8); apply Z.mod_pow2_bits_low; lia. Qed.

Lemma to_uint8_range v : 0 <= to_uint8 v < 256.
Proof. unfold to_uint8; apply Z.mod_pos_bound; lia. Qed.

Lemma length_bitsSet b i : length (bitsSet b i) = length b.
Proof. apply length_arr_set. Qed.

Lemma length_bitsClear b i : length (bitsClear b i) = length b.
Proof. apply length_arr_set. Qed.

Lemma has_bitsSet b i j :
  length b = 3%nat -> 0 <= i < 24 -> 0 <= j < 24 ->
  has (bitsSet b i) j = (i =? j) || has b j.
Proof.
  intros Hl Hi Hj. rewrite !has_spec, bitsSet_eq by lia.
  destruct (Z.eq_dec (i / 8) (j / 8)) as [E|E].
  - rewrite E, arr_get_set_eq by (rewrite Hl; dlia).
    rewrite testbit_uint8 by dlia. rewrite Z.setbit_eqb by dlia.
    destruct (Z.eqb_spec (i mod 8) (j mod 8)), (Z.eqb_spec i j); auto; dlia.
  - rewrite arr_get_set_neq by dlia.
    destruct (Z.eqb_spec i j); auto; subst; lia.
Qed.

Lemma has_bitsClear b i j :
  length b = 3%nat -> 0 <= i < 24 -> 0 <= j < 24 ->
  has (bitsClear b i) j = negb (i =? j) && has b j.
Proof.
  intros Hl Hi Hj. rewrite !has_spec, bitsClear_eq by lia.
  destruct (Z.eq_dec (i / 8) (j / 8)) as [E|E].
  - rewrite E, arr_get_set_eq by (rewrite Hl; dlia).
    rewrite testbit_uint8 by dlia. rewrite Z.clearbit_eqb.
    destruct (Z.eqb_spec (i mod 8) (j mod 8)), (Z.eqb_spec i j);
      simpl; auto using andb_true_r, andb_false_r; dlia.
  - rewrite arr_get_set_neq by dlia.
    destruct (Z.eqb_spec i j); auto; subst; lia.
Qed.

Lemma Forall_upd_nat {A} (P : A -> Prop) l n x :
  Forall P l -> P x -> Forall P (upd_nat l n x).
Proof.
  intros Hl Hx; revert n; induction Hl; intros [|n]; simpl; auto.
Qed.

Lemma Forall_arr_set {A} (P : A -> Prop) l i x :
  Forall P l -> P x -> Forall P (arr_set l i x).
Proof. unfold arr_set; destruct (i <? 0); auto using Forall_upd_nat. Qed.

Lemma bits_wf_bitsNew : bits_wf bitsNew.
Proof. repeat split; repeat constructor; lia. Qed.

Lemma bits_wf_bitsSet b i : bits_wf b -> 0 <= i < 23 -> bits_wf (bitsSet b i).
Proof.
  intros (Hl & Hb & H23) Hi; repeat split.
  - now rewrite length_bitsSet.
  - apply Forall_arr_set; auto using to_uint8_range.
  - rewrite has_bitsSet, H23 by lia. destruct (Z.eqb_spec i 23); auto; lia.
Qed.

Lemma bits_wf_bitsClear b i : bits_wf b -> 0 <= i < 24 -> bits_wf (bitsClear b i).
Proof.
  intros (Hl & Hb & H23) Hi; repeat split.
  - now rewrite length_bitsClear.
  - apply Forall_arr_set; auto using to_uint8_range.
  - rewrite has_bitsClear, H23 by lia. apply andb_false_r.
Qed.

Lemma byte_ext x y :
  0 <= x < 256 -> 0 <= y < 256 ->
  (forall n, 0 <= n < 8 -> Z.testbit x n = Z.testbit y n) -> x = y.
Proof.
  intros Hx Hy H. apply Z.bits_inj'; intros n Hn.
  destruct (Z_lt_ge_dec n 8) as [L|G]; [apply H; lia|].
  rewrite <- (Z.mod_small x 256), <- (Z.mod_small y 256) by lia.
  change 256 with (2 ^ 8). now rewrite !Z.mod_pow2_bits_high by lia.
Qed.

Lemma bits_ext a b :
  bits_wf a -> bits_wf b ->
  (forall t, is_tile t -> has a t = has b t) -> a = b.
Proof.
  intros (La & Fa & Ha) (Lb & Fb & Hb) H.
  assert (H' : forall t, 0 <= t < 24 -> has a t = has b t).
  { intros t Ht. destruct (Z.eq_dec t 23) as [->|]; [congruence|].
    apply H; unfold is_tile, N_TILES; lia. }
  clear H Ha Hb.
  destruct a as [|a0 [|a1 [|a2 [|]]]]; try discriminate.
  destruct b as [|b0 [|b1 [|b2 [|]]]]; try discriminate.
  inversion Fa as [|? ? A0 Fa1]; inversion Fa1 as [|? ? A1 Fa2];
    inversion Fa2 as [|? ? A2 _]; subst.
  inversion Fb as [|? ? B0 Fb1]; inversion Fb1 as [|? ? B1 Fb2];
    inversion Fb2 as [|? ? B2 _]; subst.
  f_equal; [|f_equal; [|f_equal]]; apply byte_ext; auto; intros n Hn.
  - specialize (H' n ltac:(lia)). rewrite !has_spec in H' by lia.
    replace (n / 8) with 0 in H' by dlia. replace (n mod 8) with n in H' by dlia.
    exact H'.
  - specialize (H' (8 + n) ltac:(lia)). rewrite !has_spec in H' by lia.
    replace ((8 + n) / 8) with 1 in H' by dlia.
    replace ((8 + n) mod 8) with n in H' by dlia. exact H'.
  - specialize (H' (16 + n) ltac:(lia)). rewrite !has_spec in H' by lia.
    replace ((16 + n) / 8) with 2 in H' by dlia.
    replace ((16 + n) mod 8) with n in H' by dlia. exact H'.
Qed.

Lemma bitsEqual_iff a b :
  length a = length b -> (bitsEqual a b = true <-> a = b).
Proof.
  revert b; induction a as [|x a IH]; intros [|y b]; simpl; try discriminate.
  - tauto.
  - intros [= L]. destruct (Z.eqb_spec x y).
    + rewrite IH by auto. subst; split; congruence.
    + split; congruence.
Qed.

Lemma fold_count {A} (p : A -> bool) l acc :
  fold_left (fun c i => if p i then c + 1 else c) l acc
  = acc + Z.of_nat (length (filter p l)).
Proof.
  revert acc; induction l as [|x l IH]; intros acc; simpl; [lia|].
  rewrite IH. destruct (p x); simpl; lia.
Qed.

Lemma bitsCount_length b : bitsCount b = Z.of_nat (length (bitsForEach b)).
Proof. unfold bitsCount, bitsForEach. now rewrite fold_count. Qed.

Lemma in_bitsForEach b t : In t (bitsForEach b) <-> is_tile t /\ has b t = true.
Proof. unfold bitsForEach, is_tile. now rewrite filter_In, in_range. Qed.

Lemma bitsCount_nonneg b : 0 <= bitsCount b.
Proof. rewrite bitsCount_length; lia. Qed.

Lemma filter_length_mono {A} (p q : A -> bool) l :
  (forall x, In x l -> p x = true -> q x = true) ->
  (length (filter p l) <= length (filter q l))%nat.
Proof.
  induction l as [|x l IH]; simpl; intros H; auto.
  specialize (IH (fun y Hy => H y (or_intror Hy))).
  specialize (H x (or_introl eq_refl)).
  destruct (p x), (q x); simpl; try lia; discriminate H; auto.
Qed.

Lemma filter_length_strict {A} (p q : A -> bool) l x :
  (forall y, In y l -> p y = true -> q y = true) ->
  In x l -> p x = false -> q x = true ->
  (length (filter p l) < length (filter q l))%nat.
Proof.
  induction l as [|y l IH]; simpl; intros H Hin Hp Hq; [tauto|].
  assert (Hl := filter_length_mono p q l (fun z Hz => H z (or_intror Hz))).
  destruct Hin as [->|Hin].
  - rewrite Hp, Hq; simpl; lia.
  - specialize (IH (fun z Hz => H z (or_intror Hz)) Hin Hp Hq).
    specialize (H y (or_introl eq_refl)).
    destruct (p y), (q y); simpl; try lia; discriminate H; auto.
Qed.

Lemma bitsCount_sub a b : bits_sub a b -> bitsCount a <= bitsCount b.
Proof.
  intros H; rewrite !bitsCount_length; unfold bitsForEach.
  apply inj_le, filter_length_mono. intros x Hx; apply H, in_range, Hx.
Qed.

Lemma bitsCount_sub_lt a b t :
  bits_sub a b -> is_tile t -> has a t = false -> has b t = true ->
  bitsCount a < bitsCount b.
Proof.
  intros H Ht Ha Hb; rewrite !bitsCount_length; unfold bitsForEach.
  apply inj_lt, (filter_length_strict _ _ _ t); auto.
  - intros x Hx; apply H, in_range, Hx.
  - apply in_range, Ht.
Qed.

(** Two well-formed bit sets, one included in the other, that [bitsEqual]
    tells apart differ in size. *)
Lemma bitsEqual_false_lt a b :
  bits_wf a -> bits_wf b -> bits_sub a b -> bitsEqual b a = false ->
  bitsCount a < bitsCount b.
Proof.
  intros Wa Wb Hs Hne.
  destruct (forallb (fun t => eqb (has a t) (has b t)) (range N_TILES)) eqn:E.
  - rewrite forallb_forall in E.
    assert (a = b).
    { apply bits_ext; auto. intros t Ht. apply eqb_prop, E, in_range, Ht. }
    subst. assert (bitsEqual b b = true) by now apply bitsEqual_iff.
    congruence.
  - assert (exists t, In t (range N_TILES) /\ eqb (has a t) (has b t) = false)
      as (t & Ht & Hd).
    { clear -E. induction (range N_TILES) as [|x l IH]; simpl in *; [discriminate|].
      apply andb_false_iff in E as [E|E]; [exists x; auto|].
      destruct (IH E) as (t & ? & ?); exists t; auto. }
    apply in_range in Ht.
    destruct (has a t) eqn:Ha, (has b t) eqn:Hb; simpl in Hd; try discriminate.
    + apply Hs in Ha; auto; congruence.
    + eapply bitsCount_sub_lt; eauto.
Qed.

Lemma bits_sub_refl a : bits_sub a a.
Proof. now intros t. Qed.

Lemma bits_sub_trans a b c : bits_sub a b -> bits_sub b c -> bits_sub a c.
Proof. intros H1 H2 t Ht H; auto. Qed.

(** A well-formed bit set with one member is that member's singleton. *)
Lemma bitsForEach_single b t :
  bits_wf b -> bitsForEach b = [t] -> is_tile t /\ b = singleton t.
Proof.
  intros Wb E.
  assert (Ht : is_tile t /\ has b t = true).
  { apply in_bitsForEach; rewrite E; simpl; auto. }
  split; [tauto|]. destruct Ht as [Ht Hb].
  assert (Hl : length bitsNew = 3%nat) by reflexivity.
  apply bits_ext; auto.
  - apply bits_wf_bitsSet; [apply bits_wf_bitsNew | unfold is_tile, N_TILES in Ht; lia].
  - intros u Hu. unfold singleton.
    unfold is_tile, N_TILES in Ht, Hu.
    rewrite has_bitsSet by (auto; lia).
    destruct (Z.eqb_spec t u) as [->|Hne]; simpl; [auto|].
    assert (Hn : has bitsNew u = false).
    { rewrite has_spec by lia. unfold bitsNew, arr_get; simpl.
      destruct (Z.to_nat (u / 8)) as [|[|[|[|]]]]; simpl; apply Z.bits_0. }
    rewrite Hn. destruct (has b u) eqn:Hbu; auto.
    assert (In u (bitsForEach b)) by (apply in_bitsForEach; split; auto).
    rewrite E in H; simpl in H; destruct H; [congruence|tauto].
Qed.

Lemma bitsForEach_singleton t : is_tile t -> bitsForEach (singleton t) = [t].
Proof.
  unfold is_tile, N_TILES; intros Ht.
  assert (t = 0 \/ t = 1 \/ t = 2 \/ t = 3 \/ t = 4 \/ t = 5 \/ t = 6 \/ t = 7
          \/ t = 8 \/ t = 9 \/ t = 10 \/ t = 11 \/ t = 12 \/ t = 13 \/ t = 14
          \/ t = 15 \/ t = 16 \/ t = 17 \/ t = 18 \/ t = 19 \/ t = 20 \/ t = 21
          \/ t = 22) as H by lia.
  repeat (destruct H as [->|H]; [reflexivity|]). subst; reflexivity.
Qed.

(** ** Grid geometry *)

Lemma idx_in_range w h x y :
  0 <= x < w -> 0 <= y < h -> 0 <= y * w + x < w * h.
Proof. intros; nia. Qed.

Lemma xy_spec g idx :
  0 < width g -> 0 <= idx ->
  let '(x, y) := _xy g idx in
  0 <= x < width g /\ 0 <= y /\ idx = y * width g + x.
Proof.
  intros Hw Hi; unfold _xy. rewrite Z.rem_mod_nonneg by lia.
  pose proof (Z.mod_pos_bound idx (width g) Hw).
  pose proof (Z.div_mod idx (width g) ltac:(lia)).
  pose proof (Z.div_pos idx (width g) Hi Hw). lia.
Qed.

Lemma xy_in_grid g idx :
  grid_wf g -> in_grid g idx ->
  let '(x, y) := _xy g idx in
  0 <= x < width g /\ 0 <= y < height g /\ idx = y * width g + x.
Proof.
  intros (Hw & Hh & Hs & _) [H0 H1].
  pose proof (xy_spec g idx Hw H0) as H. destruct (_xy g idx) as [x y].
  destruct H as (Hx & Hy & E). repeat split; try lia. rewrite Hs in H1. nia.
Qed.

Lemma cardinalNeighbours_in_grid g idx n :
  grid_wf g -> in_grid g idx -> In n (_cardinalNeighbours g idx) -> in_grid g n.
Proof.
  intros Wf Hi. pose proof (xy_in_grid g idx Wf Hi) as H.
  unfold _cardinalNeighbours. destruct (_xy g idx) as [x y].
  destruct H as (Hx & Hy & E). destruct Wf as (Hw & Hh & Hs & _).
  unfold in_grid, _idx; rewrite Hs.
  rewrite !in_app_iff.
  destruct (Z.gtb_spec x 0), (Z.ltb_spec x (width g - 1)),
    (Z.gtb_spec y 0), (Z.ltb_spec y (height g - 1)); simpl;
    intros Hin; repeat (destruct Hin as [Hin|Hin]; try tauto); subst n; nia.
Qed.

Lemma from_to_m1_1 : from_to (-1) 1 = [-1; 0; 1].
Proof. reflexivity. Qed.

Lemma allNeighbours_spec g idx n :
  grid_wf g -> in_grid g idx -> In n (_allNeighbours g idx) ->
  in_grid g n /\ n <> idx.
Proof.
  intros Wf Hi. pose proof (xy_in_grid g idx Wf Hi) as H.
  unfold _allNeighbours. destruct (_xy g idx) as [x y].
  destruct H as (Hx & Hy & E). destruct Wf as (Hw & Hh & Hs & _).
  rewrite from_to_m1_1. unfold in_grid, _idx; rewrite Hs.
  clear Hi. intros H. apply in_flat_map in H as (dy & Hdy & H).
  apply in_flat_map in H as (dx & Hdx & H).
  destruct ((dx =? 0) && (dy =? 0)) eqn:E0; [destruct H|].
  destruct ((x + dx >=? 0) && (x + dx <? width g) && (y + dy >=? 0)
            && (y + dy <? height g)) eqn:E1; [|destruct H].
  destruct H as [<-|[]].
  rewrite !andb_true_iff in E1. rewrite andb_false_iff in E0.
  destruct E1 as [[[A B] C] D].
  apply Z.geb_le in A, C. apply Z.ltb_lt in B, D.
  split; [nia|].
  rewrite !Z.eqb_neq in E0. intros Heq.
  assert (dy = 0) by nia. assert (dx = 0) by nia. lia.
Qed.

(** A cell is not among its own 8 neighbours. *)
Lemma allNeighbours_not_self g idx :
  grid_wf g -> in_grid g idx -> ~ In idx (_allNeighbours g idx).
Proof. intros Wf Hi H. now apply allNeighbours_spec in H. Qed.

(** ** Reading a grid after an update *)

Lemma wave_at_set_wave g n w c :
  grid_wf g -> in_grid g n -> 0 <= c ->
  wave_at (set_wave g n w) c = if c =? n then w else wave_at g c.
Proof.
  intros (_ & _ & _ & Hl & _) Hn Hc; unfold wave_at, set_wave; simpl.
  destruct (Z.eqb_spec c n) as [->|Hne].
  - apply arr_get_set_eq. unfold in_grid in Hn. lia.
  - apply arr_get_set_neq; auto.
Qed.

Lemma collapsed_at_set_collapsed g n t c :
  length (collapsed g) = Z.to_nat (size g) -> in_grid g n -> 0 <= c ->
  collapsed_at (set_collapsed g n t) c = if c =? n then t else collapsed_at g c.
Proof.
  intros Hl Hn Hc; unfold collapsed_at, set_collapsed; simpl.
  destruct (Z.eqb_spec c n) as [->|Hne].
  - apply arr_get_set_eq. unfold in_grid in Hn. lia.
  - apply arr_get_set_neq; auto.
Qed.

(** ** The relation between successive grids *)

Lemma evolves_refl g : evolves g g.
Proof. repeat split; auto using bits_sub_refl. Qed.

Lemma evolves_trans g1 g2 g3 : evolves g1 g2 -> evolves g2 g3 -> evolves g1 g3.
Proof.
  intros (W1 & H1 & S1 & M1 & F1) (W2 & H2 & S2 & M2 & F2).
  repeat split; try congruence.
  - intros c Hc. eapply bits_sub_trans; [apply M2 | apply M1; auto].
    unfold in_grid in *; lia.
  - destruct (F1 c H H0) as [E1 _].
    destruct (F2 c) as [E2 _]; unfold in_grid in *; try lia; congruence.
  - destruct (F1 c H H0) as [E1 E1'].
    destruct (F2 c) as [_ E2]; unfold in_grid in *; try lia; congruence.
Qed.

(** ** Total entropy *)

Section Sums.
Context {A : Type} (f : A -> Z).

Lemma fold_sum_acc (l : list A) acc :
  fold_left (fun s b => s + f b) l acc
  = acc + fold_left (fun s b => s + f b) l 0.
Proof.
  revert acc; induction l as [|b l IH]; intros acc; cbn [fold_left]; [lia|].
  rewrite IH, (IH (0 + f b)). lia.
Qed.

Lemma fold_sum_nonneg (l : list A) :
  (forall b, 0 <= f b) -> 0 <= fold_left (fun s b => s + f b) l 0.
Proof.
  intros Hf; induction l as [|b l IH]; cbn [fold_left]; [lia|].
  rewrite fold_sum_acc. specialize (Hf b). lia.
Qed.

Lemma fold_sum_upd (l : list A) n w d :
  (n < length l)%nat ->
  fold_left (fun s b => s + f b) (upd_nat l n w) 0
  = fold_left (fun s b => s + f b) l 0 - f (nth n l d) + f w.
Proof.
  revert n; induction l as [|b l IH]; intros [|n];
    cbn [fold_left upd_nat nth length]; intros H; try lia.
  - rewrite fold_sum_acc, (fold_sum_acc l (0 + f b)). lia.
  - rewrite fold_sum_acc, (fold_sum_acc l (0 + f b)).
    rewrite IH by lia. lia.
Qed.
End Sums.

Lemma total_entropy_nonneg g : 0 <= total_entropy g.
Proof. apply (fold_sum_nonneg bitsCount), bitsCount_nonneg. Qed.

Lemma total_entropy_set_wave g n w :
  grid_wf g -> in_grid g n ->
  total_entropy (set_wave g n w)
  = total_entropy g - bitsCount (wave_at g n) + bitsCount w.
Proof.
  intros (_ & _ & _ & Hl & _) Hn.
  unfold total_entropy, set_wave, wave_at; cbn [wave].
  unfold arr_set, arr_get, in_grid in *.
  destruct (Z.ltb_spec n 0); [lia|]. apply (fold_sum_upd bitsCount). lia.
Qed.

Lemma getEntropy_eq g i : getEntropy g i = bitsCount (wave_at g i).
Proof. unfold getEntropy. reflexivity. Qed.

(** ** Narrowing a bit set *)

Lemma has_bitsNew u : 0 <= u -> has bitsNew u = false.
Proof.
  intros Hu. rewrite has_spec by lia. unfold bitsNew, arr_get; simpl.
  destruct (Z.to_nat (u / 8)) as [|[|[|[|]]]]; simpl; apply Z.bits_0.
Qed.

Lemma fold_shrink (f : bits -> Z -> bits) l w :
  (forall w t, In t l -> bits_wf w -> bits_wf (f w t) /\ bits_sub (f w t) w) ->
  bits_wf w -> bits_wf (fold_left f l w) /\ bits_sub (fold_left f l w) w.
Proof.
  revert w; induction l as [|t l IH]; simpl; intros w Hf Hw.
  - split; auto using bits_sub_refl.
  - destruct (Hf w t (or_introl eq_refl) Hw) as [W1 S1].
    destruct (IH (f w t) (fun w' t' Ht' => Hf w' t' (or_intror Ht')) W1) as [W2 S2].
    split; auto. eapply bits_sub_trans; eauto.
Qed.

Lemma bitsClear_shrinks w t :
  is_tile t -> bits_wf w -> bits_wf (bitsClear w t) /\ bits_sub (bitsClear w t) w.
Proof.
  unfold is_tile, N_TILES; intros Ht Hw; split.
  - apply bits_wf_bitsClear; auto; lia.
  - intros u Hu. unfold is_tile, N_TILES in Hu. destruct Hw as (Hl & _).
    rewrite has_bitsClear by (auto; lia). now intros [_ ?]%andb_true_iff.
Qed.

Lemma enforceHouseConstraints_shrinks g idx w :
  bits_wf w ->
  bits_wf (_enforceHouseConstraints g idx w)
  /\ bits_sub (_enforceHouseConstraints g idx w) w.
Proof.
  intros Hw. unfold _enforceHouseConstraints. destruct (_xy g idx) as [x y].
  apply fold_shrink; auto. intros w' t Ht Hw'. apply in_range in Ht.
  destruct (negb (has w' t)); [split; auto using bits_sub_refl|].
  destruct (negb (is_house t)); [split; auto using bits_sub_refl|].
  destruct (at_edge g x y); [now apply bitsClear_shrinks|].
  destruct (negb (foundUniform g idx)); [now apply bitsClear_shrinks|].
  split; auto using bits_sub_refl.
Qed.

Lemma fold_set_spec (c : Z -> bool) l w0 :
  (forall t, In t l -> is_tile t) -> bits_wf w0 ->
  let w := fold_left (fun nw t => if c t then bitsSet nw t else nw) l w0 in
  bits_wf w /\
  (forall u, is_tile u -> has w u = true -> has w0 u = true \/ In u l).
Proof.
  revert w0; induction l as [|t l IH]; simpl; intros w0 Hl Hw; [auto|].
  assert (Ht : is_tile t) by auto. unfold is_tile, N_TILES in Ht.
  assert (W1 : bits_wf (if c t then bitsSet w0 t else w0)).
  { destruct (c t); auto. apply bits_wf_bitsSet; auto; lia. }
  destruct (IH _ (fun u Hu => Hl u (or_intror Hu)) W1) as [W2 H2].
  split; auto. intros u Hu Hh. destruct (H2 u Hu Hh) as [H|H]; auto.
  destruct (c t); auto. unfold is_tile, N_TILES in Hu. destruct Hw as (Hlen & _).
  rewrite has_bitsSet in H by (auto; lia).
  apply orb_true_iff in H as [H|H]; auto. apply Z.eqb_eq in H; auto.
Qed.

Lemma narrowed_shrinks g current nIdx :
  bits_wf (narrowed g current nIdx)
  /\ bits_sub (narrowed g current nIdx) (wave_at g nIdx).
Proof.
  unfold narrowed.
  destruct (fold_set_spec
              (fun nTile => existsb (fun cTile => allowed_has cTile nTile)
                                    (bitsForEach (wave_at g current)))
              (bitsForEach (wave_at g nIdx)) bitsNew) as [W H].
  - intros t Ht; now apply in_bitsForEach in Ht.
  - apply bits_wf_bitsNew.
  - split; auto. intros u Hu Hh. destruct (H u Hu Hh) as [H1|H1].
    + rewrite has_bitsNew in H1; [discriminate | unfold is_tile in Hu; lia].
    + now apply in_bitsForEach in H1.
Qed.

(** ** Installing a changed bit set *)

Lemma install_shape g n w :
  bits_wf w -> collapsed_at g n = -1 ->
  exists tn,
    (tn = -1 \/ (is_tile tn /\ w = singleton tn)) /\
    width (install g n w) = width g /\ height (install g n w) = height g /\
    size (install g n w) = size g /\
    wave (install g n w) = arr_set (wave g) n w /\
    collapsed (install g n w) = arr_set (collapsed g) n tn.
Proof.
  intros Hw Hc. unfold install, collapse_if_single.
  destruct (Z.eqb_spec (bitsCount w) 1) as [E|E].
  - rewrite bitsCount_length in E.
    destruct (bitsForEach w) as [|t [|]] eqn:F; simpl in E; try lia.
    apply bitsForEach_single in F as [Ht Hs]; auto.
    exists t; simpl; repeat split; auto.
  - exists (-1); simpl; repeat split; auto.
    unfold collapsed_at in Hc. rewrite <- Hc. symmetry; apply arr_set_same.
Qed.

Lemma install_spec g n w :
  grid_wf g -> in_grid g n -> collapsed_at g n = -1 ->
  bits_wf w -> bits_sub w (wave_at g n) ->
  grid_wf (install g n w) /\ evolves g (install g n w) /\
  total_entropy (install g n w)
  = total_entropy g - bitsCount (wave_at g n) + bitsCount w.
Proof.
  intros Wf Hn Hc Hw Hs.
  destruct (install_shape g n w Hw Hc) as (tn & Htn & Ew & Eh & Es & Ewave & Ecol).
  pose proof Wf as (Hw0 & Hh0 & Hs0 & Lw & Lc & Wb & Wc).
  assert (Rw : forall c, 0 <= c ->
             wave_at (install g n w) c = if c =? n then w else wave_at g c).
  { intros c Hc0. unfold wave_at; rewrite Ewave.
    destruct (Z.eqb_spec c n) as [->|Hne];
      [apply arr_get_set_eq; unfold in_grid in Hn; lia
      | apply arr_get_set_neq; auto]. }
  assert (Rc : forall c, 0 <= c ->
             collapsed_at (install g n w) c = if c =? n then tn else collapsed_at g c).
  { intros c Hc0. unfold collapsed_at; rewrite Ecol.
    destruct (Z.eqb_spec c n) as [->|Hne];
      [apply arr_get_set_eq; unfold in_grid in Hn; lia
      | apply arr_get_set_neq; auto]. }
  split; [|split].
  - unfold grid_wf. rewrite Ew, Eh, Es.
    do 3 (split; [auto|]).
    split; [now rewrite Ewave, length_arr_set|].
    split; [now rewrite Ecol, length_arr_set|].
    split.
    + intros c Hin. unfold in_grid in Hin; rewrite Es in Hin.
      rewrite Rw by lia. destruct (c =? n); auto.
    + intros c Hin. unfold in_grid in Hin; rewrite Es in Hin.
      rewrite Rc, Rw by lia.
      destruct (Z.eqb_spec c n); [|now apply Wc]. destruct Htn; tauto.
  - unfold evolves. do 3 (split; [auto|]). split.
    + intros c Hin. unfold in_grid in Hin. rewrite Rw by lia.
      destruct (Z.eqb_spec c n) as [->|]; auto using bits_sub_refl.
    + intros c Hin Hne. unfold in_grid in Hin. rewrite Rc, Rw by lia.
      destruct (Z.eqb_spec c n) as [->|]; [congruence | auto].
  - rewrite <- (total_entropy_set_wave g n w Wf Hn).
    unfold total_entropy. now rewrite Ewave.
Qed.

(** ** The passes of [_propagate] *)

Lemma p_step_refl st : p_ok st -> p_step st st.
Proof. intros H; split; [auto | split; [apply evolves_refl | lia]]. Qed.

Lemma p_step_trans st1 st2 st3 : p_step st1 st2 -> p_step st2 st3 -> p_step st1 st3.
Proof.
  intros (_ & E1 & M1) (O & E2 & M2).
  split; [auto | split; [eapply evolves_trans; eauto | lia]].
Qed.

Lemma p_step_install st n w :
  p_ok st -> in_grid (p_grid st) n -> collapsed_at (p_grid st) n = -1 ->
  bits_wf w -> bits_sub w (wave_at (p_grid st) n) ->
  bitsEqual (wave_at (p_grid st) n) w = false ->
  p_step st (mkP (install (p_grid st) n w) (n :: p_stack st)
                 (set_add (p_changed st) n)).
Proof.
  intros [Wf Hst] Hn Hc Hw Hs Hne.
  destruct (install_spec (p_grid st) n w Wf Hn Hc Hw Hs) as (Wf' & Ev & Et).
  pose proof Ev as (_ & _ & Es & _).
  assert (Hlt : bitsCount w < bitsCount (wave_at (p_grid st) n)).
  { apply bitsEqual_false_lt; auto. now apply Wf. }
  split; [split|split]; cbn [p_grid p_stack p_changed]; auto.
  - constructor; [unfold in_grid in *; lia|].
    eapply Forall_impl; [|apply Hst]. unfold in_grid; intros; lia.
  - unfold pmeasure; cbn [p_grid p_stack p_changed length].
    rewrite Nat2Z.inj_succ. lia.
Qed.

Lemma cardinal_step_eq current st n :
  cardinal_step current st n =
  if negb (collapsed_at (p_grid st) n =? -1) then st
  else
    let newWave :=
      _enforceHouseConstraints (p_grid st) n (narrowed (p_grid st) current n) in
    if negb (bitsEqual (wave_at (p_grid st) n) newWave)
    then mkP (install (p_grid st) n newWave) (n :: p_stack st)
             (set_add (p_changed st) n)
    else st.
Proof. unfold cardinal_step, install, bitsClone. reflexivity. Qed.

Lemma cardinal_step_ok current st n :
  p_ok st -> in_grid (p_grid st) n -> p_step st (cardinal_step current st n).
Proof.
  intros Hok Hn. rewrite cardinal_step_eq.
  destruct (Z.eqb_spec (collapsed_at (p_grid st) n) (-1)) as [Hc|Hc]; cbn [negb];
    [|now apply p_step_refl].
  destruct (narrowed_shrinks (p_grid st) current n) as [W1 S1].
  destruct (enforceHouseConstraints_shrinks (p_grid st) n _ W1) as [W2 S2].
  set (nw := _enforceHouseConstraints _ _ _) in *. clearbody nw. cbv zeta.
  destruct (bitsEqual _ nw) eqn:E; cbn [negb]; [now apply p_step_refl|].
  apply p_step_install; auto. eapply bits_sub_trans; eauto.
Qed.

Lemma set_wave_same g n : set_wave g n (wave_at g n) = g.
Proof. destruct g; unfold set_wave, wave_at; simpl. now rewrite arr_set_same. Qed.

Lemma house_step_eq st n :
  grid_wf (p_grid st) -> in_grid (p_grid st) n ->
  house_step st n =
  if negb (collapsed_at (p_grid st) n =? -1) then st
  else
    let newWave :=
      _enforceHouseConstraints (p_grid st) n (wave_at (p_grid st) n) in
    if negb (bitsEqual (wave_at (p_grid st) n) newWave)
    then mkP (install (p_grid st) n newWave) (n :: p_stack st)
             (set_add (p_changed st) n)
    else mkP (set_wave (p_grid st) n newWave) (p_stack st) (p_changed st).
Proof.
  intros Wf Hn. unfold house_step, bitsClone, install.
  destruct (negb (collapsed_at (p_grid st) n =? -1)); auto.
  set (nw := _enforceHouseConstraints _ _ _). clearbody nw. cbv zeta.
  change (wave_at (add_dirty ?g n) n) with (wave_at g n).
  rewrite wave_at_set_wave, Z.eqb_refl by (auto; unfold in_grid in Hn; lia).
  reflexivity.
Qed.

Lemma house_step_ok st n :
  p_ok st -> in_grid (p_grid st) n -> p_step st (house_step st n).
Proof.
  intros Hok Hn. pose proof Hok as [Wf _]. rewrite house_step_eq by auto.
  destruct (Z.eqb_spec (collapsed_at (p_grid st) n) (-1)) as [Hc|Hc]; cbn [negb];
    [|now apply p_step_refl].
  assert (W1 : bits_wf (wave_at (p_grid st) n)) by now apply Wf.
  destruct (enforceHouseConstraints_shrinks (p_grid st) n _ W1) as [W2 S2].
  set (nw := _enforceHouseConstraints _ _ _) in *. clearbody nw. cbv zeta.
  destruct (bitsEqual _ nw) eqn:E; cbn [negb].
  - apply bitsEqual_iff in E;
      [|destruct W1 as [-> _], W2 as [-> _]; reflexivity].
    rewrite <- E, set_wave_same. destruct st; now apply p_step_refl.
  - now apply p_step_install.
Qed.

Lemma fold_p_step (f : pstate -> Z -> pstate) l sz :
  (forall n, In n l -> 0 <= n < sz) ->
  (forall st n, In n l -> p_ok st -> in_grid (p_grid st) n -> p_step st (f st n)) ->
  forall st, p_ok st -> size (p_grid st) = sz -> p_step st (fold_left f l st).
Proof.
  induction l as [|n l IH]; simpl; intros Hl Hf st Hok Hsz.
  - now apply p_step_refl.
  - assert (S1 : p_step st (f st n)).
    { apply Hf; auto. unfold in_grid; rewrite Hsz; auto. }
    eapply p_step_trans; [exact S1|].
    destruct S1 as (Hok1 & (_ & _ & Es & _) & _).
    apply IH; auto. congruence.
Qed.

Lemma propagate_iter_ok current st :
  p_ok st -> in_grid (p_grid st) current -> p_step st (propagate_iter current st).
Proof.
  intros Hok Hc. unfold propagate_iter.
  assert (S1 : p_step st (fold_left (cardinal_step current)
                            (_cardinalNeighbours (p_grid st) current) st)).
  { apply (fold_p_step _ _ (size (p_grid st))); auto.
    - intros n Hn. eapply cardinalNeighbours_in_grid; eauto. apply Hok.
    - intros; now apply cardinal_step_ok. }
  eapply p_step_trans; [exact S1|].
  destruct S1 as (Hok1 & (_ & _ & Es & _) & _).
  set (st1 := fold_left _ _ st) in *.
  apply (fold_p_step _ _ (size (p_grid st1))); auto.
  - intros n Hn. apply allNeighbours_spec in Hn; [apply Hn | apply Hok1 |].
    unfold in_grid in *; lia.
  - intros; now apply house_step_ok.
Qed.

(** The loop of [_propagate] returns whenever the fuel covers the measure. *)
Lemma propagate_loop_total fuel :
  forall st, p_ok st -> pmeasure st <= Z.of_nat fuel ->
  exists st', propagate_loop fuel st = Some st' /\ p_step st st' /\ p_stack st' = [].
Proof.
  induction fuel as [|fuel IH]; intros st Hok Hm.
  - destruct st as [g [|c stack] ch]; simpl.
    + eexists; split; [reflexivity|]. split; [now apply p_step_refl | reflexivity].
    + unfold pmeasure in Hm; cbn [p_stack p_grid length] in Hm.
      pose proof (total_entropy_nonneg g). lia.
  - destruct st as [g [|c stack] ch]; simpl.
    + eexists; split; [reflexivity|]. split; [now apply p_step_refl | reflexivity].
    + destruct Hok as [Wf Hst]; cbn [p_stack p_grid] in *.
      inversion Hst as [|? ? Hc Hst']; subst.
      assert (Hok0 : p_ok (mkP g stack ch)) by (split; auto).
      pose proof (propagate_iter_ok c _ Hok0 Hc) as S1.
      destruct (IH (propagate_iter c (mkP g stack ch))) as (st' & E & S2 & Emp).
      * apply S1.
      * destruct S1 as (_ & _ & M).
        unfold pmeasure in *; cbn [p_stack p_grid length] in *. lia.
      * exists st'; split; [exact E|]. split; auto.
        pose proof (p_step_trans _ _ _ S1 S2) as (O & Ev & M).
        split; [auto | split; [exact Ev|]].
        unfold pmeasure in *; cbn [p_stack p_grid length] in *. lia.
Qed.

Lemma propagate_total g seeds :
  grid_wf g -> Forall (in_grid g) seeds ->
  exists g' changed,
    _propagate g seeds = Some (g', changed) /\ grid_wf g' /\ evolves g g'.
Proof.
  intros Wf Hs. unfold _propagate.
  destruct (propagate_loop_total (propagate_fuel g seeds)
              (mkP g (rev seeds) (fold_left set_add seeds [])))
    as (st' & E & (Hok & Ev & _) & _).
  - split; cbn [p_stack p_grid]; auto. apply Forall_rev; auto.
  - unfold pmeasure, propagate_fuel; cbn [p_stack p_grid]. rewrite length_rev.
    pose proof (total_entropy_nonneg g). lia.
  - rewrite E. exists (p_grid st'), (p_changed st'). split; auto. split; auto. apply Hok.
Qed.

(** ** Properties of the collapse *)

Lemma sample_In r options weights d :
  sample r options weights d = d \/ In (sample r options weights d) options.
Proof.
  revert r weights; induction options as [|o options IH]; intros r [|w weights];
    simpl; auto.
  destruct (Qle_bool _ _); auto. destruct (IH (r - w)%Q weights); auto.
Qed.

Lemma collapseCell_empty rand k g idx :
  bitsForEach (wave_at g idx) = [] -> _collapseCell rand k g idx = (false, g, k).
Proof. intros E; unfold _collapseCell; now rewrite E. Qed.

Lemma collapseCell_nonempty rand k g idx :
  bitsForEach (wave_at g idx) <> [] ->
  exists chosen,
    In chosen (bitsForEach (wave_at g idx)) /\
    _collapseCell rand k g idx
    = (true,
       add_dirty (set_collapsed (set_wave g idx (singleton chosen)) idx chosen) idx,
       S k).
Proof.
  intros Hne; unfold _collapseCell.
  destruct (bitsForEach (wave_at g idx)) as [|first rest] eqn:E; [congruence|].
  set (chosen := sample _ _ _ _). exists chosen. split; [|reflexivity].
  destruct (sample_In (rand k * fold_left Qplus (map weight (first :: rest)) 0)%Q
                      (first :: rest) (map weight (first :: rest)) first)
    as [H|H]; fold chosen in H; [rewrite H; simpl; auto | exact H].
Qed.

Lemma bits_wf_singleton t : is_tile t -> bits_wf (singleton t).
Proof.
  unfold is_tile, N_TILES; intros Ht.
  apply bits_wf_bitsSet; [apply bits_wf_bitsNew | lia].
Qed.

Lemma has_singleton t u : is_tile t -> is_tile u -> has (singleton t) u = (t =? u).
Proof.
  unfold is_tile, N_TILES, singleton; intros Ht Hu.
  rewrite has_bitsSet, has_bitsNew by (try reflexivity; lia). apply orb_false_r.
Qed.

(** The grid after a successful collapse of a cell in superposition. *)
Lemma collapsed_grid_ok g idx chosen :
  grid_wf g -> in_grid g idx -> collapsed_at g idx = -1 ->
  In chosen (bitsForEach (wave_at g idx)) ->
  let g' := add_dirty (set_collapsed (set_wave g idx (singleton chosen)) idx chosen) idx in
  grid_wf g' /\ evolves g g' /\ collapsed_at g' idx = chosen /\
  wave_at g' idx = singleton chosen.
Proof.
  intros Wf Hn Hc Hin g'.
  apply in_bitsForEach in Hin as [Ht Hh].
  pose proof Wf as (Hw0 & Hh0 & Hs0 & Lw & Lc & Wb & Wc).
  assert (Rw : forall c, 0 <= c ->
             wave_at g' c = if c =? idx then singleton chosen else wave_at g c).
  { intros c Hc0. apply (wave_at_set_wave g idx (singleton chosen) c); auto. }
  assert (Rc : forall c, 0 <= c ->
             collapsed_at g' c = if c =? idx then chosen else collapsed_at g c).
  { intros c Hc0.
    apply (collapsed_at_set_collapsed (set_wave g idx (singleton chosen))); auto. }
  assert (Hi0 : 0 <= idx) by (unfold in_grid in Hn; lia).
  split; [|split; [|split]].
  - unfold grid_wf. do 3 (split; [auto|]).
    split; [unfold g'; simpl; now rewrite length_arr_set|].
    split; [unfold g'; simpl; now rewrite length_arr_set|].
    split.
    + intros c Hin. unfold in_grid in Hin. rewrite Rw by lia.
      destruct (c =? idx); auto using bits_wf_singleton.
    + intros c Hin. unfold in_grid in Hin. rewrite Rc, Rw by lia.
      destruct (Z.eqb_spec c idx); [auto | now apply Wc].
  - unfold evolves. do 3 (split; [auto|]). split.
    + intros c Hin. unfold in_grid in Hin. rewrite Rw by lia.
      destruct (Z.eqb_spec c idx) as [->|]; auto using bits_sub_refl.
      intros u Hu. rewrite has_singleton by auto. now intros ->%Z.eqb_eq.
    + intros c Hin Hne. unfold in_grid in Hin. rewrite Rc, Rw by lia.
      destruct (Z.eqb_spec c idx) as [->|]; [congruence | auto].
  - rewrite Rc, Z.eqb_refl by lia; auto.
  - rewrite Rw, Z.eqb_refl by lia; auto.
Qed.

(** [_collapseCell] keeps the grid well formed. *)
Lemma collapseCell_wf rand k g idx :
  grid_wf g -> in_grid g idx -> collapsed_at g idx = -1 ->
  grid_wf (snd (fst (_collapseCell rand k g idx))).
Proof.
  intros Wf Hn Hc.
  destruct (bitsForEach (wave_at g idx)) as [|t l] eqn:Eo.
  - rewrite collapseCell_empty by auto. exact Wf.
  - destruct (collapseCell_nonempty rand k g idx) as (chosen & Hch & ->).
    { rewrite Eo; discriminate. }
    apply (collapsed_grid_ok g idx chosen Wf Hn Hc Hch).
Qed.

(** Replacing the bit set of a cell in superposition keeps the grid well
    formed. *)
Lemma set_wave_wf g n w :
  grid_wf g -> in_grid g n -> collapsed_at g n = -1 -> bits_wf w ->
  grid_wf (set_wave g n w).
Proof.
  intros Wf Hn Hc Hw. pose proof Wf as (Hw0 & Hh0 & Hs0 & Lw & Lc & Wb & Wc).
  unfold grid_wf. do 3 (split; [auto|]).
  split; [simpl; now rewrite length_arr_set|]. split; [auto|]. split.
  - intros c Hin. unfold in_grid in Hin; simpl in Hin.
    rewrite wave_at_set_wave by (auto; lia). destruct (c =? n); auto.
  - intros c Hin Hne. unfold in_grid in Hin; simpl in Hin.
    change (collapsed_at (set_wave g n w) c) with (collapsed_at g c) in *.
    rewrite wave_at_set_wave by (auto; lia).
    destruct (Z.eqb_spec c n) as [->|]; [congruence | now apply Wc].
Qed.

(** ** Entropy selection *)

Lemma min_entropy_spec g cells b :
  exists m,
    min_entropy g cells (Some b) = Some m /\ m <= b /\
    (forall j, In j cells -> m <= bitsCount (wave_at g j)) /\
    (m = b \/ exists i, In i cells /\ bitsCount (wave_at g i) = m).
Proof.
  revert b; induction cells as [|i cells IH]; intros b; simpl.
  - exists b; split; [reflexivity|]. split; [lia|]. split; [intros j []|auto].
  - destruct (IH (Z.min b (bitsCount (wave_at g i)))) as (m & E & Hle & Hall & Hex).
    exists m; split; [exact E|]. split; [lia|]. split.
    + intros j [<-|Hj]; [lia | auto].
    + destruct Hex as [->|(i' & Hi' & E')]; [|right; exists i'; auto].
      destruct (Z.min_spec b (bitsCount (wave_at g i))) as [[_ ->]|[_ ->]]; auto.
      right; exists i; auto.
Qed.

Lemma min_entropy_None g cells :
  min_entropy g cells None = None -> cells = [].
Proof.
  destruct cells as [|i cells]; auto; intros H.
  change (min_entropy g (i :: cells) None)
    with (min_entropy g cells (Some (bitsCount (wave_at g i)))) in H.
  destruct (min_entropy_spec g cells (bitsCount (wave_at g i))) as (m & E & _).
  congruence.
Qed.

Lemma min_entropy_first g i cells m :
  min_entropy g (i :: cells) None = Some m ->
  (forall j, In j (i :: cells) -> m <= bitsCount (wave_at g j)) /\
  (exists i', In i' (i :: cells) /\ bitsCount (wave_at g i') = m).
Proof.
  intros H.
  change (min_entropy g (i :: cells) None)
    with (min_entropy g cells (Some (bitsCount (wave_at g i)))) in H.
  destruct (min_entropy_spec g cells (bitsCount (wave_at g i)))
    as (m' & E & Hle & Hall & Hex).
  rewrite E in H; injection H as <-. split.
  - intros j [<-|Hj]; [lia | auto].
  - destruct Hex as [->|(i' & Hi' & E')]; [exists i | exists i'];
      split; simpl; auto.
Qed.

Lemma pick_scan_spec g cells :
  forall best candidates,
    pick_scan g cells best candidates = scan_result g cells best candidates.
Proof.
  induction cells as [|i cells IH]; intros best cands.
  - unfold scan_result; simpl. destruct best as [b|]; auto.
    rewrite Z.eqb_refl. now rewrite app_nil_r.
  - cbn [pick_scan]. unfold scan_result. cbn [filter].
    destruct (Z.eqb_spec (collapsed_at g i) (-1)) as [Hc|Hc]; cbn [negb].
    2:{ rewrite IH. reflexivity. }
    cbn [existsb].
    set (c := bitsCount (wave_at g i)).
    set (u := filter (fun i0 => collapsed_at g i0 =? -1) cells).
    destruct (Z.eqb_spec c 0) as [Hz|Hz]; [reflexivity|]. cbn [orb].
    assert (Hstep : forall b0, min_entropy g (i :: u) b0
                    = min_entropy g u (Some match b0 with
                                            | None => c
                                            | Some b => Z.min b c end)).
    { intros [b|]; reflexivity. }
    rewrite Hstep. cbn [filter]. fold c.
    destruct best as [b|].
    + destruct (Z.ltb_spec c b) as [Hlt|Hge].
      * rewrite IH. unfold scan_result. fold u.
        destruct (existsb _ u); auto. rewrite Z.min_r by lia.
        destruct (min_entropy_spec g u c) as (m & -> & Hle & _).
        destruct (Z.eqb_spec b m); [lia|].
        destruct (Z.eqb_spec c m); reflexivity.
      * destruct (Z.eqb_spec c b) as [He|Hne].
        -- rewrite IH. unfold scan_result. fold u.
           destruct (existsb _ u); auto. rewrite Z.min_l by lia.
           destruct (min_entropy_spec g u b) as (m & -> & Hle & _).
           subst c. rewrite He.
           destruct (Z.eqb_spec b m); [|reflexivity].
           now rewrite <- app_assoc.
        -- rewrite IH. unfold scan_result. fold u.
           destruct (existsb _ u); auto. rewrite Z.min_l by lia.
           destruct (min_entropy_spec g u b) as (m & -> & Hle & _).
           destruct (Z.eqb_spec c m); [lia|reflexivity].
    + rewrite IH. unfold scan_result. fold u.
      destruct (existsb _ u); auto.
      destruct (min_entropy_spec g u c) as (m & -> & Hle & _).
      destruct (Z.eqb_spec c m); reflexivity.
Qed.

Lemma pick_scan_top g :
  pick_scan g (range (size g)) None [] =
  if existsb (fun i => bitsCount (wave_at g i) =? 0) (uncollapsed_cells g)
  then None else Some (lowest_entropy_cells g).
Proof.
  rewrite pick_scan_spec. unfold scan_result, lowest_entropy_cells.
  fold (uncollapsed_cells g).
  destruct (existsb _ _); reflexivity.
Qed.

Lemma in_uncollapsed_cells g i :
  In i (uncollapsed_cells g) <-> in_grid g i /\ collapsed_at g i = -1.
Proof.
  unfold uncollapsed_cells. now rewrite filter_In, in_range, Z.eqb_eq.
Qed.

Lemma in_lowest_entropy_cells g i :
  In i (lowest_entropy_cells g) <->
  In i (uncollapsed_cells g) /\
  forall j, In j (uncollapsed_cells g) ->
            bitsCount (wave_at g i) <= bitsCount (wave_at g j).
Proof.
  unfold lowest_entropy_cells.
  destruct (uncollapsed_cells g) as [|i0 u] eqn:E.
  - simpl; tauto.
  - destruct (min_entropy g (i0 :: u) None) as [m|] eqn:Em;
      [|apply min_entropy_None in Em; discriminate].
    apply min_entropy_first in Em as [Hall (i' & Hi' & E')].
    rewrite filter_In, Z.eqb_eq. split.
    + intros [Hin ->]; auto.
    + intros [Hin Hmin]; split; auto.
      specialize (Hmin i' Hi'). specialize (Hall i Hin). lia.
Qed.

Lemma lowest_entropy_cells_nil g :
  lowest_entropy_cells g = [] <-> uncollapsed_cells g = [].
Proof.
  unfold lowest_entropy_cells.
  destruct (uncollapsed_cells g) as [|i0 u] eqn:E; [simpl; tauto|].
  destruct (min_entropy g (i0 :: u) None) as [m|] eqn:Em;
    [|apply min_entropy_None in Em; discriminate].
  apply min_entropy_first in Em as [Hall (i' & Hi' & E')].
  split; [|discriminate]. intros F.
  assert (In i' (filter (fun i => bitsCount (wave_at g i) =? m) (i0 :: u))).
  { apply filter_In; split; auto. now apply Z.eqb_eq. }
  rewrite F in H; destruct H.
Qed.

Lemma NoDup_lowest_entropy_cells g : NoDup (lowest_entropy_cells g).
Proof.
  unfold lowest_entropy_cells, uncollapsed_cells.
  destruct (min_entropy _ _ _); [|constructor].
  do 2 apply NoDup_filter. apply NoDup_range.
Qed.

(** ** Powers of two *)

Lemma pow2_pos e : (0 < 2 ^ e)%Q.
Proof. apply Qpower_0_lt. reflexivity. Qed.

Lemma pow2_add a b : (2 ^ (a + b) == 2 ^ a * 2 ^ b)%Q.
Proof. apply Qpower_plus. discriminate. Qed.

Lemma pow2_le a b : a <= b -> (2 ^ a <= 2 ^ b)%Q.
Proof. intros H. apply Qpower_le_compat_l; [exact H | discriminate]. Qed.

Lemma pow2_lt a b : a < b -> (2 ^ a < 2 ^ b)%Q.
Proof. intros H. apply Qpower_lt_compat_l; [exact H | reflexivity]. Qed.

Lemma pow2_lt_inv a b : (2 ^ a < 2 ^ b)%Q -> a < b.
Proof. intros H. apply (Qpower_lt_compat_l_inv 2); [exact H | reflexivity]. Qed.

Lemma pow2_inject e : 0 <= e -> (inject_Z (2 ^ e) == 2 ^ e)%Q.
Proof. intros H. now rewrite Zpower_Qpower. Qed.

Lemma mul_div_pow2 x s : (x / 2 ^ s * 2 ^ s == x)%Q.
Proof. field. pose proof (pow2_pos s). lra. Qed.

Lemma Qlog2_spec x : (0 < x)%Q -> (2 ^ Qlog2 x <= x)%Q /\ (x < 2 ^ (Qlog2 x + 1))%Q.
Proof.
  intros Hx. destruct x as [a b]. unfold Qlog2; cbn [Qnum Qden].
  assert (Ha : 0 < a) by (unfold Qlt in Hx; simpl in Hx; lia).
  set (la := Z.log2 a). set (lb := Z.log2 (Z.pos b)).
  destruct (Z.log2_spec a Ha) as [A1 A2]. fold la in A1, A2.
  destruct (Z.log2_spec (Z.pos b) (Pos2Z.is_pos b)) as [B1 B2]. fold lb in B1, B2.
  assert (La : 0 <= la) by apply Z.log2_nonneg.
  assert (Lb : 0 <= lb) by apply Z.log2_nonneg.
  assert (Ex : (a # b) * inject_Z (Z.pos b) == inject_Z a).
  { unfold Qeq, Qmult, inject_Z; simpl. rewrite Pos.mul_1_r. ring. }
  assert (QA1 : (2 ^ la <= inject_Z a)%Q) by (rewrite <- pow2_inject, <- Zle_Qle; auto).
  assert (QA2 : (inject_Z a < 2 ^ (la + 1))%Q)
    by (rewrite <- pow2_inject, <- Zlt_Qlt; auto; lia).
  assert (QB1 : (2 ^ lb <= inject_Z (Z.pos b))%Q) by (rewrite <- pow2_inject, <- Zle_Qle; auto).
  assert (QB2 : (inject_Z (Z.pos b) < 2 ^ (lb + 1))%Q)
    by (rewrite <- pow2_inject, <- Zlt_Qlt; auto; lia).
  assert (U : (a # b < 2 ^ (la - lb + 1))%Q).
  { assert (E : (2 ^ (la + 1) == 2 ^ (la - lb + 1) * 2 ^ lb)%Q).
    { rewrite <- pow2_add. apply Qpower_comp; [reflexivity | lia]. }
    pose proof (pow2_pos lb). pose proof (pow2_pos (la - lb + 1)).
    set (X := a # b) in *. set (P1 := (2 ^ (la - lb + 1))%Q) in *.
    set (P2 := (2 ^ lb)%Q) in *. set (P3 := (2 ^ (la + 1))%Q) in *.
    set (B := inject_Z (Z.pos b)) in *. set (A := inject_Z a) in *.
    nra. }
  assert (L : (2 ^ (la - lb - 1) < a # b)%Q).
  { assert (E : (2 ^ la == 2 ^ (la - lb - 1) * 2 ^ (lb + 1))%Q).
    { rewrite <- pow2_add. apply Qpower_comp; [reflexivity | lia]. }
    pose proof (pow2_pos (lb + 1)). pose proof (pow2_pos (la - lb - 1)).
    set (X := a # b) in *. set (P1 := (2 ^ (la - lb - 1))%Q) in *.
    set (P2 := (2 ^ (lb + 1))%Q) in *. set (P3 := (2 ^ la)%Q) in *.
    set (B := inject_Z (Z.pos b)) in *. set (A := inject_Z a) in *.
    nra. }
  destruct (Qle_bool _ _) eqn:E.
  - apply Qle_bool_iff in E. split; auto.
  - split.
    + apply Qlt_le_weak. exact L.
    + replace (la - lb - 1 + 1) with (la - lb) by lia.
      apply Qnot_le_lt. intros C. apply Qle_bool_iff in C. congruence.
Qed.

Lemma b64_exp_ge x : -1074 <= b64_exp x.
Proof. unfold b64_exp; lia. Qed.

Lemma b64_exp_upper x : (0 < x)%Q -> (x < 2 ^ (b64_exp x + 53))%Q.
Proof.
  intros Hx. destruct (Qlog2_spec x Hx) as [_ U].
  eapply Qlt_le_trans; [exact U|]. apply pow2_le. unfold b64_exp; lia.
Qed.

Lemma b64_exp_normal x :
  (0 < x)%Q -> -1074 < b64_exp x -> (2 ^ (b64_exp x + 52) <= x)%Q.
Proof.
  intros Hx Hs. destruct (Qlog2_spec x Hx) as [L _].
  replace (b64_exp x + 52) with (Qlog2 x); [exact L|]. unfold b64_exp in *; lia.
Qed.

(** ** Rounding to an integer *)

Lemma round_half_even_near y :
  (y - (1 # 2) <= inject_Z (round_half_even y))%Q /\
  (inject_Z (round_half_even y) <= y + (1 # 2))%Q.
Proof.
  pose proof (Qfloor_le y) as F1. pose proof (Qlt_floor y) as F2.
  rewrite inject_Z_plus in F2. change (inject_Z 1) with 1%Q in F2.
  unfold round_half_even.
  destruct (Qcompare_spec (y - inject_Z (Qfloor y)) (1 # 2)) as [E|E|E].
  - destruct (Z.even _); rewrite ?inject_Z_plus; change (inject_Z 1) with 1%Q;
      split; lra.
  - split; lra.
  - rewrite inject_Z_plus; change (inject_Z 1) with 1%Q; split; lra.
Qed.

Lemma round_half_even_int_le y k :
  (inject_Z k <= y)%Q -> k <= round_half_even y.
Proof.
  intros H. apply Qfloor_resp_le in H. rewrite Qfloor_Z in H.
  unfold round_half_even.
  destruct (_ ?= _)%Q; [destruct (Z.even _)| |]; lia.
Qed.

Lemma round_half_even_int_ge y k :
  (y <= inject_Z k)%Q -> round_half_even y <= k.
Proof.
  intros H. pose proof (Qfloor_le y) as F1.
  assert (Hf : Qfloor y <= k).
  { apply Qfloor_resp_le in H. now rewrite Qfloor_Z in H. }
  assert (Hs : (inject_Z (Qfloor y) < y)%Q -> Qfloor y + 1 <= k).
  { intros Hlt. assert (Qfloor y < k); [|lia].
    rewrite Zlt_Qlt. lra. }
  unfold round_half_even.
  destruct (Qcompare_spec (y - inject_Z (Qfloor y)) (1 # 2)) as [E|E|E].
  - destruct (Z.even _); [lia|]. apply Hs. lra.
  - lia.
  - apply Hs. lra.
Qed.

(** ** Rounding to binary64 *)

Lemma b64_round_pos rnd x :
  (0 < x)%Q ->
  b64_round rnd x = (inject_Z (rnd (x / 2 ^ b64_exp x)) * 2 ^ b64_exp x)%Q.
Proof.
  intros Hx. unfold b64_round.
  assert (E : (x ?= 0)%Q = Gt) by now apply Qgt_alt. now rewrite E.
Qed.

Lemma b64_round_zero rnd x : (x == 0)%Q -> b64_round rnd x = 0%Q.
Proof.
  intros Hx. unfold b64_round.
  assert (E : (x ?= 0)%Q = Eq) by now apply Qeq_alt. now rewrite E.
Qed.

Lemma b64_toward_zero_bounds u :
  (0 <= u)%Q -> (0 <= b64_toward_zero u)%Q /\ (b64_toward_zero u <= u)%Q.
Proof.
  intros Hu. destruct (Qlt_le_dec 0 u) as [Hp|Hz].
  - unfold b64_toward_zero. rewrite b64_round_pos by auto.
    set (s := b64_exp u). pose proof (pow2_pos s) as Ps.
    pose proof (mul_div_pow2 u s) as E.
    pose proof (Qfloor_le (u / 2 ^ s)) as F.
    assert (F0 : (0 <= inject_Z (Qfloor (u / 2 ^ s)))%Q).
    { change 0%Q with (inject_Z 0). rewrite <- Zle_Qle.
      change 0 with (Qfloor 0). apply Qfloor_resp_le.
      apply Qle_shift_div_l; auto. lra. }
    set (m := inject_Z _) in *. set (y := (u / 2 ^ s)%Q) in *.
    set (P := (2 ^ s)%Q) in *. split; nra.
  - unfold b64_toward_zero. rewrite b64_round_zero by lra. split; lra.
Qed.

Lemma b64_toward_zero_below_one u :
  (0 <= u)%Q -> (u < 1)%Q -> (b64_toward_zero u <= 1 - 2 ^ (-53))%Q.
Proof.
  intros H0 H1. destruct (b64_toward_zero_bounds u H0) as [_ Hle].
  destruct (Qlt_le_dec u (1 # 2)) as [Hh|Hh].
  - assert ((2 ^ (-53) <= 1 # 2)%Q) by (vm_compute; discriminate). lra.
  - assert (Hp : (0 < u)%Q) by lra.
    destruct (Qlog2_spec u Hp) as [L U].
    assert (El : Qlog2 u = -1).
    { assert (Qlog2 u < 0).
      { apply pow2_lt_inv. change (2 ^ 0)%Q with 1%Q. lra. }
      assert (-1 < Qlog2 u + 1); [|lia].
      apply pow2_lt_inv. change (2 ^ (-1))%Q with (1 # 2)%Q. lra. }
    assert (Es : b64_exp u = -53) by (unfold b64_exp; rewrite El; reflexivity).
    unfold b64_toward_zero. rewrite b64_round_pos, Es by auto.
    assert (Hm : Qfloor (u / 2 ^ (-53)) <= 2 ^ 53 - 1).
    { assert (Qfloor (u / 2 ^ (-53)) < 2 ^ 53); [|lia].
      rewrite Zlt_Qlt. eapply Qle_lt_trans; [apply Qfloor_le|].
      apply Qlt_shift_div_r; [apply pow2_pos|].
      assert (E : (inject_Z (2 ^ 53) * 2 ^ (-53) == 1)%Q) by (vm_compute; reflexivity).
      lra. }
    rewrite Zle_Qle in Hm.
    assert (E : (inject_Z (2 ^ 53 - 1) * 2 ^ (-53) == 1 - 2 ^ (-53))%Q)
      by (vm_compute; reflexivity).
    rewrite <- E. apply Qmult_le_compat_r; [exact Hm|]. apply Qlt_le_weak, pow2_pos.
Qed.

Lemma b64_nearest_bounds x :
  (0 < x)%Q ->
  (0 <= b64_nearest x)%Q /\
  (x - 2 ^ (b64_exp x - 1) <= b64_nearest x)%Q /\
  (b64_nearest x <= x + 2 ^ (b64_exp x - 1))%Q.
Proof.
  intros Hp. unfold b64_nearest. rewrite b64_round_pos by auto.
  set (s := b64_exp x). pose proof (pow2_pos s) as Ps.
  pose proof (mul_div_pow2 x s) as E.
  destruct (round_half_even_near (x / 2 ^ s)) as [N1 N2].
  assert (N0 : (0 <= inject_Z (round_half_even (x / 2 ^ s)))%Q).
  { change 0%Q with (inject_Z 0). rewrite <- Zle_Qle.
    apply round_half_even_int_le. apply Qle_shift_div_l; auto.
    change (inject_Z 0) with 0%Q. lra. }
  assert (Eh : (2 ^ (s - 1) == 2 ^ s * (1 # 2))%Q).
  { unfold Z.sub. rewrite pow2_add. reflexivity. }
  rewrite Eh.
  set (m := inject_Z _) in *. set (y := (x / 2 ^ s)%Q) in *.
  set (P := (2 ^ s)%Q) in *. split; [|split]; nra.
Qed.

(** Relative error at most [2^-53] above the subnormal range; below it the
    result is below 1. *)
Lemma b64_nearest_upper x :
  (0 < x)%Q ->
  (b64_nearest x <= x * (1 + 2 ^ (-53)))%Q \/ (b64_nearest x < 1)%Q.
Proof.
  intros Hp. destruct (b64_nearest_bounds x Hp) as (_ & _ & U).
  destruct (Z.eq_dec (b64_exp x) (-1074)) as [Es|Es].
  - right. pose proof (b64_exp_upper x Hp) as Hu. rewrite Es in *.
    assert ((2 ^ (-1074 + 53) + 2 ^ (-1074 - 1) < 1)%Q) by (vm_compute; reflexivity).
    lra.
  - left. pose proof (b64_exp_ge x).
    pose proof (b64_exp_normal x Hp ltac:(lia)) as Hn.
    assert (E : (2 ^ (b64_exp x - 1) == 2 ^ (b64_exp x + 52) * 2 ^ (-53))%Q).
    { rewrite <- pow2_add. apply Qpower_comp; [reflexivity | lia]. }
    rewrite E in U. pose proof (pow2_pos (-53)).
    set (P := (2 ^ (b64_exp x + 52))%Q) in *. set (e := (2 ^ (-53))%Q) in *.
    nra.
Qed.

(** Integers are not crossed when the last digit kept is a unit or finer. *)
Lemma b64_nearest_int x k :
  (0 < x)%Q -> b64_exp x <= 0 ->
  ((inject_Z k <= x)%Q -> (inject_Z k <= b64_nearest x)%Q) /\
  ((x <= inject_Z k)%Q -> (b64_nearest x <= inject_Z k)%Q).
Proof.
  intros Hp Hs. unfold b64_nearest. rewrite b64_round_pos by auto.
  set (s := b64_exp x) in *. pose proof (pow2_pos s) as Ps.
  assert (Ek : (inject_Z k == inject_Z (k * 2 ^ (- s)) * 2 ^ s)%Q).
  { rewrite inject_Z_mult, pow2_inject by lia.
    rewrite <- Qmult_assoc, <- pow2_add.
    replace (- s + s) with 0 by lia. change (2 ^ 0)%Q with 1%Q. ring. }
  split; intros H; rewrite Ek; apply Qmult_le_compat_r; try lra;
    rewrite <- Zle_Qle.
  - apply round_half_even_int_le. apply Qle_shift_div_l; auto.
    rewrite <- Ek. exact H.
  - apply round_half_even_int_ge. apply Qle_shift_div_r; auto.
    rewrite <- Ek. exact H.
Qed.

Lemma b64_exp_small x : (0 < x)%Q -> (x < 2 ^ 53)%Q -> b64_exp x <= 0.
Proof.
  intros Hp Hx. destruct (Z_le_gt_dec (b64_exp x) 0) as [|Hg]; auto.
  pose proof (b64_exp_normal x Hp ltac:(lia)) as Hn.
  assert ((2 ^ 53 <= 2 ^ (b64_exp x + 52))%Q) by (apply pow2_le; lia).
  lra.
Qed.

(** ** The random index *)

Lemma random_index_range u n :
  (0 <= u)%Q -> (u < 1)%Q -> 0 < n -> 0 <= random_index u n < n.
Proof.
  intros H0 H1 Hn. unfold random_index.
  destruct (b64_toward_zero_bounds u H0) as [D0 _].
  pose proof (b64_toward_zero_below_one u H0 H1) as D1.
  set (d := b64_toward_zero u) in *.
  assert (Hn' : (1 <= inject_Z n)%Q).
  { change 1%Q with (inject_Z 1). rewrite <- Zle_Qle. lia. }
  pose proof (pow2_pos (-53)) as He.
  assert (He1 : (2 ^ (-53) < 1)%Q) by (vm_compute; reflexivity).
  destruct (Qlt_le_dec 0 (d * inject_Z n)) as [Hp|Hz].
  - destruct (b64_nearest_bounds _ Hp) as (B0 & _ & _).
    split.
    + change 0 with (Qfloor 0). now apply Qfloor_resp_le.
    + rewrite Zlt_Qlt. eapply Qle_lt_trans; [apply Qfloor_le|].
      destruct (b64_nearest_upper _ Hp) as [U|U]; [|lra].
      eapply Qle_lt_trans; [exact U|].
      set (e := (2 ^ (-53))%Q) in *. set (N := inject_Z n) in *.
      assert (K : (d * (1 + e) < 1)%Q) by nra.
      nra.
  - assert (E : (d * inject_Z n == 0)%Q) by nra.
    unfold b64_nearest. rewrite b64_round_zero by auto.
    change (Qfloor 0) with 0. lia.
Qed.

Lemma random_index_interval u n :
  (0 <= u)%Q -> (u < 1)%Q -> 0 < n <= 2 ^ 53 ->
  let x := (b64_toward_zero u * inject_Z n)%Q in
  let i := random_index u n in
  (inject_Z i * (1 - 2 ^ (-53)) <= x)%Q /\ (x < inject_Z (i + 1))%Q /\
  forall j, (inject_Z j <= x)%Q -> (x < inject_Z (j + 1) * (1 - 2 ^ (-53)))%Q ->
            i = j.
Proof.
  intros H0 H1 Hn x i.
  pose proof (random_index_range u n H0 H1 ltac:(lia)) as Hr. fold i in Hr.
  destruct (b64_toward_zero_bounds u H0) as [D0 _].
  pose proof (b64_toward_zero_below_one u H0 H1) as D1.
  pose proof (pow2_pos (-53)) as He.
  assert (He1 : (2 ^ (-53) < 1)%Q) by (vm_compute; reflexivity).
  assert (Hn1 : (1 <= inject_Z n)%Q).
  { change 1%Q with (inject_Z 1). rewrite <- Zle_Qle. lia. }
  assert (Hn2 : (inject_Z n <= 2 ^ 53)%Q).
  { rewrite <- pow2_inject by lia. rewrite <- Zle_Qle. lia. }
  assert (Hx0 : (0 <= x)%Q) by (unfold x; nra).
  assert (Hxn : (x < 2 ^ 53)%Q) by (unfold x; nra).
  assert (Hi0 : (0 <= inject_Z i)%Q).
  { change 0%Q with (inject_Z 0). rewrite <- Zle_Qle. lia. }
  destruct (Qlt_le_dec 0 x) as [Hp|Hz].
  - pose proof (b64_exp_small x Hp Hxn) as Hs.
    pose proof (Qfloor_le (b64_nearest x)) as F1.
    pose proof (Qlt_floor (b64_nearest x)) as F2.
    change (Qfloor (b64_nearest x)) with i in F1, F2.
    split; [|split].
    + destruct (b64_nearest_upper x Hp) as [U|U].
      * set (e := (2 ^ (-53))%Q) in *. set (I := inject_Z i) in *.
        set (fl := b64_nearest x) in *. nra.
      * assert (i < 1); [rewrite Zlt_Qlt; change (inject_Z 1) with 1%Q; lra|].
        assert (i = 0) by lia. replace i with 0 by auto.
        change (inject_Z 0) with 0%Q. lra.
    + apply Qnot_le_lt. intros C.
      apply (proj1 (b64_nearest_int x (i + 1) Hp Hs)) in C. lra.
    + intros j J1 J2.
      assert (Hj : j <= i).
      { apply (proj1 (b64_nearest_int x j Hp Hs)) in J1.
        assert (j < i + 1); [rewrite Zlt_Qlt; lra | lia]. }
      assert (Hj0 : (0 <= inject_Z (j + 1))%Q).
      { set (e := (2 ^ (-53))%Q) in *. set (J := inject_Z (j + 1)) in *. nra. }
      assert (Hj1 : (b64_nearest x < inject_Z (j + 1))%Q).
      { destruct (b64_nearest_upper x Hp) as [U|U].
        - set (e := (2 ^ (-53))%Q) in *. set (J := inject_Z (j + 1)) in *.
          set (fl := b64_nearest x) in *. nra.
        - assert (Hj2 : (1 <= inject_Z (j + 1))%Q).
          { change 1%Q with (inject_Z 1). rewrite <- Zle_Qle.
            assert (0 < j + 1); [|lia]. rewrite Zlt_Qlt.
            change (inject_Z 0) with 0%Q.
            set (e := (2 ^ (-53))%Q) in *. nra. }
          lra. }
      assert (i < j + 1); [rewrite Zlt_Qlt; lra | lia].
  - assert (E : (x == 0)%Q) by lra.
    assert (Ei : i = 0).
    { unfold i, random_index. fold x. unfold b64_nearest.
      now rewrite b64_round_zero. }
    rewrite Ei. change (inject_Z 0) with 0%Q. change (inject_Z (0 + 1)) with 1%Q.
    split; [lra|]. split; [lra|]. intros j J1 J2.
    assert (Hj : j <= 0).
    { rewrite Zle_Qle. change (inject_Z 0) with 0%Q. lra. }
    assert (0 < j + 1); [|lia]. rewrite Zlt_Qlt. change (inject_Z 0) with 0%Q.
    set (e := (2 ^ (-53))%Q) in *. nra.
Qed.

(** Binary64 numbers are not changed by rounding. *)
Lemma b64_round_fixes rnd x :
  (forall y k, (y == inject_Z k)%Q -> rnd y = k) ->
  (0 <= x)%Q -> is_b64 x -> (b64_round rnd x == x)%Q.
Proof.
  intros Hrnd H0 (m & e & Hm & He & Ex).
  destruct (Qlt_le_dec 0 x) as [Hp|Hz].
  - rewrite b64_round_pos by auto.
    set (s := b64_exp x).
    assert (Hs : s <= e).
    { destruct (Qlog2_spec x Hp) as [L _].
      assert (Qlog2 x < 53 + e); [|unfold s, b64_exp; lia].
      apply pow2_lt_inv. eapply Qle_lt_trans; [exact L|].
      rewrite Ex, pow2_add. apply Qmult_lt_compat_r; [apply pow2_pos|].
      rewrite <- pow2_inject by lia. rewrite <- Zlt_Qlt. lia. }
    assert (Ey : (x / 2 ^ s == inject_Z (m * 2 ^ (e - s)))%Q).
    { rewrite inject_Z_mult, pow2_inject by lia.
      unfold Z.sub. rewrite pow2_add, Qpower_opp, Ex.
      field. pose proof (pow2_pos s). lra. }
    rewrite (Hrnd _ _ Ey), <- Ey. apply mul_div_pow2.
  - rewrite b64_round_zero by lra. lra.
Qed.

Lemma b64_toward_zero_fixes x :
  (0 <= x)%Q -> is_b64 x -> (b64_toward_zero x == x)%Q.
Proof.
  apply b64_round_fixes. intros y k E. rewrite E. apply Qfloor_Z.
Qed.

Lemma b64_nearest_fixes x :
  (0 <= x)%Q -> is_b64 x -> (b64_nearest x == x)%Q.
Proof.
  apply b64_round_fixes. intros y k E.
  pose proof (round_half_even_int_le y k). pose proof (round_half_even_int_ge y k).
  assert (k <= round_half_even y) by (apply H; lra).
  assert (round_half_even y <= k) by (apply H0; lra). lia.
Qed.

Lemma b64_toward_zero_is_b64 u : (0 <= u)%Q -> is_b64 (b64_toward_zero u).
Proof.
  intros H0. destruct (Qlt_le_dec 0 u) as [Hp|Hz].
  - unfold b64_toward_zero. rewrite b64_round_pos by auto.
    exists (Qfloor (u / 2 ^ b64_exp u)), (b64_exp u).
    split; [|split; [apply b64_exp_ge | reflexivity]].
    pose proof (pow2_pos (b64_exp u)) as Ps. split.
    + change 0 with (Qfloor 0). apply Qfloor_resp_le.
      apply Qle_shift_div_l; auto. lra.
    + rewrite Zlt_Qlt. eapply Qle_lt_trans; [apply Qfloor_le|].
      apply Qlt_shift_div_r; auto.
      rewrite pow2_inject, <- pow2_add by lia.
      rewrite Z.add_comm. now apply b64_exp_upper.
  - unfold b64_toward_zero. rewrite b64_round_zero by lra.
    exists 0, 0. split; [lia|]. split; [lia | reflexivity].
Qed.

(** On the test data the rounding of this file and the Standard Library's
    IEEE 754 operations give the same product and quotient, and binary64
    numbers are left as they are. *)
Lemma b64_cross_check :
  forallb (fun c : Z * Z * Z =>
             let '(m, e, n) := c in
             let u := (inject_Z m * 2 ^ e)%Q in
             Qeq_bool (ieee_mul m e n) (b64_nearest (u * inject_Z n))
             && Qeq_bool (b64_toward_zero u) u && Qeq_bool (b64_nearest u) u)
          mul_cases
  && forallb (fun c : Z * Z =>
                Qeq_bool (ieee_div (fst c) (snd c))
                         (b64_nearest (inject_Z (fst c) / inject_Z (snd c))))
             div_cases
  = true.
Proof. vm_compute. reflexivity. Qed.

(** The three outcomes of [_pickLowestEntropy]. *)
Lemma pickLowestEntropy_cases rand k g :
  (0 <= rand k)%Q -> (rand k < 1)%Q ->
  (_pickLowestEntropy rand k g = (-1, k) /\
   exists i, In i (uncollapsed_cells g) /\ bitsCount (wave_at g i) = 0)
  \/ (_pickLowestEntropy rand k g = (-2, k) /\ uncollapsed_cells g = [])
  \/ (exists next,
        _pickLowestEntropy rand k g = (next, S k) /\
        In next (lowest_entropy_cells g) /\
        forall i, In i (uncollapsed_cells g) -> bitsCount (wave_at g i) <> 0).
Proof.
  intros H0 H1. unfold _pickLowestEntropy. rewrite pick_scan_top.
  destruct (existsb _ _) eqn:Ex.
  - left; split; auto. apply existsb_exists in Ex as (i & Hi & Hz).
    exists i; split; auto. now apply Z.eqb_eq.
  - right. destruct (lowest_entropy_cells g) as [|c0 l] eqn:El.
    + left; split; auto. now apply lowest_entropy_cells_nil.
    + right. eexists; split; [reflexivity|]. split.
      * unfold arr_get. apply nth_In.
        pose proof (random_index_range (rand k)
                      (Z.of_nat (length (c0 :: l))) H0 H1 ltac:(simpl; lia)).
        lia.
      * intros i Hi Hz.
        assert (existsb (fun i => bitsCount (wave_at g i) =? 0)
                        (uncollapsed_cells g) = true).
        { apply existsb_exists; exists i; split; auto. now apply Z.eqb_eq. }
        congruence.
Qed.

(** ** The generator *)

Lemma uncollapsed_evolves_le g g' :
  evolves g g' ->
  (length (uncollapsed_cells g') <= length (uncollapsed_cells g))%nat.
Proof.
  intros (_ & _ & Es & _ & F). unfold uncollapsed_cells. rewrite Es.
  apply filter_length_mono. intros c Hc%in_range Hu%Z.eqb_eq. apply Z.eqb_eq.
  destruct (Z.eq_dec (collapsed_at g c) (-1)) as [|Hne]; auto.
  destruct (F c Hc Hne); congruence.
Qed.

Lemma uncollapsed_evolves_lt g g' c :
  evolves g g' -> in_grid g c ->
  collapsed_at g c = -1 -> collapsed_at g' c <> -1 ->
  (length (uncollapsed_cells g') < length (uncollapsed_cells g))%nat.
Proof.
  intros (_ & _ & Es & _ & F) Hc H1 H2. unfold uncollapsed_cells. rewrite Es.
  apply (filter_length_strict _ _ _ c).
  - intros d Hd%in_range Hu%Z.eqb_eq. apply Z.eqb_eq.
    destruct (Z.eq_dec (collapsed_at g d) (-1)) as [|Hne]; auto.
    destruct (F d Hd Hne); congruence.
  - now apply in_range.
  - now apply Z.eqb_neq.
  - now apply Z.eqb_eq.
Qed.

Lemma length_uncollapsed_cells g :
  (length (uncollapsed_cells g) <= Z.to_nat (size g))%nat.
Proof.
  unfold uncollapsed_cells. etransitivity; [apply filter_length_le|].
  unfold range. now rewrite length_map, length_seq.
Qed.

Lemma well_terminated_single e : is_terminal e = true -> well_terminated [e].
Proof. intros H; exists [], e; repeat split; auto. Qed.

Lemma well_terminated_cons e evs :
  is_terminal e = false -> well_terminated evs -> well_terminated (e :: evs).
Proof.
  intros He (body & last & -> & Hl & Hb).
  exists (e :: body), last; repeat split; auto.
Qed.

(** What a collapse followed by a propagation from the cell does. *)
Lemma collapse_then_propagate rand k g idx :
  grid_wf g -> in_grid g idx -> collapsed_at g idx = -1 ->
  bitsForEach (wave_at g idx) <> [] ->
  exists g1 g2 changed,
    _collapseCell rand k g idx = (true, g1, S k) /\
    _propagate g1 [idx] = Some (g2, changed) /\
    grid_wf g1 /\ evolves g g1 /\ grid_wf g2 /\ evolves g1 g2 /\
    In (collapsed_at g1 idx) (bitsForEach (wave_at g idx)) /\
    (length (uncollapsed_cells g2) < length (uncollapsed_cells g))%nat.
Proof.
  intros Wf Hn Hc Hne.
  destruct (collapseCell_nonempty rand k g idx Hne) as (chosen & Hin & E).
  destruct (collapsed_grid_ok g idx chosen Wf Hn Hc Hin) as (Wf1 & Ev1 & Ec & _).
  set (g1 := add_dirty _ _) in *.
  destruct (propagate_total g1 [idx] Wf1) as (g2 & changed & Ep & Wf2 & Ev2).
  { constructor; auto. }
  exists g1, g2, changed.
  split; [exact E|]. split; [exact Ep|]. split; [exact Wf1|].
  split; [exact Ev1|]. split; [exact Wf2|]. split; [exact Ev2|]. split.
  - now rewrite Ec.
  - eapply Nat.le_lt_trans; [apply uncollapsed_evolves_le, Ev2|].
    apply (uncollapsed_evolves_lt g g1 idx); auto.
    rewrite Ec. apply in_bitsForEach in Hin as [Ht _]. unfold is_tile in Ht; lia.
Qed.

Lemma bitsForEach_nonempty b : bitsCount b <> 0 -> bitsForEach b <> [].
Proof. rewrite bitsCount_length. now destruct (bitsForEach b). Qed.

(** The main loop of [run] returns whenever the fuel exceeds the number of
    cells in superposition. *)
Lemma run_loop_total rand (Hr : unit_draws rand) fuel :
  forall k g,
    grid_wf g -> (length (uncollapsed_cells g) < fuel)%nat ->
    exists tr,
      run_loop fuel rand k g = Some tr /\ chain g tr /\
      well_terminated (map fst tr).
Proof.
  induction fuel as [|fuel IH]; intros k g Wf Hf; [lia|].
  cbn [run_loop].
  destruct (pickLowestEntropy_cases rand k g (proj1 (Hr k)) (proj2 (Hr k)))
    as [[E _]|[[E _]|(next & E & Hin & Hnz)]]; rewrite E.
  - eexists; split; [reflexivity|]. split.
    + simpl; auto using evolves_refl.
    + now apply well_terminated_single.
  - eexists; split; [reflexivity|]. split.
    + simpl; auto using evolves_refl.
    + now apply well_terminated_single.
  - apply in_lowest_entropy_cells in Hin as [Hu _].
    pose proof (Hnz next Hu) as Hne. apply bitsForEach_nonempty in Hne.
    apply in_uncollapsed_cells in Hu as [Hn Hc].
    destruct (Z.eqb_spec next (-2)); [unfold in_grid in Hn; lia|].
    destruct (Z.eqb_spec next (-1)); [unfold in_grid in Hn; lia|].
    destruct (collapse_then_propagate rand (S k) g next Wf Hn Hc Hne)
      as (g1 & g2 & changed & -> & -> & Wf1 & Ev1 & Wf2 & Ev2 & _ & Hlt).
    cbn [negb].
    destruct (IH (S (S k)) g2 Wf2 ltac:(lia)) as (rest & -> & Hch & Hwt).
    eexists; split; [reflexivity|]. split.
    + simpl; auto.
    + cbn [map fst]. now do 2 (apply well_terminated_cons; [reflexivity|]).
Qed.

Lemma run_total rand g startIdx :
  unit_draws rand -> grid_wf g -> in_grid g startIdx ->
  collapsed_at g startIdx = -1 ->
  exists tr,
    run rand g startIdx = Some tr /\ chain g tr /\ well_terminated (map fst tr).
Proof.
  intros Hr Wf Hn Hc. unfold run, run_from.
  destruct (bitsForEach (wave_at g startIdx)) as [|t l] eqn:Eo.
  - rewrite collapseCell_empty by auto. cbn [negb].
    eexists; split; [reflexivity|]. split.
    + simpl; auto using evolves_refl.
    + now apply well_terminated_single.
  - destruct (collapse_then_propagate rand 0%nat g startIdx Wf Hn Hc)
      as (g1 & g2 & changed & -> & -> & Wf1 & Ev1 & Wf2 & Ev2 & _ & Hlt).
    { rewrite Eo; discriminate. }
    cbn [negb].
    assert (Es : size g2 = size g).
    { destruct Ev1 as (_ & _ & E1 & _), Ev2 as (_ & _ & E2 & _); congruence. }
    destruct (run_loop_total rand Hr (S (Z.to_nat (size g))) 1%nat g2 Wf2)
      as (rest & -> & Hch & Hwt).
    { pose proof (length_uncollapsed_cells g2). rewrite Es in H. lia. }
    eexists; split; [reflexivity|]. split.
    + simpl; auto.
    + cbn [map fst]. now do 2 (apply well_terminated_cons; [reflexivity|]).
Qed.

Lemma chain_In g tr e g' :
  grid_wf g -> chain g tr -> In (e, g') tr -> grid_wf g' /\ evolves g g'.
Proof.
  revert g; induction tr as [|[e1 g1] tr IH]; simpl; intros g Wf Hc Hin; [tauto|].
  destruct Hc as (Wf1 & Ev1 & Hc). destruct Hin as [[= -> ->]|Hin]; auto.
  destruct (IH g1 Wf1 Hc Hin) as [W E]. split; auto. eapply evolves_trans; eauto.
Qed.

Lemma chain_nth g tr :
  grid_wf g -> chain g tr ->
  forall i j ei gi ej gj,
    (i <= j)%nat ->
    nth_error tr i = Some (ei, gi) -> nth_error tr j = Some (ej, gj) ->
    grid_wf gi /\ grid_wf gj /\ evolves g gi /\ evolves gi gj.
Proof.
  revert g; induction tr as [|[e1 g1] tr IH]; intros g Wf Hc i j ei gi ej gj Hij Hi Hj.
  - destruct i; discriminate.
  - destruct Hc as (Wf1 & Ev1 & Hc). destruct i as [|i].
    + injection Hi as -> ->. destruct j as [|j].
      * injection Hj as -> ->. auto using evolves_refl.
      * simpl in Hj. apply nth_error_In in Hj.
        destruct (chain_In _ _ _ _ Wf1 Hc Hj); auto.
    + destruct j as [|j]; [lia|]. simpl in Hi, Hj.
      destruct (IH g1 Wf1 Hc i j ei gi ej gj ltac:(lia) Hi Hj) as (A & B & C & D).
      split; [exact A|]. split; [exact B|]. split; [|exact D].
      eapply evolves_trans; eauto.
Qed.

(** ** Construction and [reset] *)

Lemma reset_rel_nil w h g : reset_inv w h g -> reset_rel w h [] g g.
Proof. intros H; split; auto. Qed.

Lemma reset_rel_app w h l1 l2 g g1 g2 :
  reset_rel w h l1 g g1 -> reset_rel w h l2 g1 g2 -> reset_rel w h (l1 ++ l2) g g2.
Proof.
  intros [_ H1] [I2 H2]; split; auto. intros c Hc.
  rewrite H2, H1, existsb_app by auto.
  destruct (existsb _ l1), (existsb _ l2); reflexivity.
Qed.

Lemma reset_step_rel w h g x y :
  reset_inv w h g -> 0 <= x < w -> 0 <= y < h ->
  reset_rel w h [(x, y)] g
    (if at_edge g x y then _removeHouseTiles g (_idx g x y) else g).
Proof.
  intros (Ew & Eh & Es & Lw & Ec & Hb) Hx Hy.
  unfold at_edge, _idx, edge_hit. rewrite Ew, Eh. cbn [existsb fst snd].
  destruct ((x =? 0) || (y =? 0) || (x =? w - 1) || (y =? h - 1)) eqn:E.
  - pose proof (idx_in_range w h x y Hx Hy) as Hi.
    assert (Rw : forall c, 0 <= c ->
               wave_at (_removeHouseTiles g (y * w + x)) c
               = if c =? y * w + x then clearHouses (wave_at g (y * w + x))
                 else wave_at g c).
    { intros c Hc. unfold _removeHouseTiles, wave_at, set_wave; cbn [wave].
      destruct (Z.eqb_spec c (y * w + x)) as [->|Hne];
        [apply arr_get_set_eq; lia | apply arr_get_set_neq; auto]. }
    assert (Hcl : clearHouses (wave_at g (y * w + x)) = houseless).
    { destruct (Hb _ Hi) as [->| ->]; reflexivity. }
    split.
    + unfold reset_inv. cbn [_removeHouseTiles set_wave width height size collapsed wave].
      do 3 (split; [auto|]). split; [now rewrite length_arr_set|]. split; [auto|].
      intros c Hc. change (arr_get [] (arr_set (wave g) (y * w + x)
                                       (clearHouses (wave_at g (y * w + x)))) c)
        with (wave_at (_removeHouseTiles g (y * w + x)) c).
      rewrite Rw by lia. destruct (c =? y * w + x); auto.
    + intros c Hc. rewrite Rw by lia.
      unfold edge_hit; cbn [existsb fst snd]. rewrite E, orb_false_r. cbn [andb].
      rewrite (Z.eqb_sym c). destruct (y * w + x =? c); auto.
  - split; [repeat split; auto|]. intros c Hc.
    unfold edge_hit; cbn [existsb fst snd]. now rewrite E.
Qed.

Lemma reset_row w h y :
  0 <= y < h ->
  forall xs g, reset_inv w h g -> Forall (fun x => 0 <= x < w) xs ->
  reset_rel w h (map (fun x => (x, y)) xs) g
    (fold_left (fun g2 x => if at_edge g2 x y
                            then _removeHouseTiles g2 (_idx g2 x y) else g2)
               xs g).
Proof.
  intros Hy xs; induction xs as [|x xs IH]; intros g0 Hi Hxs; cbn [map fold_left].
  - now apply reset_rel_nil.
  - inversion Hxs as [|? ? Hx Hxs']; subst.
    pose proof (reset_step_rel w h g0 x y Hi Hx Hy) as S1.
    apply (reset_rel_app w h [(x, y)] _ g0 _ _ S1). apply IH; auto. apply S1.
Qed.

Lemma reset_rows w h :
  forall ys g, reset_inv w h g -> Forall (fun y => 0 <= y < h) ys ->
  reset_rel w h (flat_map (fun y => map (fun x => (x, y)) (range w)) ys) g
    (fold_left
       (fun g1 y =>
          fold_left (fun g2 x => if at_edge g2 x y
                                 then _removeHouseTiles g2 (_idx g2 x y) else g2)
                    (range (width g1)) g1)
       ys g).
Proof.
  induction ys as [|y ys IH]; intros g Hi Hys; cbn [flat_map fold_left].
  - now apply reset_rel_nil.
  - inversion Hys as [|? ? Hy Hys']; subst.
    pose proof Hi as (Ew & _). rewrite Ew.
    assert (S1 := reset_row w h y Hy (range w) g Hi).
    assert (Hr : Forall (fun x => 0 <= x < w) (range w)).
    { apply Forall_forall; intros x; apply in_range. }
    specialize (S1 Hr).
    eapply reset_rel_app; [exact S1|]. apply IH; auto. apply S1.
Qed.

Lemma edge_hit_all w h c :
  0 < w -> 0 <= c < w * h ->
  existsb (edge_hit w h c)
          (flat_map (fun y => map (fun x => (x, y)) (range w)) (range h))
  = (c mod w =? 0) || (c / w =? 0) || (c mod w =? w - 1) || (c / w =? h - 1).
Proof.
  intros Hw Hc.
  pose proof (Z.mod_pos_bound c w Hw) as Hm.
  pose proof (Z.div_mod c w ltac:(lia)) as Hd.
  assert (Hq : 0 <= c / w < h).
  { split; [apply Z.div_pos; lia | apply Z.div_lt_upper_bound; lia]. }
  destruct ((c mod w =? 0) || _ || _ || _) eqn:E.
  - apply existsb_exists. exists (c mod w, c / w). split.
    + apply in_flat_map. exists (c / w). split; [now apply in_range|].
      apply in_map_iff. exists (c mod w). split; [auto | now apply in_range].
    + unfold edge_hit; cbn [fst snd]. rewrite E. apply Z.eqb_eq. lia.
  - destruct (existsb _ _) eqn:Ex; auto.
    apply existsb_exists in Ex as ([x y] & Hin & Hh).
    apply in_flat_map in Hin as (y' & Hy' & Hin).
    apply in_map_iff in Hin as (x' & [= -> ->] & Hx').
    apply in_range in Hy', Hx'.
    unfold edge_hit in Hh; cbn [fst snd] in Hh.
    apply andb_true_iff in Hh as [He Hi]. apply Z.eqb_eq in Hi.
    assert (y = c / w /\ x = c mod w) as [-> ->].
    { assert (y = c / w) by nia. split; auto. subst y. lia. }
    congruence.
Qed.

Lemma nth_map_const {A B} (l : list A) (v d : B) n :
  (n < length l)%nat -> nth n (map (fun _ => v) l) d = v.
Proof.
  revert n; induction l as [|a l IH]; intros [|n]; simpl; intros H; try lia; auto.
  apply IH; lia.
Qed.

Lemma length_range n : length (range n) = Z.to_nat n.
Proof. unfold range. now rewrite length_map, length_seq. Qed.

(** The grid that the constructor builds. *)
Lemma new_WFCGrid_spec w h :
  0 < w -> 0 < h ->
  let g := new_WFCGrid w h in
  width g = w /\ height g = h /\ size g = w * h /\
  length (wave g) = Z.to_nat (w * h) /\
  collapsed g = map (fun _ => -1) (range (w * h)) /\
  forall c, 0 <= c < w * h ->
    wave_at g c = if at_edge g (fst (_xy g c)) (snd (_xy g c))
                  then houseless else bitsAll.
Proof.
  intros Hw Hh g.
  set (g0 := mkGrid w h (w * h) (map (fun _ => bitsAll) (range (w * h)))
                    (map (fun _ => -1) (range (w * h))) []).
  assert (R0 : forall c, 0 <= c < w * h -> wave_at g0 c = bitsAll).
  { intros c Hc. unfold wave_at, arr_get, g0; cbn [wave].
    apply nth_map_const. rewrite length_range. lia. }
  assert (I0 : reset_inv w h g0).
  { unfold reset_inv, g0; cbn [width height size wave collapsed].
    do 3 (split; [auto|]). split.
    - now rewrite length_map, length_range.
    - split; auto. }
  pose proof (reset_rows w h (range h) g0 I0) as [I1 H1].
  { apply Forall_forall; intros y; apply in_range. }
  change (fold_left _ (range h) g0) with g in I1, H1.
  destruct I1 as (Ew & Eh & Es & Lw & Ec & _).
  do 5 (split; [auto|]). intros c Hc.
  rewrite H1, edge_hit_all, R0 by auto.
  unfold at_edge, _xy; cbn [fst snd]. rewrite Ew, Eh.
  now rewrite Z.rem_mod_nonneg by lia.
Qed.

Lemma bits_wf_bitsAll : bits_wf bitsAll.
Proof.
  assert (E : bitsAll = [255; 255; 127]) by reflexivity. rewrite E.
  repeat split; repeat constructor; lia.
Qed.

Lemma bits_wf_houseless : bits_wf houseless.
Proof. repeat split; repeat constructor; lia. Qed.

Lemma new_WFCGrid_wf w h : 0 < w -> 0 < h -> grid_wf (new_WFCGrid w h).
Proof.
  intros Hw Hh.
  destruct (new_WFCGrid_spec w h Hw Hh) as (Ew & Eh & Es & Lw & Ec & Hc).
  assert (Hu : forall c, in_grid (new_WFCGrid w h) c ->
                         collapsed_at (new_WFCGrid w h) c = -1).
  { intros c Hin. unfold in_grid in Hin. rewrite Es in Hin.
    unfold collapsed_at, arr_get. rewrite Ec.
    apply nth_map_const. rewrite length_range. lia. }
  unfold grid_wf. rewrite Ew, Eh, Es. do 3 (split; [auto|]).
  split; [auto|]. split.
  - rewrite Ec. now rewrite length_map, length_range.
  - split.
    + intros c Hin. unfold in_grid in Hin. rewrite Es in Hin. rewrite Hc by auto.
      destruct (at_edge _ _ _); auto using bits_wf_bitsAll, bits_wf_houseless.
    + intros c Hin Hne. now apply Hu in Hin.
Qed.

Lemma new_WFCGrid_uncollapsed w h c :
  0 < w -> 0 < h -> in_grid (new_WFCGrid w h) c ->
  collapsed_at (new_WFCGrid w h) c = -1.
Proof.
  intros Hw Hh Hin.
  destruct (new_WFCGrid_spec w h Hw Hh) as (Ew & Eh & Es & Lw & Ec & Hc).
  unfold in_grid in Hin. rewrite Es in Hin.
  unfold collapsed_at, arr_get. rewrite Ec.
  apply nth_map_const. rewrite length_range. lia.
Qed.

(** * The claims *)

(** ** C1: houses and their 8 neighbours *)

(** C1. The claim is that on a run that ends with Done every cell collapsed
    to a house has its 8 neighbours collapsed to one terrain among sea,
    ground and mountain. On the 3 by 3 grid, started at the centre with the
    draws [draws_mixed], the run ends with Done, the centre is house z=5 and
    its neighbours are ground, mountain and sea tiles: the property fails. *)
Theorem house_with_mixed_neighbours :
  exists tr g,
    run draws_mixed (new_WFCGrid 3 3) 4 = Some tr /\
    final tr = Some (Done, g) /\
    collapsed g = [6; 7; 6; 1; 17; 1; 0; 1; 0] /\
    is_house (collapsed_at g 4) = true /\
    map (fun n => t_terrain (tile_at (collapsed_at g n))) (_allNeighbours g 4)
    = [ground; mountain; ground; ground; ground; sea; ground; sea] /\
    houses_uniform g = false.
Proof.
  eexists; eexists. split; [vm_compute; reflexivity|].
  split; [vm_compute; reflexivity|]. repeat split.
Qed.

(** ** C2: cardinal compatibility of the final grid *)

(** C2. The claim is that on a run that ends with Done the adjacency
    predicate holds for every pair of cardinally adjacent cells. On the 3 by
    3 grid, started at the centre with the draws [draws_house_sea], the run
    ends with Done, the centre is house z=0 and all other cells are sea;
    [cardinalCompatible] holds from the house to the sea and fails from the
    sea to the house. *)
Theorem sea_next_to_house :
  exists tr g,
    run draws_house_sea (new_WFCGrid 3 3) 4 = Some tr /\
    final tr = Some (Done, g) /\
    collapsed g = [0; 0; 0; 0; 12; 0; 0; 0; 0] /\
    In 4 (_cardinalNeighbours g 1) /\
    cardinalCompatible (tile_at (collapsed_at g 4)) (tile_at (collapsed_at g 1)) = true /\
    cardinalCompatible (tile_at (collapsed_at g 1)) (tile_at (collapsed_at g 4)) = false /\
    adjacent_compatible g = false.
Proof.
  eexists; eexists. split; [vm_compute; reflexivity|].
  split; [vm_compute; reflexivity|]. repeat split. vm_compute; auto.
Qed.

(** ** C3: the fresh grid *)

(** C3, as stated, fails: the claim gives a boundary cell of a fresh grid
    the entropy T - 1 = 22, but cell 0 of the 3 by 3 grid is a boundary cell
    with entropy 12. *)
Lemma fresh_boundary_entropy_not_T_minus_1 :
  let g := new_WFCGrid 3 3 in
  at_edge g (fst (_xy g 0)) (snd (_xy g 0)) = true /\
  getEntropy g 0 = 12 /\ getEntropy g 0 <> N_TILES - 1.
Proof. repeat split. vm_compute. discriminate. Qed.

(** C3, amended. Right after [new WFCGrid(width, height)] with positive
    dimensions, [getTile] is null on every cell, [getEntropy] is T = 23 on
    every interior cell and T - 11 = 12 on every boundary cell: all 11 house
    tiles are removed there. *)
Theorem fresh_grid_entropy w h c :
  0 < w -> 0 < h -> 0 <= c < w * h ->
  let g := new_WFCGrid w h in
  let '(x, y) := _xy g c in
  N_TILES = 23 /\
  getTile g c = None /\
  getEntropy g c =
  if (x =? 0) || (y =? 0) || (x =? w - 1) || (y =? h - 1)
  then N_TILES - 11 else N_TILES.
Proof.
  intros Hw Hh Hc g; subst g.
  destruct (new_WFCGrid_spec w h Hw Hh) as (Ew & Eh & Es & Lw & Ec & Hwv).
  specialize (Hwv c Hc). unfold at_edge in Hwv. rewrite Ew, Eh in Hwv.
  destruct (_xy (new_WFCGrid w h) c) as [x y]; cbn [fst snd] in Hwv.
  split; [reflexivity|]. split.
  - unfold getTile. rewrite new_WFCGrid_uncollapsed; auto.
    unfold in_grid; lia.
  - rewrite getEntropy_eq, Hwv.
    destruct ((x =? 0) || (y =? 0) || (x =? w - 1) || (y =? h - 1)); reflexivity.
Qed.

Lemma fresh_grid_entropy_witness :
  let g := new_WFCGrid 3 3 in
  let '(x, y) := _xy g 0 in
  N_TILES = 23 /\
  getTile g 0 = None /\
  getEntropy g 0 =
  if (x =? 0) || (y =? 0) || (x =? 3 - 1) || (y =? 3 - 1)
  then N_TILES - 11 else N_TILES.
Proof. apply (fresh_grid_entropy 3 3 0); lia. Defined.

(** ** C4: collapsed cells are frozen *)

Lemma getEntropy_singleton g c t :
  is_tile t -> wave_at g c = singleton t ->
  bitsForEach (wave_at g c) = [t] /\ getEntropy g c = 1.
Proof.
  intros Ht E. rewrite getEntropy_eq, bitsCount_length, E.
  now rewrite bitsForEach_singleton.
Qed.

(** C4. During a run started on a cell in superposition, a cell that is
    collapsed at some yield (by sampling or by propagation) has, at every
    later yield, the same tile index, the same bit set, which is the
    singleton of that tile, and entropy 1; and the run does return. *)
Theorem collapsed_cells_are_frozen rand g startIdx :
  unit_draws rand -> grid_wf g -> in_grid g startIdx ->
  collapsed_at g startIdx = -1 ->
  exists tr,
    run rand g startIdx = Some tr /\
    forall i j ei gi ej gj c,
      (i <= j)%nat ->
      nth_error tr i = Some (ei, gi) -> nth_error tr j = Some (ej, gj) ->
      in_grid g c -> collapsed_at gi c <> -1 ->
      collapsed_at gj c = collapsed_at gi c /\
      wave_at gj c = wave_at gi c /\
      wave_at gj c = singleton (collapsed_at gi c) /\
      bitsForEach (wave_at gj c) = [collapsed_at gi c] /\
      getEntropy gj c = 1.
Proof.
  intros Hr Wf Hn Hc.
  destruct (run_total rand g startIdx Hr Wf Hn Hc) as (tr & E & Hch & _).
  exists tr; split; [exact E|].
  intros i j ei gi ej gj c Hij Hi Hj Hin Hne.
  destruct (chain_nth g tr Wf Hch i j ei gi ej gj Hij Hi Hj)
    as (Wfi & Wfj & Evi & Evij).
  assert (Hini : in_grid gi c).
  { destruct Evi as (_ & _ & Es & _). unfold in_grid in *; lia. }
  destruct Evij as (_ & _ & _ & _ & F). destruct (F c Hini Hne) as [E1 E2].
  destruct Wfi as (_ & _ & _ & _ & _ & _ & Wc).
  destruct (Wc c Hini Hne) as [Ht Es].
  split; [exact E1|]. split; [exact E2|]. split; [congruence|].
  apply getEntropy_singleton; [exact Ht | congruence].
Qed.

Lemma unit_draws_zero : unit_draws (fun _ => 0%Q).
Proof. intros n; split; [apply Qle_refl | reflexivity]. Qed.

Lemma collapsed_cells_are_frozen_witness :
  exists tr,
    run (fun _ => 0%Q) (new_WFCGrid 2 2) 0 = Some tr /\
    forall i j ei gi ej gj c,
      (i <= j)%nat ->
      nth_error tr i = Some (ei, gi) -> nth_error tr j = Some (ej, gj) ->
      in_grid (new_WFCGrid 2 2) c -> collapsed_at gi c <> -1 ->
      collapsed_at gj c = collapsed_at gi c /\
      wave_at gj c = wave_at gi c /\
      wave_at gj c = singleton (collapsed_at gi c) /\
      bitsForEach (wave_at gj c) = [collapsed_at gi c] /\
      getEntropy gj c = 1.
Proof.
  apply (collapsed_cells_are_frozen (fun _ => 0%Q) (new_WFCGrid 2 2) 0).
  - exact unit_draws_zero.
  - apply new_WFCGrid_wf; lia.
  - vm_compute; split; discriminate || reflexivity.
  - reflexivity.
Defined.

(** ** C5: no house on the boundary *)

Lemma houseless_has t : is_tile t -> is_house t = true -> has houseless t = false.
Proof.
  unfold is_tile, N_TILES; intros Ht.
  assert (t = 0 \/ t = 1 \/ t = 2 \/ t = 3 \/ t = 4 \/ t = 5 \/ t = 6 \/ t = 7
          \/ t = 8 \/ t = 9 \/ t = 10 \/ t = 11 \/ t = 12 \/ t = 13 \/ t = 14
          \/ t = 15 \/ t = 16 \/ t = 17 \/ t = 18 \/ t = 19 \/ t = 20 \/ t = 21
          \/ t = 22) as H by lia.
  repeat (destruct H as [->|H]; [vm_compute; congruence|]).
  subst; vm_compute; congruence.
Qed.

(** C5. On a grid fresh from the constructor, every boundary cell has no
    house tile in its bit set; and at every yield of a run on it no house
    tile is in the bit set of a boundary cell, and no boundary cell is
    collapsed to a house tile. *)
Theorem boundary_never_house w h rand startIdx :
  0 < w -> 0 < h -> unit_draws rand -> 0 <= startIdx < w * h ->
  let g := new_WFCGrid w h in
  exists tr,
    run rand g startIdx = Some tr /\
    forall g' c t,
      (g' = g \/ exists e, In (e, g') tr) ->
      0 <= c < w * h ->
      (let '(x, y) := _xy g c in
       (x =? 0) || (y =? 0) || (x =? w - 1) || (y =? h - 1)) = true ->
      is_tile t -> is_house t = true ->
      has (wave_at g' c) t = false /\ collapsed_at g' c <> t.
Proof.
  intros Hw Hh Hr Hs g; subst g.
  pose proof (new_WFCGrid_wf w h Hw Hh) as Wf.
  destruct (new_WFCGrid_spec w h Hw Hh) as (Ew & Eh & Es & _ & _ & Hwv).
  assert (Hn : in_grid (new_WFCGrid w h) startIdx) by (unfold in_grid; lia).
  destruct (run_total rand _ startIdx Hr Wf Hn
              (new_WFCGrid_uncollapsed w h startIdx Hw Hh Hn)) as (tr & E & Hch & _).
  exists tr; split; [exact E|].
  intros g' c t Hg Hc Hedge Ht Hhouse.
  assert (Hev : grid_wf g' /\ evolves (new_WFCGrid w h) g').
  { destruct Hg as [->|[e Hin]]; [auto using evolves_refl|].
    eapply chain_In; eauto. }
  destruct Hev as [Wf' (_ & _ & Es' & M & _)].
  assert (Hw0 : has (wave_at (new_WFCGrid w h) c) t = false).
  { rewrite Hwv by auto. unfold at_edge. rewrite Ew, Eh.
    destruct (_xy (new_WFCGrid w h) c) as [x y]; cbn [fst snd].
    rewrite Hedge. now apply houseless_has. }
  assert (Hin : in_grid (new_WFCGrid w h) c) by (unfold in_grid; lia).
  assert (Hw1 : has (wave_at g' c) t = false).
  { destruct (has (wave_at g' c) t) eqn:Hh'; auto.
    apply (M c Hin t Ht) in Hh'. congruence. }
  split; [exact Hw1|]. intros Hct.
  destruct Wf' as (_ & _ & _ & _ & _ & _ & Wc).
  destruct (Wc c) as [_ Esing].
  - unfold in_grid in *; lia.
  - unfold is_tile in Ht; lia.
  - rewrite Esing, Hct, has_singleton, Z.eqb_refl in Hw1 by auto. discriminate.
Qed.

Lemma boundary_never_house_witness :
  let g := new_WFCGrid 3 3 in
  exists tr,
    run (fun _ => 0%Q) g 4 = Some tr /\
    forall g' c t,
      (g' = g \/ exists e, In (e, g') tr) ->
      0 <= c < 3 * 3 ->
      (let '(x, y) := _xy g c in
       (x =? 0) || (y =? 0) || (x =? 3 - 1) || (y =? 3 - 1)) = true ->
      is_tile t -> is_house t = true ->
      has (wave_at g' c) t = false /\ collapsed_at g' c <> t.
Proof.
  apply (boundary_never_house 3 3 (fun _ => 0%Q) 4); try lia.
  exact unit_draws_zero.
Defined.

(** ** C6: propagation terminates *)

Lemma wave_at_install g n w :
  grid_wf g -> in_grid g n -> collapsed_at g n = -1 -> bits_wf w ->
  wave_at (install g n w) n = w.
Proof.
  intros Wf Hn Hc Hw.
  destruct (install_shape g n w Hw Hc) as (tn & _ & _ & _ & _ & Ewave & _).
  unfold wave_at. rewrite Ewave. apply arr_get_set_eq.
  destruct Wf as (_ & _ & _ & Lw & _). unfold in_grid in Hn. lia.
Qed.

Lemma cardinal_step_push current st n :
  p_ok st -> in_grid (p_grid st) n ->
  pushed_only_on_change st (cardinal_step current st n) n.
Proof.
  intros Hok Hn. pose proof Hok as [Wf _]. rewrite cardinal_step_eq.
  destruct (Z.eqb_spec (collapsed_at (p_grid st) n) (-1)) as [Hc|Hc]; cbn [negb];
    [|now left].
  destruct (narrowed_shrinks (p_grid st) current n) as [W1 S1].
  destruct (enforceHouseConstraints_shrinks (p_grid st) n _ W1) as [W2 S2].
  set (nw := _enforceHouseConstraints _ _ _) in *. clearbody nw. cbv zeta.
  destruct (bitsEqual _ nw) eqn:E; cbn [negb]; [now left|].
  right. cbn [p_stack p_grid]. rewrite wave_at_install by auto.
  assert (Hs : bits_sub nw (wave_at (p_grid st) n)) by (eapply bits_sub_trans; eauto).
  split; [reflexivity|]. split; [exact Hs|].
  apply bitsEqual_false_lt; auto. now apply Wf.
Qed.

Lemma house_step_push st n :
  p_ok st -> in_grid (p_grid st) n ->
  pushed_only_on_change st (house_step st n) n.
Proof.
  intros Hok Hn. pose proof Hok as [Wf _]. rewrite house_step_eq by auto.
  destruct (Z.eqb_spec (collapsed_at (p_grid st) n) (-1)) as [Hc|Hc]; cbn [negb];
    [|now left].
  assert (W1 : bits_wf (wave_at (p_grid st) n)) by now apply Wf.
  destruct (enforceHouseConstraints_shrinks (p_grid st) n _ W1) as [W2 S2].
  set (nw := _enforceHouseConstraints _ _ _) in *. clearbody nw. cbv zeta.
  destruct (bitsEqual _ nw) eqn:E; cbn [negb]; [now left|].
  right. cbn [p_stack p_grid]. rewrite wave_at_install by auto.
  split; [reflexivity|]. split; [exact S2|].
  apply bitsEqual_false_lt; auto.
Qed.

(** C6. On a well-formed grid and seeds inside it, [_propagate] returns; the
    grid afterwards has every bit set included in the one before; the loop
    exits with an empty stack within [length seeds + total entropy]
    iterations, whatever larger fuel it is given; and in both passes a cell
    is pushed only when its bit set became strictly smaller. *)
Theorem propagate_terminates g seeds :
  grid_wf g -> Forall (in_grid g) seeds ->
  (exists g' changed,
      _propagate g seeds = Some (g', changed) /\ grid_wf g' /\
      forall c, in_grid g c -> bits_sub (wave_at g' c) (wave_at g c)) /\
  (forall fuel,
      (propagate_fuel g seeds <= fuel)%nat ->
      exists st',
        propagate_loop fuel (mkP g (rev seeds) (fold_left set_add seeds []))
        = Some st' /\ p_stack st' = []) /\
  (forall st current n,
      p_ok st -> in_grid (p_grid st) n ->
      pushed_only_on_change st (cardinal_step current st n) n /\
      pushed_only_on_change st (house_step st n) n).
Proof.
  intros Wf Hs. split; [|split].
  - destruct (propagate_total g seeds Wf Hs) as (g' & ch & E & Wf' & Ev).
    exists g', ch. split; [exact E|]. split; [exact Wf'|]. apply Ev.
  - intros fuel Hf.
    destruct (propagate_loop_total fuel
                (mkP g (rev seeds) (fold_left set_add seeds [])))
      as (st' & E & (Hok & Ev & M) & Emp).
    + split; cbn [p_stack p_grid]; auto. apply Forall_rev; auto.
    + unfold pmeasure, propagate_fuel in *; cbn [p_stack p_grid].
      rewrite length_rev. pose proof (total_entropy_nonneg g). lia.
    + exists st'. split; [exact E | exact Emp].
  - intros st current n Hok Hn. split.
    + now apply cardinal_step_push.
    + now apply house_step_push.
Qed.

Lemma propagate_terminates_witness :
  let g := snd (fst (_collapseCell (fun _ => 0%Q) 0%nat (new_WFCGrid 3 3) 4)) in
  let st := mkP g [] [4] in
  (exists g' changed,
      _propagate g [4] = Some (g', changed) /\ grid_wf g' /\
      forall c, in_grid g c -> bits_sub (wave_at g' c) (wave_at g c)) /\
  (exists st',
      propagate_loop (propagate_fuel g [4])
                     (mkP g (rev [4]) (fold_left set_add [4] []))
      = Some st' /\ p_stack st' = []) /\
  pushed_only_on_change st (cardinal_step 4 st 1) 1 /\
  pushed_only_on_change st (house_step st 1) 1.
Proof.
  intros g st.
  assert (Wf : grid_wf g).
  { apply collapseCell_wf;
      [apply new_WFCGrid_wf; lia
      | vm_compute; split; discriminate || reflexivity
      | reflexivity]. }
  assert (Hs : Forall (in_grid g) [4]).
  { constructor; [vm_compute; split; discriminate || reflexivity | constructor]. }
  destruct (propagate_terminates g [4] Wf Hs) as (A & B & C).
  split; [exact A|]. split; [exact (B (propagate_fuel g [4]) (Nat.le_refl _))|].
  apply (C st 4 1).
  - split; [exact Wf | constructor].
  - vm_compute; split; discriminate || reflexivity.
Defined.

(** ** C7: next-cell selection *)

Lemma Qfloor_unique x j :
  (inject_Z j <= x)%Q -> (x < inject_Z (j + 1))%Q -> Qfloor x = j.
Proof.
  intros H1 H2.
  pose proof (Qfloor_le x) as F1. pose proof (Qlt_floor x) as F2.
  assert (j < Qfloor x + 1).
  { rewrite Zlt_Qlt. eapply Qle_lt_trans; eauto. }
  assert (Qfloor x < j + 1).
  { rewrite Zlt_Qlt. eapply Qle_lt_trans; eauto. }
  lia.
Qed.

Lemma pick_scan_first_zero g pre i post best cands :
  collapsed_at g i = -1 -> bitsCount (wave_at g i) = 0 ->
  pick_scan g (pre ++ i :: post) best cands = None.
Proof.
  intros Hc Hz. rewrite pick_scan_spec. unfold scan_result.
  rewrite filter_app; cbn [filter]. rewrite Hc, Z.eqb_refl.
  rewrite existsb_app; cbn [existsb]. rewrite Hz, Z.eqb_refl.
  now rewrite orb_true_r.
Qed.

(** C7. [_pickLowestEntropy] scans the cells in row-major order. It returns
    -1 as soon as it meets a cell in superposition with no option left,
    whatever follows that cell. Otherwise it returns -2 when no cell is in
    superposition; and else the cells in superposition with the least
    entropy form a list [l] without repetition (in row-major order) of
    length [n], and the result is its element number [Math.floor(d * n)],
    where the draw [d] is a binary64 number in [0, 1) (the value of the
    oracle itself when that is a binary64 number) and the product is the
    binary64 one. That index lies in [0, n), so the result is a cell of [l].
    For [n <= 2^53] each cell of [l] is returned for the draws of one
    interval of width [1 / n], up to a relative error of [2^-53] at its
    ends: element number [j] is returned only if
    [j * (1 - 2^-53) <= d * n < j + 1], and it is returned whenever
    [j <= d * n < (j + 1) * (1 - 2^-53)], the products being exact here. *)
Theorem pickLowestEntropy_spec rand k g :
  (0 <= rand k)%Q -> (rand k < 1)%Q ->
  let r := fst (_pickLowestEntropy rand k g) in
  let l := lowest_entropy_cells g in
  let n := Z.of_nat (length l) in
  let d := b64_toward_zero (rand k) in
  (forall pre i post,
      collapsed_at g i = -1 -> getEntropy g i = 0 ->
      pick_scan g (pre ++ i :: post) None [] = None) /\
  ((exists i, in_grid g i /\ collapsed_at g i = -1 /\ getEntropy g i = 0) ->
   r = -1) /\
  ((forall i, in_grid g i -> collapsed_at g i = -1 -> getEntropy g i <> 0) ->
   ((forall i, in_grid g i -> collapsed_at g i <> -1) -> r = -2) /\
   ((exists i, in_grid g i /\ collapsed_at g i = -1) ->
    NoDup l /\
    (forall i, In i l <->
               in_grid g i /\ collapsed_at g i = -1 /\
               forall j, in_grid g j -> collapsed_at g j = -1 ->
                         getEntropy g i <= getEntropy g j) /\
    (is_b64 d /\ (0 <= d)%Q /\ (d < 1)%Q /\
     (is_b64 (rand k) -> (d == rand k)%Q)) /\
    r = arr_get 0 l (random_index (rand k) n) /\
    0 <= random_index (rand k) n < n /\
    In r l /\
    (n <= 2 ^ 53 ->
     forall j, 0 <= j < n ->
       (r = arr_get 0 l j ->
        (inject_Z j * (1 - 2 ^ (-53)) <= d * inject_Z n)%Q /\
        (d * inject_Z n < inject_Z (j + 1))%Q) /\
       ((inject_Z j <= d * inject_Z n)%Q ->
        (d * inject_Z n < inject_Z (j + 1) * (1 - 2 ^ (-53)))%Q ->
        r = arr_get 0 l j)))).
Proof.
  intros H0 H1 r l n d. unfold getEntropy.
  assert (Hl : forall i, In i l <->
               in_grid g i /\ collapsed_at g i = -1 /\
               forall j, in_grid g j -> collapsed_at g j = -1 ->
                         bitsCount (wave_at g i) <= bitsCount (wave_at g j)).
  { intros i. unfold l. rewrite in_lowest_entropy_cells, in_uncollapsed_cells.
    split.
    - intros [[A B] C]. split; [exact A|]. split; [exact B|]. intros j Hj Hcj.
      apply C, in_uncollapsed_cells; auto.
    - intros (A & B & C). split; [split; [exact A | exact B]|]. intros j Hj.
      apply in_uncollapsed_cells in Hj as [? ?]. now apply C. }
  split; [|split].
  - intros pre i post Hc Hz.
    exact (pick_scan_first_zero g pre i post None [] Hc Hz).
  - intros (i & Hi & Hc & Hz).
    destruct (pickLowestEntropy_cases rand k g H0 H1)
      as [[E _]|[[E Hu]|(next & E & _ & Hnz)]]; unfold r; rewrite E; auto.
    + assert (In i (uncollapsed_cells g)) by now apply in_uncollapsed_cells.
      rewrite Hu in H; destruct H.
    + exfalso. apply (Hnz i); [|exact Hz]. now apply in_uncollapsed_cells.
  - intros Hnz. split.
    + intros Hall.
      destruct (pickLowestEntropy_cases rand k g H0 H1)
        as [[E (i & Hi & Hz)]|[[E Hu]|(next & E & Hin & _)]];
        unfold r; rewrite E; auto.
      * apply in_uncollapsed_cells in Hi as [Hi Hc]. destruct (Hnz i Hi Hc Hz).
      * apply in_lowest_entropy_cells in Hin as [Hin _].
        apply in_uncollapsed_cells in Hin as [Hi Hc]. now destruct (Hall next Hi).
    + intros (i & Hi & Hc).
      assert (Hu : In i (uncollapsed_cells g)) by now apply in_uncollapsed_cells.
      assert (Er : _pickLowestEntropy rand k g
                   = (arr_get 0 l (random_index (rand k) n), S k) /\ l <> []).
      { unfold _pickLowestEntropy. rewrite pick_scan_top.
        destruct (existsb _ _) eqn:Ex.
        - apply existsb_exists in Ex as (i' & Hi' & Hz%Z.eqb_eq).
          apply in_uncollapsed_cells in Hi' as [Hg' Hc']. destruct (Hnz i' Hg' Hc' Hz).
        - fold l. unfold n. destruct l as [|c0 l'] eqn:El.
          + apply lowest_entropy_cells_nil in El. rewrite El in Hu. destruct Hu.
          + split; [reflexivity | discriminate]. }
      destruct Er as [Er Hne].
      assert (Hn : 0 < n) by (unfold n; destruct l; [congruence | simpl; lia]).
      pose proof (random_index_range (rand k) n H0 H1 Hn) as Hr.
      pose proof (NoDup_lowest_entropy_cells g) as Hnd. fold l in Hnd.
      split; [exact Hnd|]. split; [exact Hl|]. split.
      { split; [now apply b64_toward_zero_is_b64|].
        split; [now apply b64_toward_zero_bounds|]. split.
        - pose proof (b64_toward_zero_below_one (rand k) H0 H1) as Hd.
          pose proof (pow2_pos (-53)). fold d in Hd. lra.
        - intros Hb. now apply b64_toward_zero_fixes. }
      split; [unfold r; now rewrite Er|]. split; [exact Hr|]. split.
      * unfold r; rewrite Er; cbn [fst]. unfold arr_get. apply nth_In.
        unfold n in *. lia.
      * intros Hn53 j Hj.
        destruct (random_index_interval (rand k) n H0 H1 (conj Hn Hn53))
          as (I1 & I2 & I3). fold d in I1, I2, I3.
        split.
        -- intros Ej. unfold r in Ej. rewrite Er in Ej. cbn [fst] in Ej.
           assert (Eij : random_index (rand k) n = j).
           { unfold arr_get in Ej.
             assert (Z.to_nat (random_index (rand k) n) = Z.to_nat j); [|lia].
             apply (proj1 (NoDup_nth l 0) Hnd); auto; unfold n in *; lia. }
           rewrite <- Eij. split; assumption.
        -- intros J1 J2. unfold r; rewrite Er; cbn [fst]. f_equal.
           now apply I3.
Qed.

Lemma pickLowestEntropy_spec_witness :
  let rand := fun _ : nat => 6004799503160661 # 9007199254740992 in
  let g := new_WFCGrid 3 1 in
  (let r := fst (_pickLowestEntropy rand 0%nat g) in
   let l := lowest_entropy_cells g in
   let n := Z.of_nat (length l) in
   let d := b64_toward_zero (rand 0%nat) in
   (forall pre i post,
       collapsed_at g i = -1 -> getEntropy g i = 0 ->
       pick_scan g (pre ++ i :: post) None [] = None) /\
   ((exists i, in_grid g i /\ collapsed_at g i = -1 /\ getEntropy g i = 0) ->
    r = -1) /\
   ((forall i, in_grid g i -> collapsed_at g i = -1 -> getEntropy g i <> 0) ->
    ((forall i, in_grid g i -> collapsed_at g i <> -1) -> r = -2) /\
    ((exists i, in_grid g i /\ collapsed_at g i = -1) ->
     NoDup l /\
     (forall i, In i l <->
                in_grid g i /\ collapsed_at g i = -1 /\
                forall j, in_grid g j -> collapsed_at g j = -1 ->
                          getEntropy g i <= getEntropy g j) /\
     (is_b64 d /\ (0 <= d)%Q /\ (d < 1)%Q /\
      (is_b64 (rand 0%nat) -> (d == rand 0%nat)%Q)) /\
     r = arr_get 0 l (random_index (rand 0%nat) n) /\
     0 <= random_index (rand 0%nat) n < n /\
     In r l /\
     (n <= 2 ^ 53 ->
      forall j, 0 <= j < n ->
        (r = arr_get 0 l j ->
         (inject_Z j * (1 - 2 ^ (-53)) <= d * inject_Z n)%Q /\
         (d * inject_Z n < inject_Z (j + 1))%Q) /\
        ((inject_Z j <= d * inject_Z n)%Q ->
         (d * inject_Z n < inject_Z (j + 1) * (1 - 2 ^ (-53)))%Q ->
         r = arr_get 0 l j))))) /\
  lowest_entropy_cells g = [0; 1; 2] /\
  fst (_pickLowestEntropy rand 0%nat g) = 2.
Proof.
  intros rand g. split; [|split; vm_compute; reflexivity].
  apply (pickLowestEntropy_spec rand 0%nat g);
    [vm_compute; discriminate | vm_compute; reflexivity].
Defined.

(** ** C8: collapsing a cell without options *)

(** C8. On a cell whose bit set is empty, [_collapseCell] returns false and
    the grid (every bit set, every collapsed marker, the dirty set) is the
    one before the call; no draw is consumed. *)
Theorem collapse_of_empty_cell rand k g idx :
  getEntropy g idx = 0 -> _collapseCell rand k g idx = (false, g, k).
Proof.
  rewrite getEntropy_eq, bitsCount_length. intros H.
  apply collapseCell_empty. destruct (bitsForEach _); [reflexivity | discriminate].
Qed.

Lemma collapse_of_empty_cell_witness :
  let g := mkGrid 1 1 1 [bitsNew] [-1] [] in
  _collapseCell (fun _ => 0%Q) 0%nat g 0 = (false, g, 0%nat).
Proof.
  intros g. apply (collapse_of_empty_cell (fun _ => 0%Q) 0%nat g 0). reflexivity.
Defined.

(** ** C9: one terminal event, at the end *)

(** C9. A run started on a cell in superposition returns a finite sequence
    of events whose last event is terminal (Done or Contradiction) and none
    of whose other events is. *)
Theorem run_ends_with_one_terminal_event rand g startIdx :
  unit_draws rand -> grid_wf g -> in_grid g startIdx ->
  collapsed_at g startIdx = -1 ->
  exists tr body last,
    run rand g startIdx = Some tr /\
    map fst tr = body ++ [last] /\
    is_terminal last = true /\
    Forall (fun e => is_terminal e = false) body.
Proof.
  intros Hr Wf Hn Hc.
  destruct (run_total rand g startIdx Hr Wf Hn Hc)
    as (tr & E & _ & body & last & Eb & Hl & Hb).
  exists tr, body, last. auto.
Qed.

Lemma run_ends_with_one_terminal_event_witness :
  exists tr body last,
    run (fun _ => 0%Q) (new_WFCGrid 2 2) 0 = Some tr /\
    map fst tr = body ++ [last] /\
    is_terminal last = true /\
    Forall (fun e => is_terminal e = false) body.
Proof.
  apply (run_ends_with_one_terminal_event (fun _ => 0%Q) (new_WFCGrid 2 2) 0).
  - exact unit_draws_zero.
  - apply new_WFCGrid_wf; lia.
  - vm_compute; split; discriminate || reflexivity.
  - reflexivity.
Defined.

(** ** C10: the collapsed tile was an option *)

(** C10. On a cell whose bit set is not empty, [_collapseCell] returns true
    whatever the draw, the tile it assigns is a tile index that was in the
    cell's bit set before the call, and the cell's bit set afterwards is the
    singleton of that tile. The sampling loop itself returns one of the
    options for every value of [r]. *)
Theorem collapse_picks_an_option rand k g idx :
  grid_wf g -> in_grid g idx -> getEntropy g idx <> 0 ->
  (forall r first rest,
      In (sample r (first :: rest) (map weight (first :: rest)) first)
         (first :: rest)) /\
  exists g',
    _collapseCell rand k g idx = (true, g', S k) /\
    is_tile (collapsed_at g' idx) /\
    has (wave_at g idx) (collapsed_at g' idx) = true /\
    wave_at g' idx = singleton (collapsed_at g' idx).
Proof.
  intros Wf Hn Hne. split.
  - intros r first rest.
    destruct (sample_In r (first :: rest) (map weight (first :: rest)) first)
      as [-> | H]; [now left | exact H].
  - rewrite getEntropy_eq in Hne. apply bitsForEach_nonempty in Hne.
    destruct (collapseCell_nonempty rand k g idx Hne) as (chosen & Hin & E).
    eexists; split; [exact E|].
    destruct Wf as (_ & _ & _ & Lw & Lc & _).
    assert (Ec : collapsed_at
                   (add_dirty (set_collapsed (set_wave g idx (singleton chosen))
                                             idx chosen) idx) idx = chosen).
    { unfold collapsed_at; cbn [add_dirty set_collapsed set_wave collapsed].
      apply arr_get_set_eq. unfold in_grid in Hn; lia. }
    assert (Ew : wave_at
                   (add_dirty (set_collapsed (set_wave g idx (singleton chosen))
                                             idx chosen) idx) idx
                 = singleton chosen).
    { unfold wave_at; cbn [add_dirty set_collapsed set_wave wave].
      apply arr_get_set_eq. unfold in_grid in Hn; lia. }
    rewrite Ec, Ew. apply in_bitsForEach in Hin as [Ht Hh]. auto.
Qed.

Lemma collapse_picks_an_option_witness :
  let g := new_WFCGrid 2 2 in
  (forall r first rest,
      In (sample r (first :: rest) (map weight (first :: rest)) first)
         (first :: rest)) /\
  exists g',
    _collapseCell (fun _ => 0%Q) 0%nat g 0 = (true, g', 1%nat) /\
    is_tile (collapsed_at g' 0) /\
    has (wave_at g 0) (collapsed_at g' 0) = true /\
    wave_at g' 0 = singleton (collapsed_at g' 0).
Proof.
  intros g.
  apply (collapse_picks_an_option (fun _ => 0%Q) 0%nat g 0).
  - apply new_WFCGrid_wf; lia.
  - vm_compute; split; discriminate || reflexivity.
  - vm_compute; discriminate.
Defined.

(** * Further properties of the engine *)

(** ** Bit sets: lookup after update, size, equality *)

(** X1. On a 3-byte bit set and tile indices, [bitsHas] after [bitsSet] or
    [bitsClear] of [i] answers for [i] itself what was written and for every
    other index what it answered before; a new bit set has no member. *)
Theorem bits_lookup_after_update b i j :
  length b = 3%nat -> is_tile i -> is_tile j ->
  has (bitsSet b i) j = (if i =? j then true else has b j) /\
  has (bitsClear b i) j = (if i =? j then false else has b j) /\
  has bitsNew j = false.
Proof.
  unfold is_tile, N_TILES; intros Hl Hi Hj.
  rewrite has_bitsSet, has_bitsClear, has_bitsNew by (auto; lia).
  destruct (i =? j); auto.
Qed.

Lemma bits_lookup_after_update_witness :
  has (bitsSet [255; 15; 0] 12) 13 = (if 12 =? 13 then true else has [255; 15; 0] 13) /\
  has (bitsClear [255; 15; 0] 12) 13 = (if 12 =? 13 then false else has [255; 15; 0] 13) /\
  has bitsNew 13 = false.
Proof.
  apply (bits_lookup_after_update [255; 15; 0] 12 13);
    [reflexivity | unfold is_tile, N_TILES; lia | unfold is_tile, N_TILES; lia].
Defined.

Lemma filter_remove_one (p : Z -> bool) l x :
  NoDup l -> In x l -> p x = true ->
  (length (filter (fun y => negb (Z.eqb x y) && p y) l) + 1
   = length (filter p l))%nat.
Proof.
  induction l as [|y l IH]; intros Hnd Hin Hp; [destruct Hin|].
  inversion Hnd as [|? ? Hny Hnd']; subst. cbn [filter].
  destruct Hin as [->|Hin].
  - rewrite Z.eqb_refl, Hp; cbn [negb andb length].
    rewrite (filter_ext_in (fun y => negb (x =? y) && p y) p); [lia|].
    intros a Ha. destruct (Z.eqb_spec x a) as [->|]; [contradiction | reflexivity].
  - specialize (IH Hnd' Hin Hp).
    destruct (Z.eqb_spec x y) as [->|]; [contradiction|]. cbn [negb andb].
    destruct (p y); cbn [length]; lia.
Qed.

Lemma filter_add_one (p : Z -> bool) l x :
  NoDup l -> In x l -> p x = false ->
  (length (filter (fun y => Z.eqb x y || p y) l)
   = length (filter p l) + 1)%nat.
Proof.
  induction l as [|y l IH]; intros Hnd Hin Hp; [destruct Hin|].
  inversion Hnd as [|? ? Hny Hnd']; subst. cbn [filter].
  destruct Hin as [->|Hin].
  - rewrite Z.eqb_refl, Hp; cbn [orb length].
    rewrite (filter_ext_in (fun y => (x =? y) || p y) p); [lia|].
    intros a Ha. destruct (Z.eqb_spec x a) as [->|]; [contradiction | reflexivity].
  - specialize (IH Hnd' Hin Hp).
    destruct (Z.eqb_spec x y) as [->|]; [contradiction|]. cbn [orb].
    destruct (p y); cbn [length]; lia.
Qed.

(** X2. [bitsCount] is the number of members, between 0 and the number of
    tiles; setting a tile that is not a member adds one, clearing a member
    removes one, and setting a member or clearing a non-member changes
    nothing. *)
Theorem bitsCount_after_update b t :
  length b = 3%nat -> is_tile t ->
  0 <= bitsCount b <= N_TILES /\
  bitsCount b = Z.of_nat (length (bitsForEach b)) /\
  bitsCount (bitsSet b t) = bitsCount b + (if has b t then 0 else 1) /\
  bitsCount (bitsClear b t) = bitsCount b - (if has b t then 1 else 0).
Proof.
  intros Hl Ht.
  assert (Hr : In t (range N_TILES)) by now apply in_range.
  pose proof (NoDup_range N_TILES) as Hnd.
  split; [|split; [apply bitsCount_length|split]].
  - rewrite bitsCount_length. split; [lia|]. unfold bitsForEach.
    pose proof (List.filter_length_le (has b) (range N_TILES)) as H.
    rewrite length_range in H. unfold N_TILES in *. lia.
  - rewrite !bitsCount_length. unfold bitsForEach.
    rewrite (filter_ext_in (has (bitsSet b t)) (fun y => (t =? y) || has b y)).
    2:{ intros a Ha%in_range. unfold is_tile, N_TILES in *.
        apply has_bitsSet; auto; lia. }
    destruct (has b t) eqn:E.
    + rewrite (filter_ext_in (fun y => (t =? y) || has b y) (has b)); [lia|].
      intros a _. destruct (Z.eqb_spec t a) as [->|]; auto.
    + rewrite filter_add_one; auto. lia.
  - rewrite !bitsCount_length. unfold bitsForEach.
    rewrite (filter_ext_in (has (bitsClear b t))
                           (fun y => negb (t =? y) && has b y)).
    2:{ intros a Ha%in_range. unfold is_tile, N_TILES in *.
        apply has_bitsClear; auto; lia. }
    destruct (has b t) eqn:E.
    + pose proof (filter_remove_one (has b) (range N_TILES) t Hnd Hr E). lia.
    + rewrite (filter_ext_in (fun y => negb (t =? y) && has b y) (has b)); [lia|].
      intros a _. destruct (Z.eqb_spec t a) as [->|]; auto.
Qed.

Lemma bitsCount_after_update_witness :
  0 <= bitsCount [255; 15; 0] <= N_TILES /\
  bitsCount [255; 15; 0] = Z.of_nat (length (bitsForEach [255; 15; 0])) /\
  bitsCount (bitsSet [255; 15; 0] 12)
  = bitsCount [255; 15; 0] + (if has [255; 15; 0] 12 then 0 else 1) /\
  bitsCount (bitsClear [255; 15; 0] 12)
  = bitsCount [255; 15; 0] - (if has [255; 15; 0] 12 then 1 else 0).
Proof.
  apply (bitsCount_after_update [255; 15; 0] 12);
    [reflexivity | unfold is_tile, N_TILES; lia].
Defined.

(** X3. On two bit sets as the engine builds them, [bitsEqual] is true
    exactly when they have the same members. *)
Theorem bitsEqual_same_members a b :
  bits_wf a -> bits_wf b ->
  (bitsEqual a b = true <-> forall t, is_tile t -> has a t = has b t).
Proof.
  intros Wa Wb.
  assert (Hl : length a = length b) by (destruct Wa as [-> _], Wb as [-> _]; auto).
  rewrite (bitsEqual_iff a b Hl). split.
  - now intros ->.
  - now apply bits_ext.
Qed.

Lemma bitsEqual_same_members_witness :
  bitsEqual bitsAll houseless = true
  <-> forall t, is_tile t -> has bitsAll t = has houseless t.
Proof.
  apply (bitsEqual_same_members bitsAll houseless);
    [apply bits_wf_bitsAll | apply bits_wf_houseless].
Defined.

(** ** The adjacency table *)

Lemma allowed_has_compatible i j :
  is_tile i -> is_tile j ->
  allowed_has i j = cardinalCompatible (tile_at i) (tile_at j).
Proof.
  intros Hi%in_range Hj%in_range.
  assert (H : forallb (fun i => forallb (fun j =>
                Bool.eqb (allowed_has i j)
                         (cardinalCompatible (tile_at i) (tile_at j)))
              (range N_TILES)) (range N_TILES) = true) by (vm_compute; reflexivity).
  rewrite forallb_forall in H. specialize (H i Hi).
  rewrite forallb_forall in H. specialize (H j Hj).
  now apply eqb_prop.
Qed.

(** X4. The precomputed table answers as the rule predicate does: for tile
    indices [i] and [j], [CARDINAL_ALLOWED[i].has(j)] is
    [cardinalCompatible(ALL_TILES[i], ALL_TILES[j])]. *)
Theorem adjacency_table_faithful i j :
  is_tile i -> is_tile j ->
  allowed_has i j = cardinalCompatible (tile_at i) (tile_at j).
Proof. apply allowed_has_compatible. Qed.

Lemma adjacency_table_faithful_witness :
  allowed_has 0 12 = cardinalCompatible (tile_at 0) (tile_at 12).
Proof.
  apply (adjacency_table_faithful 0 12); unfold is_tile, N_TILES; lia.
Defined.

(** X5. On the catalogue the rule predicate is symmetric except from a house
    to the sea and from a low house to a mountain: [cardinalCompatible a b]
    holds while [cardinalCompatible b a] fails exactly when [a] is a house
    and either [b] is the sea and [a] has elevation 0, or [b] is a mountain
    and [a] has elevation below 5. *)
Theorem compatibility_asymmetric_pairs i j :
  is_tile i -> is_tile j ->
  (cardinalCompatible (tile_at i) (tile_at j) = true /\
   cardinalCompatible (tile_at j) (tile_at i) = false)
  <->
  (t_terrain (tile_at i) = house /\
   ((t_terrain (tile_at j) = sea /\ t_z (tile_at i) = 0) \/
    (t_terrain (tile_at j) = mountain /\ t_z (tile_at i) < 5))).
Proof.
  intros Hi%in_range Hj%in_range.
  assert (H : forallb (fun i => forallb (fun j =>
                Bool.eqb
                  (cardinalCompatible (tile_at i) (tile_at j)
                   && negb (cardinalCompatible (tile_at j) (tile_at i)))
                  (terrain_eqb (t_terrain (tile_at i)) house
                   && ((terrain_eqb (t_terrain (tile_at j)) sea
                        && (t_z (tile_at i) =? 0))
                       || (terrain_eqb (t_terrain (tile_at j)) mountain
                           && (t_z (tile_at i) <? 5)))))
              (range N_TILES)) (range N_TILES) = true) by (vm_compute; reflexivity).
  rewrite forallb_forall in H. specialize (H i Hi).
  rewrite forallb_forall in H. specialize (H j Hj).
  apply eqb_prop in H.
  transitivity (cardinalCompatible (tile_at i) (tile_at j)
                && negb (cardinalCompatible (tile_at j) (tile_at i)) = true).
  { destruct (cardinalCompatible (tile_at i) (tile_at j)),
      (cardinalCompatible (tile_at j) (tile_at i)); cbn [andb negb];
      intuition discriminate. }
  rewrite H. clear H.
  destruct (t_terrain (tile_at i)), (t_terrain (tile_at j));
    cbn [terrain_eqb andb orb];
    rewrite ?orb_false_r, ?Z.eqb_eq, ?Z.ltb_lt;
    intuition (discriminate || auto).
Qed.

Lemma compatibility_asymmetric_pairs_witness :
  (cardinalCompatible (tile_at 12) (tile_at 0) = true /\
   cardinalCompatible (tile_at 0) (tile_at 12) = false)
  <->
  (t_terrain (tile_at 12) = house /\
   ((t_terrain (tile_at 0) = sea /\ t_z (tile_at 12) = 0) \/
    (t_terrain (tile_at 0) = mountain /\ t_z (tile_at 12) < 5))).
Proof.
  apply (compatibility_asymmetric_pairs 12 0); unfold is_tile, N_TILES; lia.
Defined.

(** ** Grid geometry: coordinates and neighbourhoods *)

Lemma xy_idx g x y :
  0 < width g -> 0 <= x < width g -> 0 <= y -> _xy g (_idx g x y) = (x, y).
Proof.
  intros Hw Hx Hy. unfold _xy, _idx.
  assert (H0 : 0 <= y * width g + x) by nia.
  rewrite Z.rem_mod_nonneg by lia. f_equal.
  - symmetry. apply (Z.mod_unique_pos _ _ y); lia.
  - symmetry. apply (Z.div_unique_pos _ _ y x); lia.
Qed.

(** X6. Cell indices and coordinates are inverse to each other: [_xy] of
    [_idx(x, y)] is [(x, y)] for a column [x] inside the grid and a row
    [y >= 0], and [_idx] of the coordinates of a cell index [idx >= 0] is
    [idx], with the column inside the grid. *)
Theorem idx_xy_round_trip g x y idx :
  0 < width g -> 0 <= x < width g -> 0 <= y -> 0 <= idx ->
  _xy g (_idx g x y) = (x, y) /\
  _idx g (fst (_xy g idx)) (snd (_xy g idx)) = idx /\
  0 <= fst (_xy g idx) < width g /\ 0 <= snd (_xy g idx).
Proof.
  intros Hw Hx Hy Hi. split; [now apply xy_idx|].
  pose proof (xy_spec g idx Hw Hi) as H. destruct (_xy g idx) as [x' y'].
  cbn [fst snd]. unfold _idx. lia.
Qed.

Lemma idx_xy_round_trip_witness :
  let g := new_WFCGrid 3 3 in
  _xy g (_idx g 2 1) = (2, 1) /\
  _idx g (fst (_xy g 5)) (snd (_xy g 5)) = 5 /\
  0 <= fst (_xy g 5) < width g /\ 0 <= snd (_xy g 5).
Proof.
  intros g. apply (idx_xy_round_trip g 2 1 5);
    [reflexivity | vm_compute; split; discriminate || reflexivity | lia | lia].
Defined.

Lemma cardinalNeighbours_iff g c n :
  grid_wf g -> in_grid g c ->
  (In n (_cardinalNeighbours g c) <->
   in_grid g n /\
   Z.abs (fst (_xy g c) - fst (_xy g n))
   + Z.abs (snd (_xy g c) - snd (_xy g n)) = 1).
Proof.
  intros Wf Hc. split.
  - intros Hin. split; [eapply cardinalNeighbours_in_grid; eauto|].
    pose proof (xy_in_grid g c Wf Hc) as H.
    unfold _cardinalNeighbours in Hin. destruct (_xy g c) as [x y].
    destruct H as (Hx & Hy & E). pose proof Wf as (Hw & _).
    cbn [fst snd]. rewrite !in_app_iff in Hin.
    destruct (Z.gtb_spec x 0), (Z.ltb_spec x (width g - 1)),
      (Z.gtb_spec y 0), (Z.ltb_spec y (height g - 1)); cbn [In] in Hin;
      repeat (destruct Hin as [Hin|Hin]; try tauto); subst n;
      rewrite xy_idx by lia; cbn [fst snd]; lia.
  - intros [Hn Hd].
    pose proof (xy_in_grid g c Wf Hc) as H.
    pose proof (xy_in_grid g n Wf Hn) as H'.
    unfold _cardinalNeighbours. destruct (_xy g c) as [x y].
    destruct (_xy g n) as [x' y']. cbn [fst snd] in Hd.
    destruct H as (Hx & Hy & E). destruct H' as (Hx' & Hy' & E').
    rewrite !in_app_iff. unfold _idx.
    assert (Hcase : (x' = x - 1 /\ y' = y) \/ (x' = x + 1 /\ y' = y)
                    \/ (x' = x /\ y' = y - 1) \/ (x' = x /\ y' = y + 1)) by lia.
    destruct Hcase as [[-> ->]|[[-> ->]|[[-> ->]|[-> ->]]]].
    + left. destruct (Z.gtb_spec x 0); [now left | lia].
    + right; left. destruct (Z.ltb_spec x (width g - 1)); [now left | lia].
    + right; right; left. destruct (Z.gtb_spec y 0); [now left | lia].
    + right; right; right.
      destruct (Z.ltb_spec y (height g - 1)); [now left | lia].
Qed.

(** X7. The cardinal neighbours of a cell are exactly the cells of the grid
    one step away in a row or a column; so a cell is a cardinal neighbour of
    another exactly when the other is one of its own, there are at most 4 of
    them, and a cell is never its own neighbour. *)
Theorem cardinalNeighbours_spec g c n :
  grid_wf g -> in_grid g c ->
  (In n (_cardinalNeighbours g c) <->
   in_grid g n /\
   Z.abs (fst (_xy g c) - fst (_xy g n))
   + Z.abs (snd (_xy g c) - snd (_xy g n)) = 1) /\
  (in_grid g n ->
   (In n (_cardinalNeighbours g c) <-> In c (_cardinalNeighbours g n))) /\
  (length (_cardinalNeighbours g c) <= 4)%nat /\
  ~ In c (_cardinalNeighbours g c).
Proof.
  intros Wf Hc. split; [now apply cardinalNeighbours_iff|]. split; [|split].
  - intros Hn. rewrite !cardinalNeighbours_iff by auto.
    split; intros [_ H]; split; auto; lia.
  - unfold _cardinalNeighbours. destruct (_xy g c) as [x y].
    rewrite !length_app.
    destruct (x >? 0), (x <? width g - 1), (y >? 0), (y <? height g - 1);
      cbn [length]; lia.
  - rewrite cardinalNeighbours_iff by auto. intros [_ H]. lia.
Qed.

Lemma cardinalNeighbours_spec_witness :
  let g := new_WFCGrid 3 3 in
  (In 1 (_cardinalNeighbours g 4) <->
   in_grid g 1 /\
   Z.abs (fst (_xy g 4) - fst (_xy g 1))
   + Z.abs (snd (_xy g 4) - snd (_xy g 1)) = 1) /\
  (in_grid g 1 ->
   (In 1 (_cardinalNeighbours g 4) <-> In 4 (_cardinalNeighbours g 1))) /\
  (length (_cardinalNeighbours g 4) <= 4)%nat /\
  ~ In 4 (_cardinalNeighbours g 4).
Proof.
  intros g. apply (cardinalNeighbours_spec g 4 1).
  - apply new_WFCGrid_wf; lia.
  - vm_compute; split; discriminate || reflexivity.
Defined.

Lemma allNeighbours_iff g c n :
  grid_wf g -> in_grid g c ->
  (In n (_allNeighbours g c) <->
   in_grid g n /\
   Z.max (Z.abs (fst (_xy g c) - fst (_xy g n)))
         (Z.abs (snd (_xy g c) - snd (_xy g n))) = 1).
Proof.
  intros Wf Hc. pose proof Wf as (Hw & Hh & Hs & _). split.
  - intros Hin. split; [eapply allNeighbours_spec; eauto|].
    pose proof (xy_in_grid g c Wf Hc) as H.
    unfold _allNeighbours in Hin. destruct (_xy g c) as [x y].
    destruct H as (Hx & Hy & E). cbn [fst snd].
    rewrite from_to_m1_1 in Hin.
    apply in_flat_map in Hin as (dy & Hdy & Hin).
    apply in_flat_map in Hin as (dx & Hdx & Hin).
    destruct ((dx =? 0) && (dy =? 0)) eqn:E0; [destruct Hin|].
    destruct ((x + dx >=? 0) && (x + dx <? width g) && (y + dy >=? 0)
              && (y + dy <? height g)) eqn:E1; [|destruct Hin].
    destruct Hin as [<-|[]].
    rewrite !andb_true_iff in E1. rewrite andb_false_iff, !Z.eqb_neq in E0.
    destruct E1 as [[[A B] C] D].
    apply Z.geb_le in A, C. apply Z.ltb_lt in B, D.
    rewrite xy_idx by lia. cbn [fst snd]. cbn [In] in Hdx, Hdy. lia.
  - intros [Hn Hd].
    pose proof (xy_in_grid g c Wf Hc) as H.
    pose proof (xy_in_grid g n Wf Hn) as H'.
    unfold _allNeighbours. destruct (_xy g c) as [x y].
    destruct (_xy g n) as [x' y']. cbn [fst snd] in Hd.
    destruct H as (Hx & Hy & E). destruct H' as (Hx' & Hy' & E').
    rewrite from_to_m1_1.
    apply in_flat_map. exists (y' - y). split; [cbn [In]; lia|].
    apply in_flat_map. exists (x' - x). split; [cbn [In]; lia|].
    destruct ((x' - x =? 0) && (y' - y =? 0)) eqn:E0.
    { apply andb_true_iff in E0 as [A B]. apply Z.eqb_eq in A, B. lia. }
    replace (x + (x' - x)) with x' by lia. replace (y + (y' - y)) with y' by lia.
    destruct (Z.geb_spec x' 0); [|lia]. destruct (Z.ltb_spec x' (width g)); [|lia].
    destruct (Z.geb_spec y' 0); [|lia]. destruct (Z.ltb_spec y' (height g)); [|lia].
    cbn [andb]. left. unfold _idx. lia.
Qed.

Lemma allNeighbours_length g c :
  grid_wf g -> in_grid g c ->
  (length (_allNeighbours g c) <= 8)%nat /\
  (length (_allNeighbours g c) = 8%nat <->
   at_edge g (fst (_xy g c)) (snd (_xy g c)) = false).
Proof.
  intros Wf Hc. pose proof (xy_in_grid g c Wf Hc) as H.
  unfold _allNeighbours, at_edge. destruct (_xy g c) as [x y].
  destruct H as (Hx & Hy & E). cbn [fst snd].
  rewrite from_to_m1_1. cbn [flat_map Z.eqb andb app].
  replace (x + 0) with x by lia. replace (y + 0) with y by lia.
  replace (x + -1) with (x - 1) by lia. replace (y + -1) with (y - 1) by lia.
  destruct (Z.geb_spec x 0); [|lia]. destruct (Z.ltb_spec x (width g)); [|lia].
  destruct (Z.geb_spec y 0); [|lia]. destruct (Z.ltb_spec y (height g)); [|lia].
  destruct (Z.eqb_spec x 0), (Z.eqb_spec y 0), (Z.eqb_spec x (width g - 1)),
    (Z.eqb_spec y (height g - 1));
    destruct (Z.geb_spec (x - 1) 0); try lia;
    destruct (Z.ltb_spec (x - 1) (width g)); try lia;
    destruct (Z.geb_spec (x + 1) 0); try lia;
    destruct (Z.ltb_spec (x + 1) (width g)); try lia;
    destruct (Z.geb_spec (y - 1) 0); try lia;
    destruct (Z.ltb_spec (y - 1) (height g)); try lia;
    destruct (Z.geb_spec (y + 1) 0); try lia;
    destruct (Z.ltb_spec (y + 1) (height g)); try lia;
    cbn [andb orb app length]; (split; [lia | split; intros; (discriminate || lia || reflexivity)]).
Qed.

(** X8. The 8-neighbourhood of a cell consists exactly of the cells of the
    grid at distance 1 in the maximum norm; the relation is symmetric, and
    every cardinal neighbour is among them. *)
Theorem allNeighbours_characterised g c n :
  grid_wf g -> in_grid g c ->
  (In n (_allNeighbours g c) <->
   in_grid g n /\
   Z.max (Z.abs (fst (_xy g c) - fst (_xy g n)))
         (Z.abs (snd (_xy g c) - snd (_xy g n))) = 1) /\
  (in_grid g n -> (In n (_allNeighbours g c) <-> In c (_allNeighbours g n))) /\
  (In n (_cardinalNeighbours g c) -> In n (_allNeighbours g c)).
Proof.
  intros Wf Hc. split; [now apply allNeighbours_iff|]. split.
  - intros Hn. rewrite !allNeighbours_iff by auto.
    split; intros [_ H]; split; auto; lia.
  - rewrite allNeighbours_iff, cardinalNeighbours_iff by auto.
    intros [Hn H]; split; auto; lia.
Qed.

Lemma allNeighbours_characterised_witness :
  let g := new_WFCGrid 3 3 in
  (In 0 (_allNeighbours g 4) <->
   in_grid g 0 /\
   Z.max (Z.abs (fst (_xy g 4) - fst (_xy g 0)))
         (Z.abs (snd (_xy g 4) - snd (_xy g 0))) = 1) /\
  (in_grid g 0 -> (In 0 (_allNeighbours g 4) <-> In 4 (_allNeighbours g 0))) /\
  (In 0 (_cardinalNeighbours g 4) -> In 0 (_allNeighbours g 4)).
Proof.
  intros g. apply (allNeighbours_characterised g 4 0).
  - apply new_WFCGrid_wf; lia.
  - vm_compute; split; discriminate || reflexivity.
Defined.

(** X9. A cell has at most 8 neighbours in [_allNeighbours], and exactly 8
    precisely when it is not on the edge of the grid: the cells from which
    [reset] and [_enforceHouseConstraints] remove the house tiles are those
    with fewer than 8 neighbours. *)
Theorem eight_neighbours_iff_interior g c :
  grid_wf g -> in_grid g c ->
  (length (_allNeighbours g c) <= 8)%nat /\
  (length (_allNeighbours g c) = 8%nat <->
   at_edge g (fst (_xy g c)) (snd (_xy g c)) = false).
Proof. apply allNeighbours_length. Qed.

Lemma eight_neighbours_iff_interior_witness :
  let g := new_WFCGrid 3 3 in
  (length (_allNeighbours g 4) <= 8)%nat /\
  (length (_allNeighbours g 4) = 8%nat <->
   at_edge g (fst (_xy g 4)) (snd (_xy g 4)) = false).
Proof.
  intros g. apply (eight_neighbours_iff_interior g 4).
  - apply new_WFCGrid_wf; lia.
  - vm_compute; split; discriminate || reflexivity.
Defined.

(** ** The house rule removes all house tiles or none *)

Lemma has_clear_house_fold (keep : bool) l :
  (forall t, In t l -> is_tile t) ->
  forall w u, length w = 3%nat -> is_tile u ->
  has (fold_left
         (fun w t =>
            if negb (has w t) then w
            else if negb (is_house t) then w
            else if keep then w else bitsClear w t)
         l w) u
  = if keep then has w u
    else has w u && negb (is_house u && existsb (Z.eqb u) l).
Proof.
  induction l as [|t l IH]; intros Hl w u Hw Hu; cbn [fold_left existsb].
  - destruct keep; [reflexivity|]. now rewrite andb_false_r, andb_true_r.
  - assert (Ht : is_tile t) by (apply Hl; now left).
    assert (Hl' : forall t', In t' l -> is_tile t') by (intros; apply Hl; now right).
    destruct keep.
    + rewrite <- (IH Hl' w u Hw Hu). do 2 f_equal.
      destruct (negb (has w t)), (negb (is_house t)); reflexivity.
    + destruct (has w t) eqn:Hwt; cbn [negb].
      * destruct (is_house t) eqn:Hht; cbn [negb].
        -- rewrite (IH Hl' (bitsClear w t) u) by (rewrite ?length_bitsClear; auto).
           unfold is_tile, N_TILES in Ht, Hu.
           rewrite has_bitsClear by (auto; lia).
           rewrite (Z.eqb_sym u t).
           destruct (Z.eqb_spec t u) as [->|]; cbn [negb andb orb].
           ++ rewrite Hht. cbn [andb negb]. now rewrite andb_false_r.
           ++ reflexivity.
        -- rewrite (IH Hl' w u Hw Hu).
           destruct (Z.eqb_spec u t) as [->|]; cbn [orb]; [|reflexivity].
           rewrite Hht. cbn [andb negb]. now rewrite andb_true_r.
      * rewrite (IH Hl' w u Hw Hu).
        destruct (Z.eqb_spec u t) as [->|]; cbn [orb]; [|reflexivity].
        rewrite Hwt. reflexivity.
Qed.

Lemma enforce_as_fold g idx w :
  _enforceHouseConstraints g idx w =
  fold_left
    (fun w t =>
       if negb (has w t) then w
       else if negb (is_house t) then w
       else if negb (at_edge g (fst (_xy g idx)) (snd (_xy g idx)))
               && foundUniform g idx
            then w else bitsClear w t)
    (range N_TILES) w.
Proof.
  unfold _enforceHouseConstraints. destruct (_xy g idx) as [x y]. cbn [fst snd].
  generalize (range N_TILES) as l. intros l; revert w.
  induction l as [|t l IH]; intros w; cbn [fold_left]; [reflexivity|].
  rewrite IH. f_equal.
  destruct (negb (has w t)), (negb (is_house t)), (at_edge g x y),
    (foundUniform g idx); reflexivity.
Qed.

Lemma has_enforce g idx w u :
  length w = 3%nat -> is_tile u ->
  has (_enforceHouseConstraints g idx w) u
  = if negb (at_edge g (fst (_xy g idx)) (snd (_xy g idx))) && foundUniform g idx
    then has w u else has w u && negb (is_house u).
Proof.
  intros Hw Hu. rewrite enforce_as_fold.
  rewrite has_clear_house_fold; auto.
  - destruct (negb _ && _); [reflexivity|].
    assert (E : existsb (Z.eqb u) (range N_TILES) = true).
    { apply existsb_exists. exists u. split; [now apply in_range | apply Z.eqb_refl]. }
    now rewrite E, andb_true_r.
  - intros t Ht. now apply in_range.
Qed.

(** X10. [_enforceHouseConstraints] is all or nothing: on a cell that is not
    on the edge and for which some terrain among sea, ground and mountain is
    still possible at all of its neighbours, the bit set keeps every member;
    otherwise it keeps exactly its members that are not house tiles. The
    elevation of a house tile plays no part. *)
Theorem enforceHouseConstraints_all_or_nothing g idx w u :
  length w = 3%nat -> is_tile u ->
  has (_enforceHouseConstraints g idx w) u
  = if negb (at_edge g (fst (_xy g idx)) (snd (_xy g idx))) && foundUniform g idx
    then has w u else has w u && negb (is_house u).
Proof. apply has_enforce. Qed.

Lemma enforceHouseConstraints_all_or_nothing_witness :
  let g := new_WFCGrid 3 3 in
  has (_enforceHouseConstraints g 0 bitsAll) 12
  = if negb (at_edge g (fst (_xy g 0)) (snd (_xy g 0))) && foundUniform g 0
    then has bitsAll 12 else has bitsAll 12 && negb (is_house 12).
Proof.
  intros g. apply (enforceHouseConstraints_all_or_nothing g 0 bitsAll 12);
    [reflexivity | unfold is_tile, N_TILES; lia].
Defined.

(** ** Steps of the passes, case by case *)

Lemma install_reads g n w :
  grid_wf g -> in_grid g n -> collapsed_at g n = -1 -> bits_wf w ->
  width (install g n w) = width g /\ height (install g n w) = height g /\
  size (install g n w) = size g /\
  (forall c, 0 <= c ->
             wave_at (install g n w) c = if c =? n then w else wave_at g c) /\
  (forall c, 0 <= c -> c <> n ->
             collapsed_at (install g n w) c = collapsed_at g c).
Proof.
  intros Wf Hn Hc Hw.
  destruct (install_shape g n w Hw Hc) as (tn & _ & Ew & Eh & Es & Ewave & Ecol).
  destruct Wf as (_ & _ & _ & Lw & Lc & _).
  do 3 (split; [auto|]). split.
  - intros c Hc0. unfold wave_at; rewrite Ewave.
    destruct (Z.eqb_spec c n) as [->|Hne];
      [apply arr_get_set_eq; unfold in_grid in Hn; lia
      | apply arr_get_set_neq; auto].
  - intros c Hc0 Hne. unfold collapsed_at; rewrite Ecol.
    apply arr_get_set_neq; auto.
Qed.

Lemma neighbours_same_dims g g' c :
  width g' = width g -> height g' = height g ->
  _cardinalNeighbours g' c = _cardinalNeighbours g c /\
  _allNeighbours g' c = _allNeighbours g c.
Proof.
  intros Ew Eh. unfold _cardinalNeighbours, _allNeighbours, _xy, _idx.
  now rewrite Ew, Eh.
Qed.

Lemma cardinal_step_cases current st n :
  p_ok st -> in_grid (p_grid st) n ->
  let w := _enforceHouseConstraints (p_grid st) n (narrowed (p_grid st) current n) in
  (cardinal_step current st n = st /\
   (collapsed_at (p_grid st) n <> -1 \/ wave_at (p_grid st) n = w))
  \/ (collapsed_at (p_grid st) n = -1 /\
      bits_wf w /\ bits_sub w (wave_at (p_grid st) n) /\
      bitsCount w < bitsCount (wave_at (p_grid st) n) /\
      cardinal_step current st n
      = mkP (install (p_grid st) n w) (n :: p_stack st) (set_add (p_changed st) n)).
Proof.
  intros Hok Hn. pose proof Hok as [Wf _]. rewrite cardinal_step_eq.
  destruct (Z.eqb_spec (collapsed_at (p_grid st) n) (-1)) as [Hc|Hc]; cbn [negb];
    [|left; auto].
  destruct (narrowed_shrinks (p_grid st) current n) as [W1 S1].
  destruct (enforceHouseConstraints_shrinks (p_grid st) n _ W1) as [W2 S2].
  assert (W0 : bits_wf (wave_at (p_grid st) n)) by now apply Wf.
  set (nw := _enforceHouseConstraints _ _ _) in *. clearbody nw. cbv zeta.
  destruct (bitsEqual _ nw) eqn:E; cbn [negb].
  - left. split; auto. right. apply bitsEqual_iff; auto.
    destruct W0 as [-> _], W2 as [-> _]; reflexivity.
  - right. assert (Hs : bits_sub nw (wave_at (p_grid st) n))
      by (eapply bits_sub_trans; eauto).
    split; [exact Hc|]. split; [exact W2|]. split; [exact Hs|].
    split; [now apply bitsEqual_false_lt | reflexivity].
Qed.

Lemma house_step_cases st n :
  p_ok st -> in_grid (p_grid st) n ->
  let w := _enforceHouseConstraints (p_grid st) n (wave_at (p_grid st) n) in
  (house_step st n = st /\
   (collapsed_at (p_grid st) n <> -1 \/ wave_at (p_grid st) n = w))
  \/ (collapsed_at (p_grid st) n = -1 /\
      bits_wf w /\ bits_sub w (wave_at (p_grid st) n) /\
      bitsCount w < bitsCount (wave_at (p_grid st) n) /\
      house_step st n
      = mkP (install (p_grid st) n w) (n :: p_stack st) (set_add (p_changed st) n)).
Proof.
  intros Hok Hn. pose proof Hok as [Wf _]. rewrite house_step_eq by auto.
  destruct (Z.eqb_spec (collapsed_at (p_grid st) n) (-1)) as [Hc|Hc]; cbn [negb];
    [|left; auto].
  assert (W0 : bits_wf (wave_at (p_grid st) n)) by now apply Wf.
  destruct (enforceHouseConstraints_shrinks (p_grid st) n _ W0) as [W2 S2].
  set (nw := _enforceHouseConstraints _ _ _) in *. clearbody nw. cbv zeta.
  destruct (bitsEqual _ nw) eqn:E; cbn [negb].
  - apply bitsEqual_iff in E;
      [|destruct W0 as [-> _], W2 as [-> _]; reflexivity].
    left. split; auto. rewrite <- E, set_wave_same. now destruct st.
  - right. split; [exact Hc|]. split; [exact W2|]. split; [exact S2|].
    split; [now apply bitsEqual_false_lt | reflexivity].
Qed.

Lemma cardinal_step_stepped current st n :
  p_ok st -> in_grid (p_grid st) n -> stepped st (cardinal_step current st n) n.
Proof.
  intros Hok Hn.
  destruct (cardinal_step_cases current st n Hok Hn)
    as [[E _]|(Hc & W & S & L & E)]; [now left|].
  right. split; auto. eexists. split; [exact W|]. split; [exact S|].
  split; [exact L | exact E].
Qed.

Lemma house_step_stepped st n :
  p_ok st -> in_grid (p_grid st) n -> stepped st (house_step st n) n.
Proof.
  intros Hok Hn.
  destruct (house_step_cases st n Hok Hn) as [[E _]|(Hc & W & S & L & E)];
    [now left|].
  right. split; auto. eexists. split; [exact W|]. split; [exact S|].
  split; [exact L | exact E].
Qed.

Lemma stepped_p_step st st' n :
  p_ok st -> in_grid (p_grid st) n -> stepped st st' n -> p_step st st'.
Proof.
  intros Hok Hn [->|(Hc & w & W & S & L & ->)]; [now apply p_step_refl|].
  destruct Hok as [Wf Hst].
  destruct (install_spec (p_grid st) n w Wf Hn Hc W S) as (Wf' & Ev & Et).
  pose proof Ev as (_ & _ & Es & _).
  split; [split|split]; cbn [p_grid p_stack p_changed]; auto.
  - constructor; [unfold in_grid in *; lia|].
    eapply Forall_impl; [|apply Hst]. unfold in_grid; intros; lia.
  - unfold pmeasure; cbn [p_grid p_stack p_changed length].
    rewrite Nat2Z.inj_succ. lia.
Qed.

(** A property kept by every step on the cells of [l] is kept by a pass
    over [l]. *)
Lemma fold_stepped (f : pstate -> Z -> pstate) (Q : pstate -> Prop) l sz :
  (forall st n, p_ok st -> in_grid (p_grid st) n -> stepped st (f st n) n) ->
  (forall st st' n, In n l -> p_ok st -> in_grid (p_grid st) n ->
                    stepped st st' n -> Q st -> Q st') ->
  (forall n, In n l -> 0 <= n < sz) ->
  forall st, p_ok st -> size (p_grid st) = sz -> Q st ->
             Q (fold_left f l st) /\ p_step st (fold_left f l st).
Proof.
  intros Hf. induction l as [|n l IH]; intros HQ Hl st Hok Hsz Hq; cbn [fold_left].
  - split; [auto | now apply p_step_refl].
  - assert (Hn : in_grid (p_grid st) n).
    { unfold in_grid; rewrite Hsz; apply Hl; now left. }
    pose proof (Hf st n Hok Hn) as Hs.
    pose proof (stepped_p_step st _ n Hok Hn Hs) as P1.
    pose proof P1 as (Hok1 & (_ & _ & Es & _) & _).
    destruct (IH (fun st st' m Hm => HQ st st' m (or_intror Hm))
                 (fun m Hm => Hl m (or_intror Hm))
                 (f st n) Hok1 ltac:(congruence)
                 (HQ st _ n (or_introl eq_refl) Hok Hn Hs Hq)) as [Q2 P2].
    split; [exact Q2 | eapply p_step_trans; eauto].
Qed.

(** A property of the loop state kept by every iteration holds when the
    loop returns. *)
Lemma propagate_loop_inv (J : pstate -> Prop) :
  (forall g c stack ch,
      p_ok (mkP g (c :: stack) ch) -> J (mkP g (c :: stack) ch) ->
      J (propagate_iter c (mkP g stack ch))) ->
  forall fuel st st',
    p_ok st -> J st -> propagate_loop fuel st = Some st' -> J st'.
Proof.
  intros Hiter fuel; induction fuel as [|fuel IH]; intros st st' Hok Hj E.
  - destruct st as [g [|c stack] ch]; cbn [propagate_loop p_stack] in E;
      [injection E as <-; auto | discriminate].
  - destruct st as [g [|c stack] ch]; cbn [propagate_loop p_stack p_grid p_changed] in E;
      [injection E as <-; auto|].
    pose proof Hok as [Wf Hst]; cbn [p_stack p_grid] in *.
    inversion Hst as [|? ? Hc Hst']; subst.
    assert (Hok0 : p_ok (mkP g stack ch)) by (split; auto).
    eapply IH; [| |exact E].
    + apply (propagate_iter_ok c _ Hok0 Hc).
    + now apply Hiter.
Qed.

(** ** The set returned by [_propagate] *)

Lemma in_set_add s x c : In c (set_add s x) <-> c = x \/ In c s.
Proof.
  unfold set_add. destruct (existsb (Z.eqb x) s) eqn:E.
  - split; [auto|]. intros [->|H]; auto.
    apply existsb_exists in E as (y & Hy & ->%Z.eqb_eq). exact Hy.
  - rewrite in_app_iff; cbn [In]. intuition.
Qed.

Lemma NoDup_set_add s x : NoDup s -> NoDup (set_add s x).
Proof.
  intros H. unfold set_add. destruct (existsb (Z.eqb x) s) eqn:E; auto.
  apply NoDup_app; [auto | repeat constructor; intros [] |].
  intros a Ha [->|[]].
  assert (existsb (Z.eqb a) s = true)
    by (apply existsb_exists; exists a; split; [auto | apply Z.eqb_refl]).
  congruence.
Qed.

Lemma fold_set_add_spec l :
  forall s, NoDup s ->
            NoDup (fold_left set_add l s) /\
            forall c, In c (fold_left set_add l s) <-> In c l \/ In c s.
Proof.
  induction l as [|x l IH]; intros s Hs; cbn [fold_left].
  - split; auto. intros c; cbn [In]; tauto.
  - destruct (IH (set_add s x) (NoDup_set_add s x Hs)) as [N H].
    split; auto. intros c. rewrite H, in_set_add; cbn [In]. intuition.
Qed.

Lemma wave_differs_iff g g' c :
  grid_wf g -> grid_wf g' -> evolves g g' -> in_grid g c ->
  (bitsCount (wave_at g' c) < bitsCount (wave_at g c)
   <-> wave_at g' c <> wave_at g c).
Proof.
  intros Wf Wf' (_ & _ & Es & M & _) Hc. split.
  - intros Hlt E. rewrite E in Hlt. lia.
  - intros Hne.
    assert (W : bits_wf (wave_at g c)) by now apply Wf.
    assert (W' : bits_wf (wave_at g' c)).
    { apply Wf'. unfold in_grid in *; lia. }
    apply bitsEqual_false_lt; auto.
    destruct (bitsEqual (wave_at g c) (wave_at g' c)) eqn:E; auto.
    apply bitsEqual_iff in E; [congruence|].
    destruct W as [-> _], W' as [-> _]; reflexivity.
Qed.

Lemma changed_stepped g0 seeds st st' n :
  p_ok st -> in_grid (p_grid st) n -> stepped st st' n ->
  (evolves g0 (p_grid st) /\ NoDup (p_changed st) /\
   forall c, In c (p_changed st) <->
             In c seeds \/
             (in_grid g0 c /\
              bitsCount (wave_at (p_grid st) c) < bitsCount (wave_at g0 c))) ->
  (evolves g0 (p_grid st') /\ NoDup (p_changed st') /\
   forall c, In c (p_changed st') <->
             In c seeds \/
             (in_grid g0 c /\
              bitsCount (wave_at (p_grid st') c) < bitsCount (wave_at g0 c))).
Proof.
  intros Hok Hn [->|(Hc & w & W & S & L & ->)] (Ev & Nd & H); [auto|].
  destruct Hok as [Wf _].
  destruct (install_spec (p_grid st) n w Wf Hn Hc W S) as (_ & Ev' & _).
  destruct (install_reads (p_grid st) n w Wf Hn Hc W) as (_ & _ & _ & Rw & _).
  cbn [p_grid p_changed].
  split; [eapply evolves_trans; eauto|]. split; [now apply NoDup_set_add|].
  pose proof Ev as (_ & _ & Es & M & _).
  assert (Hn0 : in_grid g0 n) by (unfold in_grid in *; lia).
  intros c. rewrite in_set_add, H.
  destruct (Z.eq_dec c n) as [->|Hne].
  - rewrite Rw, Z.eqb_refl by (unfold in_grid in Hn; lia).
    pose proof (bitsCount_sub _ _ (M n Hn0)). split; [|auto].
    intros _. right. split; auto. lia.
  - split.
    + intros [?|[?|[Hg Hlt]]]; [contradiction | auto |].
      right. split; auto. rewrite Rw by (unfold in_grid in Hg; lia).
      destruct (Z.eqb_spec c n); [contradiction | auto].
    + intros [?|[Hg Hlt]]; [auto|]. right; right. split; auto.
      rewrite Rw in Hlt by (unfold in_grid in Hg; lia).
      destruct (Z.eqb_spec c n); [contradiction | auto].
Qed.

(** X11. [_propagate] returns a set without repetition that contains the
    seeds and, besides them, exactly the cells of the grid whose bit set is
    not the one they had before the call. *)
Theorem propagate_changed_exact g seeds :
  grid_wf g -> Forall (in_grid g) seeds ->
  exists g' changed,
    _propagate g seeds = Some (g', changed) /\
    NoDup changed /\
    forall c, In c changed <->
              In c seeds \/ (in_grid g c /\ wave_at g' c <> wave_at g c).
Proof.
  intros Wf Hs.
  destruct (propagate_total g seeds Wf Hs) as (g' & ch & E & Wf' & Ev).
  exists g', ch. split; [exact E|].
  unfold _propagate in E.
  destruct (propagate_loop _ _) as [st'|] eqn:El; [|discriminate].
  injection E as <- <-.
  assert (Hok : p_ok (mkP g (rev seeds) (fold_left set_add seeds []))).
  { split; cbn [p_grid p_stack]; auto. now apply Forall_rev. }
  pose proof (fold_set_add_spec seeds [] (NoDup_nil Z)) as [Nd0 In0].
  set (J := fun st : pstate =>
          evolves g (p_grid st) /\ NoDup (p_changed st) /\
          forall c, In c (p_changed st) <->
                    In c seeds \/
                    (in_grid g c /\
                     bitsCount (wave_at (p_grid st) c) < bitsCount (wave_at g c))).
  assert (HQ : forall l (st st1 : pstate) (n : Z),
             In n l -> p_ok st -> in_grid (p_grid st) n ->
             stepped st st1 n -> J st -> J st1).
  { intros l st st1 n _ Ho Hn Hst Hq.
    exact (changed_stepped g seeds st st1 n Ho Hn Hst Hq). }
  assert (Hiter : forall g1 c stack ch1,
             p_ok (mkP g1 (c :: stack) ch1) -> J (mkP g1 (c :: stack) ch1) ->
             J (propagate_iter c (mkP g1 stack ch1))).
  { intros g1 c stack ch1 Hok1 Hj.
    destruct Hok1 as [Wf1 Hst1]; cbn [p_grid p_stack] in *.
    inversion Hst1 as [|? ? Hc Hst1']; subst.
    assert (Hok0 : p_ok (mkP g1 stack ch1)) by (split; auto).
    unfold propagate_iter.
    destruct (fold_stepped (cardinal_step c) J
                (_cardinalNeighbours (p_grid (mkP g1 stack ch1)) c) (size g1)
                (cardinal_step_stepped c) (HQ _))
      with (st := mkP g1 stack ch1) as [Q1 P1]; auto.
    { intros n Hn. eapply cardinalNeighbours_in_grid; eauto. }
    destruct P1 as (Hok1 & (_ & _ & Es1 & _) & _).
    set (st1 := fold_left _ _ (mkP g1 stack ch1)) in *.
    destruct (fold_stepped house_step J
                (_allNeighbours (p_grid st1) c) (size (p_grid st1))
                house_step_stepped (HQ _))
      with (st := st1) as [Q2 _]; auto.
    intros n Hn. apply allNeighbours_spec in Hn; [apply Hn | apply Hok1 |].
    cbn [p_grid] in Es1. unfold in_grid in *; lia. }
  assert (J0 : J (mkP g (rev seeds) (fold_left set_add seeds []))).
  { unfold J; cbn [p_grid p_changed].
    split; [apply evolves_refl|]. split; [exact Nd0|].
    intros c. rewrite In0; cbn [In]. split; [intros [?|[]]; auto|].
    intros [?|[_ Hlt]]; [auto | lia]. }
  destruct (propagate_loop_inv J Hiter _ _ st' Hok J0 El) as (_ & Nd & H).
  split; [exact Nd|]. intros c. rewrite H.
  split; (intros [?|[Hg Hd]]; [auto|right; split; auto]);
    now apply (wave_differs_iff g (p_grid st') c Wf Wf' Ev Hg).
Qed.

Lemma propagate_changed_exact_witness :
  let g := snd (fst (_collapseCell (fun _ => 0%Q) 0%nat (new_WFCGrid 3 3) 4)) in
  exists g' changed,
    _propagate g [4] = Some (g', changed) /\
    NoDup changed /\
    forall c, In c changed <->
              In c [4] \/ (in_grid g c /\ wave_at g' c <> wave_at g c).
Proof.
  intros g. apply (propagate_changed_exact g [4]).
  - apply collapseCell_wf;
      [apply new_WFCGrid_wf; lia
      | vm_compute; split; discriminate || reflexivity
      | reflexivity].
  - constructor; [vm_compute; split; discriminate || reflexivity | constructor].
Defined.

(** ** Propagation restores arc consistency *)

Lemma fold_set_cond (c : Z -> bool) l :
  (forall t, In t l -> is_tile t) ->
  forall w0, bits_wf w0 ->
  forall u, is_tile u ->
    has (fold_left (fun nw t => if c t then bitsSet nw t else nw) l w0) u = true ->
    has w0 u = true \/ (In u l /\ c u = true).
Proof.
  induction l as [|t l IH]; cbn [fold_left]; intros Hl w0 Hw u Hu Hh; [auto|].
  assert (Ht : is_tile t) by (apply Hl; now left).
  assert (W1 : bits_wf (if c t then bitsSet w0 t else w0)).
  { destruct (c t); auto. unfold is_tile, N_TILES in Ht.
    apply bits_wf_bitsSet; auto; lia. }
  destruct (IH (fun t' Ht' => Hl t' (or_intror Ht')) _ W1 u Hu Hh) as [H|[H1 H2]].
  - destruct (c t) eqn:Ec; auto.
    unfold is_tile, N_TILES in Ht, Hu. destruct Hw as (Hlen & _).
    rewrite has_bitsSet in H by (auto; lia).
    apply orb_true_iff in H as [H|H]; auto. apply Z.eqb_eq in H; subst.
    right; split; [now left | auto].
  - right; split; [now right | auto].
Qed.

Lemma narrowed_supported g current n t :
  is_tile t -> has (narrowed g current n) t = true ->
  exists s, is_tile s /\ has (wave_at g current) s = true /\
            cardinalCompatible (tile_at s) (tile_at t) = true.
Proof.
  intros Ht Hh. unfold narrowed in Hh.
  apply (fold_set_cond
           (fun nTile => existsb (fun cTile => allowed_has cTile nTile)
                                 (bitsForEach (wave_at g current)))) in Hh; auto.
  - destruct Hh as [Hh|[_ Hh]].
    + rewrite has_bitsNew in Hh; [discriminate | unfold is_tile in Ht; lia].
    + apply existsb_exists in Hh as (s & Hs & Ha).
      apply in_bitsForEach in Hs as [Hs1 Hs2].
      exists s. split; [exact Hs1|]. split; [exact Hs2|].
      now rewrite <- allowed_has_compatible.
  - intros u Hu. now apply in_bitsForEach in Hu.
  - apply bits_wf_bitsNew.
Qed.

Lemma cardinalNeighbours_not_self g c :
  grid_wf g -> in_grid g c -> ~ In c (_cardinalNeighbours g c).
Proof. intros Wf Hc. rewrite cardinalNeighbours_iff by auto. intros [_ H]. lia. Qed.

Lemma arc_stepped st st' n c :
  p_ok st -> in_grid (p_grid st) n -> stepped st st' n ->
  in_grid (p_grid st) c -> c <> n ->
  arc_consistent_at (p_grid st) c -> arc_consistent_at (p_grid st') c.
Proof.
  intros [Wf _] Hn [->|(Hc & w & W & S & L & ->)] Hcg Hne Ha; [auto|].
  destruct (install_reads (p_grid st) n w Wf Hn Hc W) as (Ew & Eh & _ & Rw & Rc).
  cbn [p_grid]. intros m Hm Hcm t Ht Hh.
  rewrite (proj1 (neighbours_same_dims (p_grid st) _ c Ew Eh)) in Hm.
  pose proof (cardinalNeighbours_in_grid _ _ _ Wf Hcg Hm) as Hmg.
  assert (Hw : wave_at (install (p_grid st) n w) c = wave_at (p_grid st) c).
  { rewrite Rw by (unfold in_grid in Hcg; lia).
    destruct (Z.eqb_spec c n); [contradiction | auto]. }
  rewrite Hw. rewrite Rw in Hh by (unfold in_grid in Hmg; lia).
  destruct (Z.eqb_spec m n) as [->|Hmn].
  - apply (Ha n Hm Hc t Ht). now apply S.
  - rewrite Rc in Hcm by (auto; unfold in_grid in Hmg; lia).
    now apply (Ha m Hm Hcm t Ht).
Qed.

Lemma supported_stepped st st' m current n :
  p_ok st -> in_grid (p_grid st) m -> stepped st st' m ->
  in_grid (p_grid st) current -> in_grid (p_grid st) n -> m <> current ->
  (collapsed_at (p_grid st) n = -1 -> supported (p_grid st) current n) ->
  collapsed_at (p_grid st') n = -1 -> supported (p_grid st') current n.
Proof.
  intros [Wf _] Hm [->|(Hc & w & W & S & L & ->)] Hcg Hng Hne Hs; [auto|].
  destruct (install_reads (p_grid st) m w Wf Hm Hc W) as (_ & _ & _ & Rw & Rc).
  cbn [p_grid]. intros Hcn t Ht Hh.
  assert (Hw : wave_at (install (p_grid st) m w) current
               = wave_at (p_grid st) current).
  { rewrite Rw by (unfold in_grid in Hcg; lia).
    destruct (Z.eqb_spec current m); [congruence | auto]. }
  rewrite Hw. rewrite Rw in Hh by (unfold in_grid in Hng; lia).
  destruct (Z.eqb_spec n m) as [->|Hnm].
  - apply (Hs Hc t Ht). now apply S.
  - rewrite Rc in Hcn by (auto; unfold in_grid in Hng; lia).
    now apply (Hs Hcn t Ht).
Qed.

Lemma cardinal_step_supports current st n :
  p_ok st -> in_grid (p_grid st) n -> in_grid (p_grid st) current ->
  n <> current ->
  collapsed_at (p_grid (cardinal_step current st n)) n = -1 ->
  supported (p_grid (cardinal_step current st n)) current n.
Proof.
  intros Hok Hn Hcg Hne. pose proof Hok as [Wf _].
  assert (W0 : bits_wf (narrowed (p_grid st) current n))
    by apply narrowed_shrinks.
  destruct (enforceHouseConstraints_shrinks (p_grid st) n _ W0) as [_ S2].
  destruct (cardinal_step_cases current st n Hok Hn)
    as [[-> [Hc|Ew]]|(Hc & W & S & L & ->)].
  - intros; contradiction.
  - intros _ t Ht Hh. rewrite Ew in Hh.
    apply (narrowed_supported (p_grid st) current n t Ht). now apply S2.
  - cbn [p_grid].
    destruct (install_reads (p_grid st) n _ Wf Hn Hc W) as (_ & _ & _ & Rw & _).
    intros _ t Ht Hh.
    rewrite Rw, Z.eqb_refl in Hh by (unfold in_grid in Hn; lia).
    rewrite Rw by (unfold in_grid in Hcg; lia).
    destruct (Z.eqb_spec current n); [congruence|].
    apply (narrowed_supported (p_grid st) current n t Ht). now apply S2.
Qed.

Lemma cardinal_pass_supports current sz :
  forall l st,
    p_ok st -> size (p_grid st) = sz -> 0 <= current < sz ->
    (forall n, In n l -> 0 <= n < sz /\ n <> current) ->
    forall n, In n l ->
      collapsed_at (p_grid (fold_left (cardinal_step current) l st)) n = -1 ->
      supported (p_grid (fold_left (cardinal_step current) l st)) current n.
Proof.
  induction l as [|n0 l IH]; intros st Hok Hsz Hc Hl n Hn; [destruct Hn|].
  cbn [fold_left].
  assert (Hn0 : in_grid (p_grid st) n0).
  { unfold in_grid; rewrite Hsz. apply Hl; now left. }
  assert (Hcg : in_grid (p_grid st) current) by (unfold in_grid; lia).
  pose proof (cardinal_step_stepped current st n0 Hok Hn0) as Hs.
  pose proof (stepped_p_step st _ n0 Hok Hn0 Hs) as (Hok1 & (_ & _ & Es & _) & _).
  assert (Esz1 : size (p_grid (cardinal_step current st n0)) = sz)
    by (rewrite Es; exact Hsz).
  destruct Hn as [<-|Hn].
  - assert (S0 := cardinal_step_supports current st n0 Hok Hn0 Hcg
                    (proj2 (Hl n0 (or_introl eq_refl)))).
    refine (proj2 (proj1 (fold_stepped (cardinal_step current)
              (fun s => size (p_grid s) = sz /\
                        (collapsed_at (p_grid s) n0 = -1 ->
                         supported (p_grid s) current n0))
              l sz (cardinal_step_stepped current) _ _
              (cardinal_step current st n0) Hok1 Esz1 (conj Esz1 S0)))).
    + intros s s' m Hm Ho Hmg Hst [Esz Hq].
      pose proof (stepped_p_step s s' m Ho Hmg Hst) as (_ & (_ & _ & Es' & _) & _).
      split; [congruence|].
      apply (supported_stepped s s' m current n0 Ho Hmg Hst); auto.
      * unfold in_grid. lia.
      * unfold in_grid. destruct (Hl n0 (or_introl eq_refl)). lia.
      * apply (Hl m (or_intror Hm)).
    + intros m Hm. apply (Hl m (or_intror Hm)).
  - apply IH; auto. intros m Hm. apply Hl; now right.
Qed.

Lemma pending_or_arc_stepped sz (R : Z -> Prop) st st' m :
  p_ok st -> in_grid (p_grid st) m -> stepped st st' m ->
  (size (p_grid st) = sz /\
   forall c, 0 <= c < sz -> R c ->
             In c (p_stack st) \/ arc_consistent_at (p_grid st) c) ->
  size (p_grid st') = sz /\
  forall c, 0 <= c < sz -> R c ->
            In c (p_stack st') \/ arc_consistent_at (p_grid st') c.
Proof.
  intros Hok Hm Hst [Esz H].
  pose proof (stepped_p_step st st' m Hok Hm Hst) as (_ & (_ & _ & Es' & _) & _).
  split; [congruence|]. intros c Hc Hr.
  destruct (H c Hc Hr) as [Hin|Ha].
  - left. destruct Hst as [->|(_ & w & _ & _ & _ & ->)]; [auto | now right].
  - destruct (Z.eq_dec c m) as [->|Hne].
    + destruct Hst as [->|(_ & w & _ & _ & _ & ->)]; [now right | left; now left].
    + right. apply (arc_stepped st st' m c Hok Hm Hst); auto.
      unfold in_grid; lia.
Qed.

Lemma propagate_iter_arc current st0 sz (R : Z -> Prop) :
  p_ok st0 -> size (p_grid st0) = sz -> 0 <= current < sz ->
  (forall c, 0 <= c < sz -> R c ->
             c = current \/ In c (p_stack st0)
             \/ arc_consistent_at (p_grid st0) c) ->
  size (p_grid (propagate_iter current st0)) = sz /\
  forall c, 0 <= c < sz -> R c ->
            In c (p_stack (propagate_iter current st0))
            \/ arc_consistent_at (p_grid (propagate_iter current st0)) c.
Proof.
  intros Hok Hsz Hc H0. pose proof Hok as [Wf _].
  assert (Hcg : in_grid (p_grid st0) current) by (unfold in_grid; lia).
  set (l := _cardinalNeighbours (p_grid st0) current).
  assert (Hl : forall n, In n l -> 0 <= n < sz /\ n <> current).
  { intros n Hn. split.
    - rewrite <- Hsz. eapply cardinalNeighbours_in_grid; eauto.
    - intros ->. now apply (cardinalNeighbours_not_self (p_grid st0) current). }
  unfold propagate_iter. fold l.
  set (st1 := fold_left (cardinal_step current) l st0).
  (* the cardinal pass *)
  destruct (fold_stepped (cardinal_step current)
              (fun s => size (p_grid s) = sz /\
                        forall c, 0 <= c < sz -> R c /\ c <> current ->
                                  In c (p_stack s)
                                  \/ arc_consistent_at (p_grid s) c)
              l sz (cardinal_step_stepped current))
    with (st := st0) as [[Esz1 Q1] P1]; auto.
  { intros s s' m _ Ho Hm Hst Hq.
    exact (pending_or_arc_stepped sz (fun c => R c /\ c <> current)
                                  s s' m Ho Hm Hst Hq). }
  { intros n Hn. apply Hl, Hn. }
  { split; auto. intros c Hcr [Hr Hne].
    destruct (H0 c Hcr Hr) as [?|?]; [contradiction | auto]. }
  fold st1 in Esz1, Q1, P1.
  pose proof P1 as (Hok1 & (Ew1 & Eh1 & _) & _).
  assert (S1 : forall n, In n l -> collapsed_at (p_grid st1) n = -1 ->
                         supported (p_grid st1) current n).
  { intros n Hn. now apply (cardinal_pass_supports current sz l st0). }
  (* the pass over the 8 neighbours *)
  set (l8 := _allNeighbours (p_grid st1) current).
  assert (Hl8 : forall n, In n l8 -> 0 <= n < sz /\ n <> current).
  { intros n Hn. apply allNeighbours_spec in Hn; [| apply Hok1 |].
    - unfold in_grid in Hn. rewrite Esz1 in Hn. exact Hn.
    - unfold in_grid. lia. }
  destruct (fold_stepped house_step
              (fun s => (size (p_grid s) = sz /\
                         forall c, 0 <= c < sz -> R c /\ c <> current ->
                                   In c (p_stack s)
                                   \/ arc_consistent_at (p_grid s) c) /\
                        (width (p_grid s) = width (p_grid st0) /\
                         height (p_grid s) = height (p_grid st0)) /\
                        forall n, In n l -> collapsed_at (p_grid s) n = -1 ->
                                  supported (p_grid s) current n)
              l8 sz house_step_stepped)
    with (st := st1) as [[[Esz2 Q2] [[Ew2 Eh2] S2]] _]; auto.
  { intros s s' m Hm8 Ho Hm Hst [Hq [[Ew Eh] Hs]].
    pose proof (stepped_p_step s s' m Ho Hm Hst) as (_ & (Ew' & Eh' & _) & _).
    split; [|split; [split; congruence|]].
    - exact (pending_or_arc_stepped sz (fun c => R c /\ c <> current)
                                    s s' m Ho Hm Hst Hq).
    - intros n Hn. destruct Hq as [Esz _].
      apply (supported_stepped s s' m current n Ho Hm Hst).
      + unfold in_grid; lia.
      + unfold in_grid. destruct (Hl n Hn). lia.
      + apply (Hl8 m Hm8).
      + now apply Hs. }
  { intros n Hn. apply Hl8, Hn. }
  split; [exact Esz2|]. intros c Hcr Hr.
  destruct (Z.eq_dec c current) as [->|Hne]; [|now apply Q2].
  right. intros n Hn.
  rewrite (proj1 (neighbours_same_dims (p_grid st0) _ current Ew2 Eh2)) in Hn.
  now apply S2.
Qed.

Lemma propagate_arc g seeds :
  grid_wf g -> Forall (in_grid g) seeds ->
  exists g' changed,
    _propagate g seeds = Some (g', changed) /\
    forall c, in_grid g c -> (In c seeds \/ arc_consistent_at g c) ->
              arc_consistent_at g' c.
Proof.
  intros Wf Hs.
  destruct (propagate_total g seeds Wf Hs) as (g' & ch & E & Wf' & Ev).
  exists g', ch. split; [exact E|].
  unfold _propagate in E.
  destruct (propagate_loop _ _) as [st'|] eqn:El; [|discriminate].
  injection E as <- <-.
  assert (Hok : p_ok (mkP g (rev seeds) (fold_left set_add seeds []))).
  { split; cbn [p_grid p_stack]; auto. now apply Forall_rev. }
  set (R := fun c => In c seeds \/ arc_consistent_at g c).
  set (J := fun st : pstate =>
          size (p_grid st) = size g /\
          forall c, 0 <= c < size g -> R c ->
                    In c (p_stack st) \/ arc_consistent_at (p_grid st) c).
  assert (Hiter : forall g1 c stack ch1,
             p_ok (mkP g1 (c :: stack) ch1) -> J (mkP g1 (c :: stack) ch1) ->
             J (propagate_iter c (mkP g1 stack ch1))).
  { intros g1 c stack ch1 [Wf1 Hst1] [Esz Hj]; cbn [p_grid p_stack] in *.
    inversion Hst1 as [|? ? Hc Hst1']; subst.
    apply (propagate_iter_arc c (mkP g1 stack ch1) (size g) R).
    - split; auto.
    - exact Esz.
    - unfold in_grid in Hc. lia.
    - intros c' Hc' Hr. destruct (Hj c' Hc' Hr) as [[->|Hin]|Ha]; auto. }
  assert (J0 : J (mkP g (rev seeds) (fold_left set_add seeds []))).
  { split; [reflexivity|]. cbn [p_grid p_stack]. intros c Hc [Hin|Ha]; auto.
    left. now apply in_rev in Hin. }
  destruct (propagate_loop_inv J Hiter _ _ st' Hok J0 El) as [_ H].
  destruct (propagate_loop_total (propagate_fuel g seeds) _ Hok) as (st2 & E2 & _ & Emp).
  { unfold pmeasure, propagate_fuel; cbn [p_stack p_grid]. rewrite length_rev.
    pose proof (total_entropy_nonneg g). lia. }
  rewrite El in E2; injection E2 as <-.
  intros c Hc Hr. destruct (H c Hc Hr) as [Hin|Ha]; [|exact Ha].
  rewrite Emp in Hin. destruct Hin.
Qed.

(** X12. [_propagate] restores arc consistency: it returns, and in the grid
    afterwards every cell that was a seed, or that supported its cardinal
    neighbours before the call, supports them: for each cardinal neighbour
    still in superposition, every option of the neighbour is compatible with
    some option of the cell ([cardinalCompatible] from the cell's option to
    the neighbour's). *)
Theorem propagate_restores_arc_consistency g seeds :
  grid_wf g -> Forall (in_grid g) seeds ->
  exists g' changed,
    _propagate g seeds = Some (g', changed) /\
    forall c, in_grid g c -> (In c seeds \/ arc_consistent_at g c) ->
              arc_consistent_at g' c.
Proof. apply propagate_arc. Qed.

Lemma propagate_restores_arc_consistency_witness :
  let g := snd (fst (_collapseCell (fun _ => 0%Q) 0%nat (new_WFCGrid 3 3) 4)) in
  exists g' changed,
    _propagate g [4] = Some (g', changed) /\
    forall c, in_grid g c -> (In c [4] \/ arc_consistent_at g c) ->
              arc_consistent_at g' c.
Proof.
  intros g. apply (propagate_restores_arc_consistency g [4]).
  - apply collapseCell_wf;
      [apply new_WFCGrid_wf; lia
      | vm_compute; split; discriminate || reflexivity
      | reflexivity].
  - constructor; [vm_compute; split; discriminate || reflexivity | constructor].
Defined.

(** ** Propagation restores the house rule *)

Lemma forallb_ext_in {A} (f h : A -> bool) l :
  (forall x, In x l -> f x = h x) -> forallb f l = forallb h l.
Proof.
  induction l as [|a l IH]; intros H; cbn [forallb]; [reflexivity|].
  rewrite (H a (or_introl eq_refl)), IH; auto. intros x Hx; apply H; now right.
Qed.

Lemma foundUniform_install g m w n :
  grid_wf g -> in_grid g m -> collapsed_at g m = -1 -> bits_wf w ->
  in_grid g n -> ~ In m (_allNeighbours g n) ->
  foundUniform (install g m w) n = foundUniform g n.
Proof.
  intros Wf Hm Hc W Hn Hnot.
  destruct (install_reads g m w Wf Hm Hc W) as (Ew & Eh & _ & Rw & Rc).
  unfold foundUniform.
  rewrite (proj2 (neighbours_same_dims g _ n Ew Eh)).
  assert (E : forall terr,
             forallb (neighbour_matches (install g m w) terr) (_allNeighbours g n)
             = forallb (neighbour_matches g terr) (_allNeighbours g n)).
  { intros terr. apply forallb_ext_in. intros x Hx.
    assert (Hxm : x <> m) by (intros ->; contradiction).
    pose proof (proj1 (allNeighbours_spec g n x Wf Hn Hx)) as Hxg.
    unfold neighbour_matches.
    rewrite Rc by (auto; unfold in_grid in Hxg; lia).
    rewrite Rw by (unfold in_grid in Hxg; lia).
    destruct (Z.eqb_spec x m); [contradiction | reflexivity]. }
  cbn [existsb]. now rewrite !E.
Qed.

Lemma allNeighbours_sym g c n :
  grid_wf g -> in_grid g c -> in_grid g n ->
  In n (_allNeighbours g c) -> In c (_allNeighbours g n).
Proof.
  intros Wf Hc Hn. rewrite !allNeighbours_iff by auto.
  intros [_ H]. split; auto. lia.
Qed.

Lemma house_consistent_stepped g0 st st' m n :
  p_ok st -> evolves g0 (p_grid st) -> in_grid (p_grid st) m ->
  stepped st st' m -> in_grid (p_grid st) n ->
  pending_or_house g0 st n -> pending_or_house g0 st' n.
Proof.
  intros [Wf _] Ev0 Hm [->|(Hc & w & W & S & L & ->)] Hn H; [auto|].
  destruct H as [(m0 & H1 & H2)|Hh].
  { left. exists m0. split; auto. now right. }
  pose proof Ev0 as (Ew0 & Eh0 & _).
  destruct (in_dec Z.eq_dec m (_allNeighbours g0 n)) as [Hin|Hnot].
  { left. exists m. split; auto. now left. }
  right. cbn [p_grid].
  destruct (install_reads (p_grid st) m w Wf Hm Hc W) as (Ew & Eh & _ & Rw & Rc).
  rewrite <- (proj2 (neighbours_same_dims g0 _ n Ew0 Eh0)) in Hnot.
  intros Hcn t Ht Hht Hhas.
  rewrite (foundUniform_install (p_grid st) m w n) by auto.
  unfold at_edge, _xy. rewrite Ew, Eh.
  rewrite Rw in Hhas by (unfold in_grid in Hn; lia).
  destruct (Z.eqb_spec n m) as [->|Hne].
  - apply (Hh Hc t Ht Hht). now apply S.
  - rewrite Rc in Hcn by (auto; unfold in_grid in Hn; lia).
    now apply (Hh Hcn t Ht Hht).
Qed.

Lemma house_step_establishes st n :
  p_ok st -> in_grid (p_grid st) n ->
  house_consistent_at (p_grid (house_step st n)) n.
Proof.
  intros Hok Hn. pose proof Hok as [Wf _].
  assert (W0 : bits_wf (wave_at (p_grid st) n)) by now apply Wf.
  assert (Hkeep : forall t, is_tile t -> is_house t = true ->
            has (_enforceHouseConstraints (p_grid st) n (wave_at (p_grid st) n)) t
            = true ->
            at_edge (p_grid st) (fst (_xy (p_grid st) n)) (snd (_xy (p_grid st) n))
            = false /\ foundUniform (p_grid st) n = true).
  { intros t Ht Hht Hh. rewrite has_enforce in Hh by (auto; apply W0).
    destruct (at_edge _ _ _), (foundUniform _ _); cbn [negb andb] in Hh; auto;
      rewrite Hht in Hh; cbn [negb] in Hh; rewrite andb_false_r in Hh;
      discriminate. }
  destruct (house_step_cases st n Hok Hn) as [[-> [Hc|Ew]]|(Hc & W & S & L & ->)].
  - intros Hc'; contradiction.
  - intros _ t Ht Hht Hh. rewrite Ew in Hh. now apply (Hkeep t).
  - cbn [p_grid].
    destruct (install_reads (p_grid st) n _ Wf Hn Hc W) as (Ew & Eh & _ & Rw & _).
    intros _ t Ht Hht Hh.
    rewrite Rw, Z.eqb_refl in Hh by (unfold in_grid in Hn; lia).
    rewrite (foundUniform_install (p_grid st) n _ n) by
        (auto; now apply allNeighbours_not_self).
    unfold at_edge, _xy. rewrite Ew, Eh. now apply (Hkeep t).
Qed.

Lemma house_pass_establishes g0 :
  grid_wf g0 ->
  forall l st,
    p_ok st -> evolves g0 (p_grid st) ->
    (forall n, In n l -> in_grid g0 n) ->
    forall n, In n l -> pending_or_house g0 (fold_left house_step l st) n.
Proof.
  intros Wf0. induction l as [|n0 l IH]; intros st Hok Ev Hl n Hn; [destruct Hn|].
  cbn [fold_left].
  pose proof Ev as (_ & _ & Es & _).
  assert (Hn0 : in_grid (p_grid st) n0).
  { unfold in_grid; rewrite Es. apply Hl; now left. }
  pose proof (house_step_stepped st n0 Hok Hn0) as Hs.
  pose proof (stepped_p_step st _ n0 Hok Hn0 Hs) as (Hok1 & Ev1 & _).
  assert (Ev01 : evolves g0 (p_grid (house_step st n0)))
    by (eapply evolves_trans; eauto).
  destruct Hn as [<-|Hn].
  - refine (proj2 (proj1 (fold_stepped house_step
              (fun s => evolves g0 (p_grid s) /\ pending_or_house g0 s n0)
              l (size g0) house_step_stepped _ _
              (house_step st n0) Hok1 (proj1 (proj2 (proj2 Ev01)))
              (conj Ev01 (or_intror (house_step_establishes st n0 Hok Hn0)))))).
    + intros s s' m Hm Ho Hmg Hst [Evs Hq].
      pose proof (stepped_p_step s s' m Ho Hmg Hst) as (_ & Evs' & _).
      split; [eapply evolves_trans; eauto|].
      apply (house_consistent_stepped g0 s s' m n0 Ho Evs Hmg Hst); auto.
      destruct Evs as (_ & _ & Ess & _). unfold in_grid. rewrite Ess.
      apply (Hl n0); now left.
    + intros m Hm. apply (Hl m); now right.
  - apply IH; auto. intros m Hm. apply Hl; now right.
Qed.

Lemma propagate_iter_house g0 current st0 (R : Z -> Prop) :
  grid_wf g0 -> p_ok st0 -> evolves g0 (p_grid st0) -> in_grid g0 current ->
  (forall n, in_grid g0 n -> R n ->
             In n (_allNeighbours g0 current) \/ pending_or_house g0 st0 n) ->
  evolves g0 (p_grid (propagate_iter current st0)) /\
  forall n, in_grid g0 n -> R n ->
            pending_or_house g0 (propagate_iter current st0) n.
Proof.
  intros Wf0 Hok Ev0 Hc H0. pose proof Hok as [Wf _].
  pose proof Ev0 as (Ew0 & Eh0 & Es0 & _).
  assert (Hcg : in_grid (p_grid st0) current) by (unfold in_grid in *; lia).
  assert (HQ : forall l (s s' : pstate) (m : Z),
             In m l -> p_ok s -> in_grid (p_grid s) m -> stepped s s' m ->
             (evolves g0 (p_grid s) /\
              forall n, in_grid g0 n ->
                        R n /\ ~ In n (_allNeighbours g0 current) ->
                        pending_or_house g0 s n) ->
             evolves g0 (p_grid s') /\
             forall n, in_grid g0 n ->
                       R n /\ ~ In n (_allNeighbours g0 current) ->
                       pending_or_house g0 s' n).
  { intros l s s' m _ Ho Hmg Hst [Evs Hq].
    pose proof (stepped_p_step s s' m Ho Hmg Hst) as (_ & Evs' & _).
    split; [eapply evolves_trans; eauto|]. intros n Hn Hr.
    apply (house_consistent_stepped g0 s s' m n Ho Evs Hmg Hst); auto.
    destruct Evs as (_ & _ & Ess & _). unfold in_grid in *. lia. }
  unfold propagate_iter.
  destruct (fold_stepped (cardinal_step current) _
              (_cardinalNeighbours (p_grid st0) current) (size g0)
              (cardinal_step_stepped current) (HQ _))
    with (st := st0) as [[Ev1 Q1] P1]; auto.
  { intros n Hn. rewrite <- Es0. eapply cardinalNeighbours_in_grid; eauto. }
  { split; auto. intros n Hn [Hr Hnot].
    destruct (H0 n Hn Hr); [contradiction | auto]. }
  set (st1 := fold_left (cardinal_step current) _ st0) in *.
  pose proof P1 as (Hok1 & _).
  pose proof Ev1 as (Ew1 & Eh1 & Es1 & _).
  assert (El8 : _allNeighbours (p_grid st1) current = _allNeighbours g0 current)
    by apply (neighbours_same_dims g0 _ current Ew1 Eh1).
  rewrite El8.
  assert (Hl8 : forall n, In n (_allNeighbours g0 current) -> in_grid g0 n).
  { intros n Hn. now apply (allNeighbours_spec g0 current n Wf0 Hc). }
  destruct (fold_stepped house_step _
              (_allNeighbours g0 current) (size g0)
              house_step_stepped (HQ _))
    with (st := st1) as [[Ev2 Q2] _]; auto.
  split; [exact Ev2|]. intros n Hn Hr.
  destruct (in_dec Z.eq_dec n (_allNeighbours g0 current)) as [Hin|Hnot].
  - now apply (house_pass_establishes g0 Wf0 _ st1 Hok1 Ev1 Hl8).
  - now apply Q2.
Qed.

Lemma propagate_house g seeds :
  grid_wf g -> Forall (in_grid g) seeds ->
  exists g' changed,
    _propagate g seeds = Some (g', changed) /\
    forall n, in_grid g n ->
              ((exists m, In m (_allNeighbours g n) /\ In m seeds)
               \/ house_consistent_at g n) ->
              house_consistent_at g' n.
Proof.
  intros Wf Hs.
  destruct (propagate_total g seeds Wf Hs) as (g' & ch & E & Wf' & Ev).
  exists g', ch. split; [exact E|].
  unfold _propagate in E.
  destruct (propagate_loop _ _) as [st'|] eqn:El; [|discriminate].
  injection E as <- <-.
  assert (Hok : p_ok (mkP g (rev seeds) (fold_left set_add seeds []))).
  { split; cbn [p_grid p_stack]; auto. now apply Forall_rev. }
  set (R := fun n => (exists m, In m (_allNeighbours g n) /\ In m seeds)
                     \/ house_consistent_at g n).
  set (J := fun st : pstate =>
          evolves g (p_grid st) /\
          forall n, in_grid g n -> R n -> pending_or_house g st n).
  assert (Hiter : forall g1 c stack ch1,
             p_ok (mkP g1 (c :: stack) ch1) -> J (mkP g1 (c :: stack) ch1) ->
             J (propagate_iter c (mkP g1 stack ch1))).
  { intros g1 c stack ch1 [Wf1 Hst1] [Ev1 Hj]; cbn [p_grid p_stack] in *.
    inversion Hst1 as [|? ? Hc Hst1']; subst.
    assert (Hcg : in_grid g c).
    { destruct Ev1 as (_ & _ & Es & _). unfold in_grid in *; lia. }
    apply (propagate_iter_house g c (mkP g1 stack ch1) R); auto.
    - split; auto.
    - intros n Hn Hr. destruct (Hj n Hn Hr) as [(m & Hm1 & [<-|Hm2])|Hh].
      + left. now apply (allNeighbours_sym g n c).
      + right; left. exists m; auto.
      + right; right. exact Hh. }
  assert (J0 : J (mkP g (rev seeds) (fold_left set_add seeds []))).
  { split; [apply evolves_refl|]. intros n Hn [(m & H1 & H2)|Hh].
    - left. exists m. split; auto. cbn [p_stack]. now apply in_rev in H2.
    - right. exact Hh. }
  destruct (propagate_loop_inv J Hiter _ _ st' Hok J0 El) as [_ H].
  destruct (propagate_loop_total (propagate_fuel g seeds) _ Hok) as (st2 & E2 & _ & Emp).
  { unfold pmeasure, propagate_fuel; cbn [p_stack p_grid]. rewrite length_rev.
    pose proof (total_entropy_nonneg g). lia. }
  rewrite El in E2; injection E2 as <-.
  intros n Hn Hr. destruct (H n Hn Hr) as [(m & _ & Hin)|Hh]; [|exact Hh].
  rewrite Emp in Hin. destruct Hin.
Qed.

(** X13. [_propagate] restores the house rule: it returns, and in the grid
    afterwards every cell that had a seed among its 8 neighbours, or that was
    house consistent before the call, is house consistent: if it is in
    superposition and still holds a house tile, it is not on the edge and
    some terrain among sea, ground and mountain is still possible at all of
    its 8 neighbours. *)
Theorem propagate_restores_house_rule g seeds :
  grid_wf g -> Forall (in_grid g) seeds ->
  exists g' changed,
    _propagate g seeds = Some (g', changed) /\
    forall n, in_grid g n ->
              ((exists m, In m (_allNeighbours g n) /\ In m seeds)
               \/ house_consistent_at g n) ->
              house_consistent_at g' n.
Proof. apply propagate_house. Qed.

Lemma propagate_restores_house_rule_witness :
  let g := snd (fst (_collapseCell (fun _ => 0%Q) 0%nat (new_WFCGrid 5 5) 12)) in
  exists g' changed,
    _propagate g [12] = Some (g', changed) /\
    forall n, in_grid g n ->
              ((exists m, In m (_allNeighbours g n) /\ In m [12])
               \/ house_consistent_at g n) ->
              house_consistent_at g' n.
Proof.
  intros g. apply (propagate_restores_house_rule g [12]).
  - apply collapseCell_wf;
      [apply new_WFCGrid_wf; lia
      | vm_compute; split; discriminate || reflexivity
      | reflexivity].
  - constructor; [vm_compute; split; discriminate || reflexivity | constructor].
Defined.

(** ** The yields of a run *)

Lemma run_loop_shape rand (Hr : unit_draws rand) fuel :
  forall k g tr,
    grid_wf g -> run_loop fuel rand k g = Some tr -> run_shape g tr.
Proof.
  induction fuel as [|fuel IH]; intros k g tr Wf E; [discriminate|].
  cbn [run_loop] in E.
  destruct (pickLowestEntropy_cases rand k g (proj1 (Hr k)) (proj2 (Hr k)))
    as [[Ep (i & Hi & Hz)]|[[Ep Hu]|(next & Ep & Hin & Hnz)]]; rewrite Ep in E.
  - cbn in E. injection E as <-. now apply (shape_contradiction g i).
  - cbn in E. injection E as <-. now apply shape_done.
  - pose proof Hin as Hin'. apply in_lowest_entropy_cells in Hin' as [Hu _].
    pose proof (Hnz next Hu) as Hne. apply bitsForEach_nonempty in Hne.
    apply in_uncollapsed_cells in Hu as [Hn Hc].
    destruct (Z.eqb_spec next (-2)); [unfold in_grid in Hn; lia|].
    destruct (Z.eqb_spec next (-1)); [unfold in_grid in Hn; lia|].
    destruct (collapseCell_nonempty rand (S k) g next Hne) as (chosen & Hch & Ec).
    rewrite Ec in E. cbn [negb] in E.
    destruct (collapsed_grid_ok g next chosen Wf Hn Hc Hch) as (Wf1 & Ev1 & Ecol & _).
    set (g1 := add_dirty _ _) in *.
    destruct (propagate_total g1 [next] Wf1) as (g2 & ch & Epr & Wf2 & Ev2).
    { constructor; auto. }
    rewrite Epr in E.
    destruct (run_loop fuel rand (S (S k)) g2) as [rest|] eqn:Er; [|discriminate].
    injection E as <-. rewrite Ecol.
    eapply shape_step; eauto.
Qed.

Lemma run_shape_of_run rand g startIdx tr :
  unit_draws rand -> grid_wf g -> in_grid g startIdx ->
  collapsed_at g startIdx = -1 -> run rand g startIdx = Some tr ->
  (tr = [(Contradiction startIdx, g)] /\ bitsForEach (wave_at g startIdx) = [])
  \/ exists chosen g1 g2 changed rest,
       In chosen (bitsForEach (wave_at g startIdx)) /\
       g1 = add_dirty (set_collapsed (set_wave g startIdx (singleton chosen))
                                     startIdx chosen) startIdx /\
       grid_wf g1 /\ evolves g g1 /\ collapsed_at g1 startIdx = chosen /\
       _propagate g1 [startIdx] = Some (g2, changed) /\
       grid_wf g2 /\ evolves g1 g2 /\
       run_shape g2 rest /\
       tr = (Collapse startIdx chosen, g1) :: (Propagate changed, g2) :: rest.
Proof.
  intros Hr Wf Hn Hc E. unfold run, run_from in E.
  destruct (bitsForEach (wave_at g startIdx)) as [|t l] eqn:Eo.
  - rewrite collapseCell_empty in E by auto. cbn [negb] in E.
    injection E as <-. now left.
  - right.
    destruct (collapseCell_nonempty rand 0%nat g startIdx) as (chosen & Hch & Ec).
    { rewrite Eo; discriminate. }
    rewrite Ec in E. cbn [negb] in E. rewrite Eo in Hch.
    assert (Hch' : In chosen (bitsForEach (wave_at g startIdx))) by now rewrite Eo.
    destruct (collapsed_grid_ok g startIdx chosen Wf Hn Hc Hch')
      as (Wf1 & Ev1 & Ecol & _).
    set (g1 := add_dirty _ _) in *.
    destruct (propagate_total g1 [startIdx] Wf1) as (g2 & ch & Epr & Wf2 & Ev2).
    { constructor; auto. }
    rewrite Epr in E.
    destruct (run_loop _ rand 1%nat g2) as [rest|] eqn:Er; [|discriminate].
    injection E as <-. rewrite Ecol.
    exists chosen, g1, g2, ch, rest.
    repeat (split; [solve [auto]|]). split; [|reflexivity].
    eapply run_loop_shape; eauto.
Qed.

Lemma final_cons (p : event * WFCGrid) tr : tr <> [] -> final (p :: tr) = final tr.
Proof.
  intros Hne. unfold final. cbn [rev].
  destruct (rev tr) as [|q r] eqn:E; [|reflexivity].
  apply (f_equal (@rev _)) in E. rewrite rev_involutive in E. contradiction.
Qed.

Lemma run_shape_nonempty g tr : run_shape g tr -> tr <> [].
Proof. intros H; inversion H; discriminate. Qed.

Lemma run_shape_step_wf g next chosen g1 g2 changed :
  grid_wf g -> In next (lowest_entropy_cells g) ->
  In chosen (bitsForEach (wave_at g next)) ->
  g1 = add_dirty (set_collapsed (set_wave g next (singleton chosen))
                                next chosen) next ->
  _propagate g1 [next] = Some (g2, changed) ->
  in_grid g next /\ collapsed_at g next = -1 /\
  grid_wf g1 /\ evolves g g1 /\ collapsed_at g1 next = chosen /\
  grid_wf g2 /\ evolves g1 g2.
Proof.
  intros Wf Hin Hch -> Ep.
  apply in_lowest_entropy_cells in Hin as [Hu _].
  apply in_uncollapsed_cells in Hu as [Hn Hc].
  destruct (collapsed_grid_ok g next chosen Wf Hn Hc Hch) as (Wf1 & Ev1 & Ecol & _).
  destruct (propagate_total _ [next] Wf1) as (g2' & ch & Epr & Wf2 & Ev2).
  { constructor; auto. }
  rewrite Ep in Epr. injection Epr as <- <-.
  repeat (split; [solve [auto]|]). exact Ev2.
Qed.

Lemma totalCollapsed_count g :
  0 <= size g ->
  totalCollapsed g + Z.of_nat (length (uncollapsed_cells g)) = size g.
Proof.
  intros Hs. unfold totalCollapsed, uncollapsed_cells. rewrite fold_count.
  pose proof (List.filter_length (fun i => collapsed_at g i =? -1) (range (size g))) as H.
  rewrite length_range in H. cbv beta in H. lia.
Qed.

Lemma run_shape_done g tr :
  run_shape g tr -> grid_wf g ->
  forall g', final tr = Some (Done, g') ->
             grid_wf g' /\ evolves g g' /\ uncollapsed_cells g' = [].
Proof.
  induction 1 as [g Hu|g i Hi Hz|g next chosen g1 g2 ch rest Hin Hnz Hch Eg Ep Hs IH];
    intros Wf g' Hf.
  - injection Hf as <-. auto using evolves_refl.
  - discriminate.
  - destruct (run_shape_step_wf g next chosen g1 g2 ch Wf Hin Hch Eg Ep)
      as (_ & _ & Wf1 & Ev1 & _ & Wf2 & Ev2).
    pose proof (run_shape_nonempty _ _ Hs) as Hne.
    rewrite !final_cons in Hf by (auto; discriminate).
    destruct (IH Wf2 g' Hf) as (W & E & U).
    split; auto. split; auto.
    eapply evolves_trans; [exact Ev1|]. eapply evolves_trans; eauto.
Qed.

(** X14. When a run started on a cell in superposition ends with Done,
    every cell of the final grid is collapsed: [totalCollapsed] is the
    number of cells, and on every cell [isCollapsed] is true, [getEntropy] is
    1 and [getTile] is a tile of the catalogue. *)
Theorem done_means_all_collapsed rand g startIdx :
  unit_draws rand -> grid_wf g -> in_grid g startIdx ->
  collapsed_at g startIdx = -1 ->
  exists tr,
    run rand g startIdx = Some tr /\
    forall g', final tr = Some (Done, g') ->
      totalCollapsed g' = size g /\
      forall c, in_grid g c ->
        isCollapsed g' c = true /\ getEntropy g' c = 1 /\
        exists t, is_tile t /\ getTile g' c = Some (tile_at t).
Proof.
  intros Hr Wf Hn Hc.
  destruct (run_total rand g startIdx Hr Wf Hn Hc) as (tr & E & _ & _).
  exists tr. split; [exact E|]. intros g' Hf.
  assert (H : grid_wf g' /\ evolves g g' /\ uncollapsed_cells g' = []).
  { destruct (run_shape_of_run rand g startIdx tr Hr Wf Hn Hc E)
      as [[-> _]|(chosen & g1 & g2 & ch & rest & _ & _ & Wf1 & Ev1 & _ & _
                  & Wf2 & Ev2 & Hs & ->)].
    - discriminate.
    - pose proof (run_shape_nonempty _ _ Hs) as Hne.
      rewrite !final_cons in Hf by (auto; discriminate).
      destruct (run_shape_done g2 rest Hs Wf2 g' Hf) as (W & Ev & U).
      split; auto. split; auto.
      eapply evolves_trans; [exact Ev1|]. eapply evolves_trans; eauto. }
  destruct H as (Wf' & Ev & U). pose proof Ev as (_ & _ & Es & _).
  assert (Hsz : 0 <= size g').
  { destruct Wf' as (A & B & C & _). rewrite C. nia. }
  split.
  - pose proof (totalCollapsed_count g' Hsz) as H. rewrite U in H.
    cbn [length] in H. lia.
  - intros c Hcg.
    assert (Hcg' : in_grid g' c) by (unfold in_grid in *; lia).
    assert (Hcol : collapsed_at g' c <> -1).
    { intros Heq. assert (In c (uncollapsed_cells g'))
        by now apply in_uncollapsed_cells.
      rewrite U in H. destruct H. }
    destruct Wf' as (_ & _ & _ & _ & _ & _ & Wc).
    destruct (Wc c Hcg' Hcol) as [Ht Ew].
    split; [|split].
    + unfold isCollapsed. now apply negb_true_iff, Z.eqb_neq.
    + now apply (getEntropy_singleton g' c (collapsed_at g' c)).
    + exists (collapsed_at g' c). split; auto. unfold getTile.
      destruct (Z.eqb_spec (collapsed_at g' c) (-1)); [contradiction | reflexivity].
Qed.

Lemma done_means_all_collapsed_witness :
  exists tr,
    run (fun _ => 0%Q) (new_WFCGrid 2 2) 0 = Some tr /\
    forall g', final tr = Some (Done, g') ->
      totalCollapsed g' = size (new_WFCGrid 2 2) /\
      forall c, in_grid (new_WFCGrid 2 2) c ->
        isCollapsed g' c = true /\ getEntropy g' c = 1 /\
        exists t, is_tile t /\ getTile g' c = Some (tile_at t).
Proof.
  apply (done_means_all_collapsed (fun _ => 0%Q) (new_WFCGrid 2 2) 0).
  - exact unit_draws_zero.
  - apply new_WFCGrid_wf; lia.
  - vm_compute; split; discriminate || reflexivity.
  - reflexivity.
Defined.

Lemma run_shape_contradiction g tr :
  run_shape g tr -> grid_wf g ->
  forall i g', In (Contradiction i, g') tr ->
    i = -1 /\ final tr = Some (Contradiction (-1), g') /\
    exists c, in_grid g c /\ collapsed_at g' c = -1 /\ getEntropy g' c = 0.
Proof.
  induction 1 as [g Hu|g i0 Hi Hz|g next chosen g1 g2 ch rest Hin Hnz Hch Eg Ep Hs IH];
    intros Wf i g' Hc.
  - destruct Hc as [[=]|[]].
  - destruct Hc as [[= <- <-]|[]]. split; auto. split; auto.
    apply in_uncollapsed_cells in Hi as [Hi1 Hi2].
    exists i0. rewrite getEntropy_eq. auto.
  - destruct (run_shape_step_wf g next chosen g1 g2 ch Wf Hin Hch Eg Ep)
      as (_ & _ & Wf1 & Ev1 & _ & Wf2 & Ev2).
    destruct Hc as [[=]|[[=]|Hc]].
    destruct (IH Wf2 i g' Hc) as (Ei & Ef & c & Hcg & H1 & H2).
    split; auto. split.
    + pose proof (run_shape_nonempty _ _ Hs).
      rewrite !final_cons by (auto; discriminate). exact Ef.
    + exists c. split; auto.
      destruct Ev1 as (_ & _ & E1 & _), Ev2 as (_ & _ & E2 & _).
      unfold in_grid in *; lia.
Qed.

(** X15. A Contradiction event of a run carries a cell index only when it is
    the first and only event, for the start cell whose bit set was empty,
    with the grid untouched. Any other Contradiction carries -1, is the last
    event, and then some cell in superposition of that grid has entropy 0:
    the main loop never reports a contradiction from [_collapseCell]. *)
Theorem contradiction_events rand g startIdx :
  unit_draws rand -> grid_wf g -> in_grid g startIdx ->
  collapsed_at g startIdx = -1 ->
  exists tr,
    run rand g startIdx = Some tr /\
    forall i g', In (Contradiction i, g') tr ->
      (i = startIdx /\ tr = [(Contradiction startIdx, g)] /\
       getEntropy g startIdx = 0)
      \/ (i = -1 /\ final tr = Some (Contradiction (-1), g') /\
          exists c, in_grid g c /\ collapsed_at g' c = -1 /\ getEntropy g' c = 0).
Proof.
  intros Hr Wf Hn Hc.
  destruct (run_total rand g startIdx Hr Wf Hn Hc) as (tr & E & _ & _).
  exists tr. split; [exact E|]. intros i g' Hin.
  destruct (run_shape_of_run rand g startIdx tr Hr Wf Hn Hc E)
    as [[-> Eo]|(chosen & g1 & g2 & ch & rest & _ & _ & Wf1 & Ev1 & _ & _
                 & Wf2 & Ev2 & Hs & ->)].
  - left. destruct Hin as [[= <- <-]|[]]. split; auto. split; auto.
    rewrite getEntropy_eq, bitsCount_length, Eo. reflexivity.
  - right. destruct Hin as [[=]|[[=]|Hin]].
    destruct (run_shape_contradiction g2 rest Hs Wf2 i g' Hin)
      as (Ei & Ef & c & Hcg & H1 & H2).
    split; auto. split.
    + pose proof (run_shape_nonempty _ _ Hs).
      rewrite !final_cons by (auto; discriminate). exact Ef.
    + exists c. split; auto.
      destruct Ev1 as (_ & _ & E1 & _), Ev2 as (_ & _ & E2 & _).
      unfold in_grid in *; lia.
Qed.

Lemma contradiction_events_witness :
  let g := set_wave (new_WFCGrid 2 2) 3 bitsNew in
  (exists tr,
     run (fun _ => 0%Q) g 0 = Some tr /\
     forall i g', In (Contradiction i, g') tr ->
       (i = 0 /\ tr = [(Contradiction 0, g)] /\ getEntropy g 0 = 0)
       \/ (i = -1 /\ final tr = Some (Contradiction (-1), g') /\
           exists c, in_grid g c /\ collapsed_at g' c = -1
                     /\ getEntropy g' c = 0)) /\
  (exists tr,
     run (fun _ => 0%Q) g 3 = Some tr /\
     forall i g', In (Contradiction i, g') tr ->
       (i = 3 /\ tr = [(Contradiction 3, g)] /\ getEntropy g 3 = 0)
       \/ (i = -1 /\ final tr = Some (Contradiction (-1), g') /\
           exists c, in_grid g c /\ collapsed_at g' c = -1
                     /\ getEntropy g' c = 0)) /\
  option_map (map fst) (run (fun _ => 0%Q) g 0)
  = Some [Collapse 0 0; Propagate [0; 1; 2]; Contradiction (-1)] /\
  option_map (map fst) (run (fun _ => 0%Q) g 3) = Some [Contradiction 3].
Proof.
  intros g.
  assert (Wf : grid_wf g).
  { apply set_wave_wf;
      [apply new_WFCGrid_wf; lia
      | vm_compute; split; discriminate || reflexivity
      | reflexivity
      | apply bits_wf_bitsNew]. }
  split; [|split; [|split; vm_compute; reflexivity]].
  - apply (contradiction_events (fun _ => 0%Q) g 0).
    + exact unit_draws_zero.
    + exact Wf.
    + vm_compute; split; discriminate || reflexivity.
    + reflexivity.
  - apply (contradiction_events (fun _ => 0%Q) g 3).
    + exact unit_draws_zero.
    + exact Wf.
    + vm_compute; split; discriminate || reflexivity.
    + reflexivity.
Defined.

Lemma run_shape_collapses g tr :
  run_shape g tr -> grid_wf g ->
  alternating (map fst tr) /\
  NoDup (collapse_cells tr) /\
  (forall idx, In idx (collapse_cells tr) ->
               in_grid g idx /\ collapsed_at g idx = -1) /\
  (forall idx t g1, In (Collapse idx t, g1) tr ->
                    is_tile t /\ collapsed_at g1 idx = t /\
                    wave_at g1 idx = singleton t).
Proof.
  induction 1 as [g Hu|g i0 Hi Hz|g next chosen g1 g2 ch rest Hin Hnz Hch Eg Ep Hs IH];
    intros Wf.
  - cbn. repeat split; try constructor; intros; try tauto.
    all: destruct H as [[=]|[]].
  - cbn. repeat split; try constructor; intros; try tauto.
    all: destruct H as [[=]|[]].
  - destruct (run_shape_step_wf g next chosen g1 g2 ch Wf Hin Hch Eg Ep)
      as (Hn & Hc & Wf1 & Ev1 & Ecol & Wf2 & Ev2).
    destruct (IH Wf2) as (Alt & Nd & Hcells & Hev).
    assert (Ev : evolves g g2) by (eapply evolves_trans; eauto).
    assert (Hback : forall idx, in_grid g2 idx -> collapsed_at g2 idx = -1 ->
                                in_grid g idx /\ collapsed_at g idx = -1).
    { intros idx Hi2 Hc2. destruct Ev as (_ & _ & Es & _ & F).
      assert (Hig : in_grid g idx) by (unfold in_grid in *; lia).
      split; auto.
      destruct (Z.eq_dec (collapsed_at g idx) (-1)) as [|Hne]; auto.
      destruct (F idx Hig Hne); congruence. }
    cbn [map fst alternating collapse_cells].
    split; [exact Alt|]. split; [|split].
    + constructor; auto. intros Hin'.
      destruct (Hcells next Hin') as [Hn2 Hc2].
      destruct Ev2 as (_ & _ & _ & _ & F2).
      assert (Hn1 : in_grid g1 next).
      { destruct Ev1 as (_ & _ & Es1 & _). unfold in_grid in *; lia. }
      apply in_bitsForEach in Hch as [Ht _]. unfold is_tile in Ht.
      destruct (F2 next Hn1) as [E2 _]; [lia|]. lia.
    + intros idx [<-|Hin']; auto.
      destruct (Hcells idx Hin'). now apply Hback.
    + intros idx t g1' [[= <- <- <-]|[[=]|Hin']]; [|now apply (Hev idx t g1')].
      apply in_bitsForEach in Hch as [Ht _].
      destruct Wf1 as (_ & _ & _ & _ & _ & _ & Wc).
      assert (Hn1 : in_grid g1 next).
      { destruct Ev1 as (_ & _ & Es1 & _). unfold in_grid in *; lia. }
      destruct (Wc next Hn1) as [_ Ew]; [unfold is_tile in Ht; lia|].
      rewrite Ecol in Ew. auto.
Qed.

(** X16. The events of a run alternate Collapse and Propagate up to the one
    terminal event; no cell appears in two Collapse events, so there are at
    most as many as cells; every Collapse event is for a cell that was in
    superposition when the run started, and its tile is the tile of the cell
    in the grid of that yield, whose bit set is the tile's singleton. *)
Theorem run_events_structure rand g startIdx :
  unit_draws rand -> grid_wf g -> in_grid g startIdx ->
  collapsed_at g startIdx = -1 ->
  exists tr,
    run rand g startIdx = Some tr /\
    alternating (map fst tr) /\
    NoDup (collapse_cells tr) /\
    Z.of_nat (length (collapse_cells tr)) <= size g /\
    (forall idx, In idx (collapse_cells tr) ->
                 in_grid g idx /\ collapsed_at g idx = -1) /\
    (forall idx t g1, In (Collapse idx t, g1) tr ->
                      is_tile t /\ collapsed_at g1 idx = t /\
                      wave_at g1 idx = singleton t).
Proof.
  intros Hr Wf Hn Hc.
  destruct (run_total rand g startIdx Hr Wf Hn Hc) as (tr & E & _ & _).
  exists tr. split; [exact E|].
  assert (H : alternating (map fst tr) /\ NoDup (collapse_cells tr) /\
              (forall idx, In idx (collapse_cells tr) ->
                           in_grid g idx /\ collapsed_at g idx = -1) /\
              (forall idx t g1, In (Collapse idx t, g1) tr ->
                                is_tile t /\ collapsed_at g1 idx = t /\
                                wave_at g1 idx = singleton t)).
  { destruct (run_shape_of_run rand g startIdx tr Hr Wf Hn Hc E)
      as [[-> Eo]|(chosen & g1 & g2 & ch & rest & Hch & Eg & Wf1 & Ev1 & Ecol & Ep
                   & Wf2 & Ev2 & Hs & ->)].
    - cbn. repeat split; try constructor; intros; try tauto.
      all: destruct H as [[=]|[]].
    - destruct (run_shape_collapses g2 rest Hs Wf2) as (Alt & Nd & Hcells & Hev).
      assert (Ev : evolves g g2) by (eapply evolves_trans; eauto).
      assert (Hback : forall idx, in_grid g2 idx -> collapsed_at g2 idx = -1 ->
                                  in_grid g idx /\ collapsed_at g idx = -1).
      { intros idx Hi2 Hc2. destruct Ev as (_ & _ & Es & _ & F).
        assert (Hig : in_grid g idx) by (unfold in_grid in *; lia).
        split; auto.
        destruct (Z.eq_dec (collapsed_at g idx) (-1)) as [|Hne]; auto.
        destruct (F idx Hig Hne); congruence. }
      cbn [map fst alternating collapse_cells].
      split; [exact Alt|]. split; [|split].
      + constructor; auto. intros Hin'.
        destruct (Hcells startIdx Hin') as [Hn2 Hc2].
        destruct Ev2 as (_ & _ & _ & _ & F2).
        assert (Hn1 : in_grid g1 startIdx).
        { destruct Ev1 as (_ & _ & Es1 & _). unfold in_grid in *; lia. }
        apply in_bitsForEach in Hch as [Ht _]. unfold is_tile in Ht.
        destruct (F2 startIdx Hn1) as [E2 _]; [lia|]. lia.
      + intros idx [<-|Hin']; auto.
        destruct (Hcells idx Hin'). now apply Hback.
      + intros idx t g1' [[= <- <- <-]|[[=]|Hin']]; [|now apply (Hev idx t g1')].
        apply in_bitsForEach in Hch as [Ht _].
        destruct Wf1 as (_ & _ & _ & _ & _ & _ & Wc).
        assert (Hn1 : in_grid g1 startIdx).
        { destruct Ev1 as (_ & _ & Es1 & _). unfold in_grid in *; lia. }
        destruct (Wc startIdx Hn1) as [_ Ew]; [unfold is_tile in Ht; lia|].
        rewrite Ecol in Ew. auto. }
  destruct H as (Alt & Nd & Hcells & Hev).
  split; [exact Alt|]. split; [exact Nd|]. split; [|split; [exact Hcells | exact Hev]].
  assert (Hincl : incl (collapse_cells tr) (range (size g))).
  { intros idx Hin. apply in_range. now apply Hcells. }
  pose proof (NoDup_incl_length Nd Hincl) as Hlen.
  rewrite length_range in Hlen.
  assert (0 <= size g) by (destruct Wf as (A & B & C & _); rewrite C; nia). lia.
Qed.

Lemma run_events_structure_witness :
  exists tr,
    run (fun _ => 0%Q) (new_WFCGrid 2 2) 0 = Some tr /\
    alternating (map fst tr) /\
    NoDup (collapse_cells tr) /\
    Z.of_nat (length (collapse_cells tr)) <= size (new_WFCGrid 2 2) /\
    (forall idx, In idx (collapse_cells tr) ->
                 in_grid (new_WFCGrid 2 2) idx /\
                 collapsed_at (new_WFCGrid 2 2) idx = -1) /\
    (forall idx t g1, In (Collapse idx t, g1) tr ->
                      is_tile t /\ collapsed_at g1 idx = t /\
                      wave_at g1 idx = singleton t).
Proof.
  apply (run_events_structure (fun _ => 0%Q) (new_WFCGrid 2 2) 0).
  - exact unit_draws_zero.
  - apply new_WFCGrid_wf; lia.
  - vm_compute; split; discriminate || reflexivity.
  - reflexivity.
Defined.

(** ** Consistency along a run on a fresh grid *)

Lemma collapse_reads g idx chosen :
  grid_wf g -> in_grid g idx ->
  let g1 := add_dirty (set_collapsed (set_wave g idx (singleton chosen))
                                     idx chosen) idx in
  width g1 = width g /\ height g1 = height g /\
  (forall c, 0 <= c ->
             wave_at g1 c = if c =? idx then singleton chosen else wave_at g c) /\
  (forall c, 0 <= c ->
             collapsed_at g1 c = if c =? idx then chosen else collapsed_at g c).
Proof.
  intros Wf Hn g1. pose proof Wf as (_ & _ & _ & Lw & Lc & _).
  split; [reflexivity|]. split; [reflexivity|]. split.
  - intros c Hc0. apply (wave_at_set_wave g idx (singleton chosen) c); auto.
  - intros c Hc0.
    apply (collapsed_at_set_collapsed (set_wave g idx (singleton chosen))); auto.
Qed.

Lemma arc_after_collapse g idx chosen c :
  grid_wf g -> in_grid g idx -> is_tile chosen -> in_grid g c -> c <> idx ->
  arc_consistent_at g c ->
  arc_consistent_at
    (add_dirty (set_collapsed (set_wave g idx (singleton chosen)) idx chosen) idx) c.
Proof.
  intros Wf Hn Hch Hc Hne Ha.
  destruct (collapse_reads g idx chosen Wf Hn) as (Ew & Eh & Rw & Rc).
  set (g1 := add_dirty _ _) in *.
  intros m Hm Hcm t Ht Hh.
  rewrite (proj1 (neighbours_same_dims g g1 c Ew Eh)) in Hm.
  pose proof (cardinalNeighbours_in_grid _ _ _ Wf Hc Hm) as Hmg.
  rewrite Rc in Hcm by (unfold in_grid in Hmg; lia).
  rewrite Rw in Hh by (unfold in_grid in Hmg; lia).
  rewrite Rw by (unfold in_grid in Hc; lia).
  destruct (Z.eqb_spec c idx); [contradiction|].
  destruct (Z.eqb_spec m idx).
  - unfold is_tile in Hch. lia.
  - now apply (Ha m Hm Hcm t Ht).
Qed.

Lemma house_after_collapse g idx chosen n :
  grid_wf g -> in_grid g idx -> is_tile chosen -> in_grid g n ->
  ~ In idx (_allNeighbours g n) ->
  house_consistent_at g n ->
  house_consistent_at
    (add_dirty (set_collapsed (set_wave g idx (singleton chosen)) idx chosen) idx) n.
Proof.
  intros Wf Hn Hch Hng Hnot Hh.
  destruct (collapse_reads g idx chosen Wf Hn) as (Ew & Eh & Rw & Rc).
  set (g1 := add_dirty _ _) in *.
  intros Hcn t Ht Hht Hhas.
  rewrite Rc in Hcn by (unfold in_grid in Hng; lia).
  rewrite Rw in Hhas by (unfold in_grid in Hng; lia).
  destruct (Z.eqb_spec n idx); [unfold is_tile in Hch; lia|].
  destruct (Hh Hcn t Ht Hht Hhas) as [He Hf].
  split.
  - unfold at_edge, _xy in *. now rewrite Ew, Eh.
  - rewrite <- Hf. unfold foundUniform.
    rewrite (proj2 (neighbours_same_dims g g1 n Ew Eh)).
    assert (E : forall terr,
               forallb (neighbour_matches g1 terr) (_allNeighbours g n)
               = forallb (neighbour_matches g terr) (_allNeighbours g n)).
    { intros terr. apply forallb_ext_in. intros x Hx.
      assert (Hxm : x <> idx) by (intros ->; contradiction).
      pose proof (proj1 (allNeighbours_spec g n x Wf Hng Hx)) as Hxg.
      unfold neighbour_matches.
      rewrite Rc by (unfold in_grid in Hxg; lia).
      rewrite Rw by (unfold in_grid in Hxg; lia).
      destruct (Z.eqb_spec x idx); [contradiction | reflexivity]. }
    cbn [existsb]. now rewrite !E.
Qed.

(** Every cell of [g] supports its neighbours and obeys the house rule. *)
Lemma run_shape_consistent g tr :
  run_shape g tr -> grid_wf g ->
  (forall c, in_grid g c -> arc_consistent_at g c /\ house_consistent_at g c) ->
  forall e g', In (e, g') tr -> (forall idx t, e <> Collapse idx t) ->
  forall c, in_grid g c -> arc_consistent_at g' c /\ house_consistent_at g' c.
Proof.
  induction 1 as [g Hu|g i0 Hi Hz|g next chosen g1 g2 ch rest Hin Hnz Hch Eg Ep Hs IH];
    intros Wf Hall e g' He Hnc c Hc.
  - destruct He as [[= <- <-]|[]]. auto.
  - destruct He as [[= <- <-]|[]]. auto.
  - destruct (run_shape_step_wf g next chosen g1 g2 ch Wf Hin Hch Eg Ep)
      as (Hn & Hcn & Wf1 & Ev1 & Ecol & Wf2 & Ev2).
    pose proof Hch as Hch'. apply in_bitsForEach in Hch' as [Ht _].
    pose proof Ev1 as (Ew1 & Eh1 & Es1 & _). pose proof Ev2 as (_ & _ & Es2 & _).
    assert (Hseeds : Forall (in_grid g1) [next]).
    { constructor; auto. unfold in_grid in *; lia. }
    assert (Hall2 : forall c, in_grid g2 c ->
                      arc_consistent_at g2 c /\ house_consistent_at g2 c).
    { intros d Hd.
      assert (Hd0 : in_grid g d) by (unfold in_grid in *; lia).
      assert (Hd1 : in_grid g1 d) by (unfold in_grid in *; lia).
      destruct (Hall d Hd0) as [Ha Hh]. split.
      - destruct (propagate_arc g1 [next] Wf1 Hseeds) as (g2' & ch' & E' & H').
        rewrite Ep in E'. injection E' as <- <-. apply H'; auto.
        destruct (Z.eq_dec d next) as [->|Hne]; [left; now left|].
        right. subst g1. now apply arc_after_collapse.
      - destruct (propagate_house g1 [next] Wf1 Hseeds) as (g2' & ch' & E' & H').
        rewrite Ep in E'. injection E' as <- <-. apply H'; auto.
        rewrite (proj2 (neighbours_same_dims g g1 d Ew1 Eh1)).
        destruct (in_dec Z.eq_dec next (_allNeighbours g d)) as [Hi|Hnot].
        + left. exists next. split; auto. now left.
        + right. subst g1. now apply house_after_collapse. }
    destruct He as [[= <- <-]|[[= <- <-]|He]].
    + exfalso. now apply (Hnc next chosen).
    + apply Hall2. unfold in_grid in *; lia.
    + apply (IH Wf2 Hall2 e g' He Hnc). unfold in_grid in *; lia.
Qed.

Lemma fresh_grid_consistent w h :
  0 < w -> 0 < h ->
  forall c, in_grid (new_WFCGrid w h) c ->
            arc_consistent_at (new_WFCGrid w h) c
            /\ house_consistent_at (new_WFCGrid w h) c.
Proof.
  intros Hw Hh c Hc.
  pose proof (new_WFCGrid_wf w h Hw Hh) as Wf.
  destruct (new_WFCGrid_spec w h Hw Hh) as (Ew & Eh & Es & _ & _ & Hwv).
  assert (Hcases : forall d, in_grid (new_WFCGrid w h) d ->
             wave_at (new_WFCGrid w h) d = bitsAll
             \/ wave_at (new_WFCGrid w h) d = houseless).
  { intros d Hd. unfold in_grid in Hd. rewrite Es in Hd. rewrite (Hwv d Hd).
    destruct (at_edge _ _ _); auto. }
  split.
  - intros n Hn _ t Ht _.
    assert (H : forallb (fun t => existsb (fun s =>
                   has houseless s && has bitsAll s
                   && cardinalCompatible (tile_at s) (tile_at t))
                 (range N_TILES)) (range N_TILES) = true) by (vm_compute; reflexivity).
    rewrite forallb_forall in H. specialize (H t (proj2 (in_range _ _) Ht)).
    apply existsb_exists in H as (s & Hs%in_range & H).
    apply andb_true_iff in H as [H H3]. apply andb_true_iff in H as [H1 H2].
    exists s. split; auto. split; auto.
    destruct (Hcases c Hc) as [-> | ->]; auto.
  - intros _ t Ht Hht Hhas.
    assert (He : at_edge (new_WFCGrid w h) (fst (_xy (new_WFCGrid w h) c))
                         (snd (_xy (new_WFCGrid w h) c)) = false).
    { unfold in_grid in Hc. rewrite Es in Hc. rewrite (Hwv c Hc) in Hhas.
      destruct (at_edge _ _ _); auto.
      rewrite houseless_has in Hhas by auto. discriminate. }
    split; auto. unfold foundUniform. cbn [existsb].
    assert (E : forallb (neighbour_matches (new_WFCGrid w h) sea)
                        (_allNeighbours (new_WFCGrid w h) c) = true).
    { apply forallb_forall. intros n Hn.
      pose proof (proj1 (allNeighbours_spec _ c n Wf Hc Hn)) as Hng.
      unfold neighbour_matches.
      rewrite new_WFCGrid_uncollapsed by auto. cbn [Z.eqb negb].
      destruct (Hcases n Hng) as [-> | ->]; reflexivity. }
    now rewrite E.
Qed.

Lemma run_on_fresh_grid_consistent w h rand startIdx :
  0 < w -> 0 < h -> unit_draws rand -> 0 <= startIdx < w * h ->
  exists tr,
    run rand (new_WFCGrid w h) startIdx = Some tr /\
    forall e g' c,
      In (e, g') tr -> (forall idx t, e <> Collapse idx t) ->
      in_grid (new_WFCGrid w h) c ->
      arc_consistent_at g' c /\ house_consistent_at g' c.
Proof.
  intros Hw Hh Hr Hs.
  pose proof (new_WFCGrid_wf w h Hw Hh) as Wf.
  destruct (new_WFCGrid_spec w h Hw Hh) as (_ & _ & Es & _).
  assert (Hn : in_grid (new_WFCGrid w h) startIdx) by (unfold in_grid; lia).
  pose proof (new_WFCGrid_uncollapsed w h startIdx Hw Hh Hn) as Hc.
  destruct (run_total rand _ startIdx Hr Wf Hn Hc) as (tr & E & _ & _).
  exists tr; split; [exact E|]. intros e g' c He Hnc Hcg.
  pose proof (fresh_grid_consistent w h Hw Hh) as Hall.
  destruct (run_shape_of_run rand _ startIdx tr Hr Wf Hn Hc E)
    as [[-> Eo]|(chosen & g1 & g2 & ch & rest & Hch & Eg & Wf1 & Ev1 & Ecol & Ep
                 & Wf2 & Ev2 & Hsh & ->)].
  - destruct He as [[= <- <-]|[]]. now apply Hall.
  - pose proof Hch as Hch'. apply in_bitsForEach in Hch' as [Ht _].
    pose proof Ev1 as (Ew1 & Eh1 & Es1 & _). pose proof Ev2 as (_ & _ & Es2 & _).
    assert (Hseeds : Forall (in_grid g1) [startIdx]).
    { constructor; auto. unfold in_grid in *; lia. }
    assert (Hall2 : forall c, in_grid g2 c ->
                      arc_consistent_at g2 c /\ house_consistent_at g2 c).
    { intros d Hd.
      assert (Hd0 : in_grid (new_WFCGrid w h) d) by (unfold in_grid in *; lia).
      assert (Hd1 : in_grid g1 d) by (unfold in_grid in *; lia).
      destruct (Hall d Hd0) as [Ha Hh']. split.
      - destruct (propagate_arc g1 [startIdx] Wf1 Hseeds) as (g2' & ch' & E' & H').
        rewrite Ep in E'. injection E' as <- <-. apply H'; auto.
        destruct (Z.eq_dec d startIdx) as [->|Hne]; [left; now left|].
        right. subst g1. now apply arc_after_collapse.
      - destruct (propagate_house g1 [startIdx] Wf1 Hseeds) as (g2' & ch' & E' & H').
        rewrite Ep in E'. injection E' as <- <-. apply H'; auto.
        rewrite (proj2 (neighbours_same_dims _ g1 d Ew1 Eh1)).
        destruct (in_dec Z.eq_dec startIdx (_allNeighbours (new_WFCGrid w h) d))
          as [Hi|Hnot].
        + left. exists startIdx. split; auto. now left.
        + right. subst g1. now apply house_after_collapse. }
    destruct He as [[= <- <-]|[[= <- <-]|He]].
    + exfalso. now apply (Hnc startIdx chosen).
    + apply Hall2. unfold in_grid in *; lia.
    + apply (run_shape_consistent g2 rest Hsh Wf2 Hall2 e g' He Hnc).
      unfold in_grid in *; lia.
Qed.

(** X17. On a grid fresh from the constructor, at every yield of a run other
    than a Collapse (after each propagation and at the terminal event) the
    grid is arc consistent: for every cell and each of its cardinal
    neighbours still in superposition, every option of the neighbour is
    compatible with some option of the cell. *)
Theorem run_keeps_arc_consistency w h rand startIdx :
  0 < w -> 0 < h -> unit_draws rand -> 0 <= startIdx < w * h ->
  exists tr,
    run rand (new_WFCGrid w h) startIdx = Some tr /\
    forall e g' c n t,
      In (e, g') tr -> (forall idx tile, e <> Collapse idx tile) ->
      in_grid (new_WFCGrid w h) c ->
      In n (_cardinalNeighbours g' c) -> collapsed_at g' n = -1 ->
      is_tile t -> has (wave_at g' n) t = true ->
      exists s, is_tile s /\ has (wave_at g' c) s = true /\
                cardinalCompatible (tile_at s) (tile_at t) = true.
Proof.
  intros Hw Hh Hr Hs.
  destruct (run_on_fresh_grid_consistent w h rand startIdx Hw Hh Hr Hs)
    as (tr & E & H).
  exists tr; split; [exact E|]. intros e g' c n t He Hnc Hc Hn Hcn Ht Hh'.
  destruct (H e g' c He Hnc Hc) as [Ha _]. exact (Ha n Hn Hcn t Ht Hh').
Qed.

Lemma run_keeps_arc_consistency_witness :
  exists tr,
    run (fun _ => 0%Q) (new_WFCGrid 3 3) 4 = Some tr /\
    forall e g' c n t,
      In (e, g') tr -> (forall idx tile, e <> Collapse idx tile) ->
      in_grid (new_WFCGrid 3 3) c ->
      In n (_cardinalNeighbours g' c) -> collapsed_at g' n = -1 ->
      is_tile t -> has (wave_at g' n) t = true ->
      exists s, is_tile s /\ has (wave_at g' c) s = true /\
                cardinalCompatible (tile_at s) (tile_at t) = true.
Proof.
  apply (run_keeps_arc_consistency 3 3 (fun _ => 0%Q) 4); try lia.
  exact unit_draws_zero.
Defined.

(** X18. On a grid fresh from the constructor, at every yield of a run other
    than a Collapse, a cell in superposition that still holds a house tile
    is not on the edge and has a terrain among sea, ground and mountain that
    is still possible at all of its 8 neighbours. *)
Theorem run_keeps_house_rule w h rand startIdx :
  0 < w -> 0 < h -> unit_draws rand -> 0 <= startIdx < w * h ->
  exists tr,
    run rand (new_WFCGrid w h) startIdx = Some tr /\
    forall e g' c t,
      In (e, g') tr -> (forall idx tile, e <> Collapse idx tile) ->
      in_grid (new_WFCGrid w h) c -> collapsed_at g' c = -1 ->
      is_tile t -> is_house t = true -> has (wave_at g' c) t = true ->
      at_edge g' (fst (_xy g' c)) (snd (_xy g' c)) = false /\
      foundUniform g' c = true.
Proof.
  intros Hw Hh Hr Hs.
  destruct (run_on_fresh_grid_consistent w h rand startIdx Hw Hh Hr Hs)
    as (tr & E & H).
  exists tr; split; [exact E|]. intros e g' c t He Hnc Hc Hcn Ht Hht Hh'.
  destruct (H e g' c He Hnc Hc) as [_ Hho]. exact (Hho Hcn t Ht Hht Hh').
Qed.

Lemma run_keeps_house_rule_witness :
  exists tr,
    run (fun _ => 0%Q) (new_WFCGrid 5 5) 12 = Some tr /\
    forall e g' c t,
      In (e, g') tr -> (forall idx tile, e <> Collapse idx tile) ->
      in_grid (new_WFCGrid 5 5) c -> collapsed_at g' c = -1 ->
      is_tile t -> is_house t = true -> has (wave_at g' c) t = true ->
      at_edge g' (fst (_xy g' c)) (snd (_xy g' c)) = false /\
      foundUniform g' c = true.
Proof.
  apply (run_keeps_house_rule 5 5 (fun _ => 0%Q) 12); try lia.
  exact unit_draws_zero.
Defined.

(** ** Hit testing *)

Lemma Qfloor_div_unique (a : Q) (s x : Z) :
  0 < s ->
  (inject_Z (x * s) <= a)%Q -> (a < inject_Z ((x + 1) * s))%Q ->
  Qfloor (a / inject_Z s) = x.
Proof.
  intros Hs Hlo Hhi.
  assert (Hs' : (0 < inject_Z s)%Q).
  { change 0%Q with (inject_Z 0). rewrite <- Zlt_Qlt. lia. }
  rewrite inject_Z_mult in Hlo, Hhi.
  apply Qfloor_unique.
  - apply Qle_shift_div_l; auto.
  - apply Qlt_shift_div_r; auto.
Qed.

(** X20. [hitTest] inverts the layout of [draw]: a pixel whose coordinates
    lie from the origin of cell column [x] and row [y] of the grid up to,
    but excluding, the origin of the next column and row is mapped to the
    cell index [y * gridW + x]; and the result is always -1 or a cell index
    of the grid. *)
Theorem hitTest_inverts_layout r x y px py :
  0 < cellPx r + gap r -> 0 <= x < gridW r -> 0 <= y < gridH r ->
  (inject_Z (cell_origin r x) <= px)%Q ->
  (px < inject_Z (cell_origin r (x + 1)))%Q ->
  (inject_Z (cell_origin r y) <= py)%Q ->
  (py < inject_Z (cell_origin r (y + 1)))%Q ->
  hitTest r px py = y * gridW r + x /\
  forall qx qy, hitTest r qx qy = -1 \/ 0 <= hitTest r qx qy < gridW r * gridH r.
Proof.
  intros Hs Hx Hy Hx1 Hx2 Hy1 Hy2. split.
  - unfold hitTest, cell_origin in *.
    rewrite inject_Z_plus in Hx1, Hx2, Hy1, Hy2.
    rewrite (Qfloor_div_unique _ _ x), (Qfloor_div_unique _ _ y); auto; try lra.
    destruct (Z.ltb_spec x 0); [lia|]. destruct (Z.ltb_spec y 0); [lia|].
    destruct (Z.geb_spec x (gridW r)); [lia|].
    destruct (Z.geb_spec y (gridH r)); [lia|]. reflexivity.
  - intros qx qy. unfold hitTest.
    set (cx := Qfloor _). set (cy := Qfloor _).
    destruct (Z.ltb_spec cx 0); [now left|].
    destruct (Z.ltb_spec cy 0); [now left|].
    destruct (Z.geb_spec cx (gridW r)); [now left|].
    destruct (Z.geb_spec cy (gridH r)); [now left|].
    right. cbn [orb]. nia.
Qed.

Lemma hitTest_inverts_layout_witness :
  let r := new_Renderer 6 4 in
  hitTest r (70 # 1) (40 # 1) = 1 * gridW r + 2 /\
  forall qx qy, hitTest r qx qy = -1 \/ 0 <= hitTest r qx qy < gridW r * gridH r.
Proof.
  intros r.
  apply (hitTest_inverts_layout r 2 1 (70 # 1) (40 # 1));
    vm_compute; try reflexivity; try (split; discriminate || reflexivity);
    discriminate.
Defined.

(** ** The progress counter *)

(** X21. [totalCollapsed] never goes down during a run: from any yield to a
    later one it does not decrease, it is at least what it was before the
    run and at most the number of cells. *)
Theorem totalCollapsed_never_decreases rand g startIdx :
  unit_draws rand -> grid_wf g -> in_grid g startIdx ->
  collapsed_at g startIdx = -1 ->
  exists tr,
    run rand g startIdx = Some tr /\
    forall i j ei gi ej gj,
      (i <= j)%nat ->
      nth_error tr i = Some (ei, gi) -> nth_error tr j = Some (ej, gj) ->
      totalCollapsed g <= totalCollapsed gi /\
      totalCollapsed gi <= totalCollapsed gj /\
      totalCollapsed gj <= size g.
Proof.
  intros Hr Wf Hn Hc.
  destruct (run_total rand g startIdx Hr Wf Hn Hc) as (tr & E & Hch & _).
  exists tr; split; [exact E|]. intros i j ei gi ej gj Hij Hi Hj.
  destruct (chain_nth g tr Wf Hch i j ei gi ej gj Hij Hi Hj)
    as (Wfi & Wfj & Evi & Evij).
  pose proof (uncollapsed_evolves_le _ _ Evi) as L1.
  pose proof (uncollapsed_evolves_le _ _ Evij) as L2.
  pose proof Evi as (_ & _ & Esi & _). pose proof Evij as (_ & _ & Esj & _).
  assert (Hsz : 0 <= size g) by (destruct Wf as (A & B & C & _); rewrite C; nia).
  pose proof (totalCollapsed_count g Hsz) as T0.
  pose proof (totalCollapsed_count gi ltac:(lia)) as Ti.
  pose proof (totalCollapsed_count gj ltac:(lia)) as Tj.
  lia.
Qed.

Lemma totalCollapsed_never_decreases_witness :
  exists tr,
    run (fun _ => 0%Q) (new_WFCGrid 2 2) 0 = Some tr /\
    forall i j ei gi ej gj,
      (i <= j)%nat ->
      nth_error tr i = Some (ei, gi) -> nth_error tr j = Some (ej, gj) ->
      totalCollapsed (new_WFCGrid 2 2) <= totalCollapsed gi /\
      totalCollapsed gi <= totalCollapsed gj /\
      totalCollapsed gj <= size (new_WFCGrid 2 2).
Proof.
  apply (totalCollapsed_never_decreases (fun _ => 0%Q) (new_WFCGrid 2 2) 0).
  - exact unit_draws_zero.
  - apply new_WFCGrid_wf; lia.
  - vm_compute; split; discriminate || reflexivity.
  - reflexivity.
Defined.

(** ** One option left means collapsed *)

Lemma install_single_collapses g n w :
  grid_wf g -> in_grid g n -> bits_wf w -> bitsCount w = 1 ->
  collapsed_at (install g n w) n <> -1.
Proof.
  intros Wf Hn Hw E. pose proof Wf as (_ & _ & _ & _ & Lc & _).
  unfold install, collapse_if_single. rewrite E. cbn [Z.eqb Pos.eqb].
  rewrite bitsCount_length in E.
  destruct (bitsForEach w) as [|t [|]] eqn:F; cbn [length] in E; try lia.
  apply bitsForEach_single in F as [Ht _]; auto.
  cbn [fold_left].
  rewrite (collapsed_at_set_collapsed (add_dirty (set_wave g n w) n));
    [|exact Lc | exact Hn | unfold in_grid in Hn; lia].
  rewrite Z.eqb_refl. unfold is_tile in Ht. lia.
Qed.

Lemma no_single_stepped st st' n :
  p_ok st -> in_grid (p_grid st) n -> stepped st st' n ->
  no_single (p_grid st) -> no_single (p_grid st').
Proof.
  intros Hok Hn [->|(Hc & w & W & S & L & ->)] Hq; [auto|].
  destruct Hok as [Wf _]. cbn [p_grid].
  destruct (install_reads (p_grid st) n w Wf Hn Hc W) as (_ & _ & Es & Rw & Rc).
  intros c Hcg Hcc.
  assert (Hc0 : in_grid (p_grid st) c) by (unfold in_grid in *; lia).
  rewrite Rw by (unfold in_grid in Hc0; lia).
  destruct (Z.eqb_spec c n) as [->|Hne].
  - intros E1. now apply (install_single_collapses (p_grid st) n w Wf Hn W E1).
  - rewrite Rc in Hcc by (auto; unfold in_grid in Hc0; lia). now apply Hq.
Qed.

Lemma propagate_no_single g seeds g' changed :
  grid_wf g -> Forall (in_grid g) seeds -> no_single g ->
  _propagate g seeds = Some (g', changed) -> no_single g'.
Proof.
  intros Wf Hs H0 E. unfold _propagate in E.
  destruct (propagate_loop _ _) as [st'|] eqn:El; [|discriminate].
  injection E as <- <-.
  assert (Hok : p_ok (mkP g (rev seeds) (fold_left set_add seeds []))).
  { split; cbn [p_grid p_stack]; auto. now apply Forall_rev. }
  set (J := fun st : pstate => no_single (p_grid st)).
  assert (HQ : forall l (st st1 : pstate) (n : Z),
             In n l -> p_ok st -> in_grid (p_grid st) n ->
             stepped st st1 n -> J st -> J st1).
  { intros l st st1 n _ Ho Hn Hst Hq.
    exact (no_single_stepped st st1 n Ho Hn Hst Hq). }
  assert (Hiter : forall g1 c stack ch1,
             p_ok (mkP g1 (c :: stack) ch1) -> J (mkP g1 (c :: stack) ch1) ->
             J (propagate_iter c (mkP g1 stack ch1))).
  { intros g1 c stack ch1 Hok1 Hj.
    destruct Hok1 as [Wf1 Hst1]; cbn [p_grid p_stack] in *.
    inversion Hst1 as [|? ? Hc Hst1']; subst.
    assert (Hok0 : p_ok (mkP g1 stack ch1)) by (split; auto).
    unfold propagate_iter.
    destruct (fold_stepped (cardinal_step c) J
                (_cardinalNeighbours (p_grid (mkP g1 stack ch1)) c) (size g1)
                (cardinal_step_stepped c) (HQ _))
      with (st := mkP g1 stack ch1) as [Q1 P1]; auto.
    { intros n Hn. eapply cardinalNeighbours_in_grid; eauto. }
    destruct P1 as (Hok1 & (_ & _ & Es1 & _) & _).
    set (st1 := fold_left _ _ (mkP g1 stack ch1)) in *.
    destruct (fold_stepped house_step J
                (_allNeighbours (p_grid st1) c) (size (p_grid st1))
                house_step_stepped (HQ _))
      with (st := st1) as [Q2 _]; auto.
    intros n Hn. apply allNeighbours_spec in Hn; [apply Hn | apply Hok1 |].
    cbn [p_grid] in Es1. unfold in_grid in *; lia. }
  exact (propagate_loop_inv J Hiter _ _ st' Hok H0 El).
Qed.

Lemma collapse_no_single g idx chosen :
  grid_wf g -> in_grid g idx -> is_tile chosen -> no_single g ->
  no_single
    (add_dirty (set_collapsed (set_wave g idx (singleton chosen)) idx chosen) idx).
Proof.
  intros Wf Hn Hch H0.
  destruct (collapse_reads g idx chosen Wf Hn) as (_ & _ & Rw & Rc).
  set (g1 := add_dirty _ _) in *.
  intros c Hc Hcc.
  assert (Hc0 : 0 <= c) by (unfold in_grid in Hc; lia).
  rewrite Rc in Hcc by auto. rewrite Rw by auto.
  destruct (Z.eqb_spec c idx); [unfold is_tile in Hch; lia|].
  now apply H0.
Qed.

Lemma run_shape_no_single g tr :
  run_shape g tr -> grid_wf g -> no_single g ->
  forall e g', In (e, g') tr -> no_single g'.
Proof.
  induction 1 as [g Hu|g i0 Hi Hz|g next chosen g1 g2 ch rest Hin Hnz Hch Eg Ep Hs IH];
    intros Wf H0 e g' He.
  - destruct He as [[= <- <-]|[]]. auto.
  - destruct He as [[= <- <-]|[]]. auto.
  - destruct (run_shape_step_wf g next chosen g1 g2 ch Wf Hin Hch Eg Ep)
      as (Hn & Hcn & Wf1 & Ev1 & Ecol & Wf2 & Ev2).
    pose proof Hch as Hch'. apply in_bitsForEach in Hch' as [Ht _].
    pose proof Ev1 as (_ & _ & Es1 & _).
    assert (H1 : no_single g1) by (subst g1; now apply collapse_no_single).
    assert (Hseeds : Forall (in_grid g1) [next]).
    { constructor; auto. unfold in_grid in *; lia. }
    pose proof (propagate_no_single g1 [next] g2 ch Wf1 Hseeds H1 Ep) as H2.
    destruct He as [[= <- <-]|[[= <- <-]|He]]; auto.
    now apply (IH Wf2 H2 e g').
Qed.

Lemma fresh_grid_no_single w h : 0 < w -> 0 < h -> no_single (new_WFCGrid w h).
Proof.
  intros Hw Hh c Hc _.
  destruct (new_WFCGrid_spec w h Hw Hh) as (_ & _ & Es & _ & _ & Hwv).
  unfold in_grid in Hc. rewrite Es in Hc. rewrite (Hwv c Hc).
  destruct (at_edge _ _ _); vm_compute; discriminate.
Qed.

(** X22. On a grid fresh from the constructor, at every yield of a run a
    cell is collapsed exactly when its entropy is 1: a collapsed cell holds
    one option, and a cell in superposition never holds exactly one. *)
Theorem collapsed_iff_entropy_one w h rand startIdx :
  0 < w -> 0 < h -> unit_draws rand -> 0 <= startIdx < w * h ->
  exists tr,
    run rand (new_WFCGrid w h) startIdx = Some tr /\
    forall e g' c,
      In (e, g') tr -> in_grid (new_WFCGrid w h) c ->
      (isCollapsed g' c = true <-> getEntropy g' c = 1).
Proof.
  intros Hw Hh Hr Hs.
  pose proof (new_WFCGrid_wf w h Hw Hh) as Wf.
  destruct (new_WFCGrid_spec w h Hw Hh) as (_ & _ & Es & _).
  assert (Hn : in_grid (new_WFCGrid w h) startIdx) by (unfold in_grid; lia).
  pose proof (new_WFCGrid_uncollapsed w h startIdx Hw Hh Hn) as Hc.
  pose proof (fresh_grid_no_single w h Hw Hh) as H0.
  destruct (run_total rand _ startIdx Hr Wf Hn Hc) as (tr & E & Hchain & _).
  exists tr; split; [exact E|]. intros e g' c He Hcg.
  destruct (chain_In _ tr e g' Wf Hchain He) as [Wf' Ev].
  pose proof Ev as (_ & _ & Es' & _).
  assert (Hc' : in_grid g' c) by (unfold in_grid in *; lia).
  assert (Hns : no_single g').
  { destruct (run_shape_of_run rand _ startIdx tr Hr Wf Hn Hc E)
      as [[-> Eo]|(chosen & g1 & g2 & ch & rest & Hch & Eg & Wf1 & Ev1 & Ecol & Ep
                   & Wf2 & Ev2 & Hsh & ->)].
    - destruct He as [[= <- <-]|[]]. exact H0.
    - pose proof Hch as Hch'. apply in_bitsForEach in Hch' as [Ht _].
      pose proof Ev1 as (_ & _ & Es1 & _).
      assert (H1 : no_single g1) by (subst g1; now apply collapse_no_single).
      assert (Hseeds : Forall (in_grid g1) [startIdx]).
      { constructor; auto. unfold in_grid in *; lia. }
      pose proof (propagate_no_single g1 [startIdx] g2 ch Wf1 Hseeds H1 Ep) as H2.
      destruct He as [[= <- <-]|[[= <- <-]|He]]; auto.
      now apply (run_shape_no_single g2 rest Hsh Wf2 H2 e g'). }
  unfold isCollapsed. rewrite getEntropy_eq. split.
  - intros Hcol. apply negb_true_iff, Z.eqb_neq in Hcol.
    destruct Wf' as (_ & _ & _ & _ & _ & _ & Wc).
    destruct (Wc c Hc' Hcol) as [Ht ->].
    now rewrite bitsCount_length, bitsForEach_singleton.
  - intros E1. apply negb_true_iff, Z.eqb_neq. intros Hcc.
    now apply (Hns c Hc' Hcc).
Qed.

Lemma collapsed_iff_entropy_one_witness :
  exists tr,
    run (fun _ => 0%Q) (new_WFCGrid 3 3) 4 = Some tr /\
    forall e g' c,
      In (e, g') tr -> in_grid (new_WFCGrid 3 3) c ->
      (isCollapsed g' c = true <-> getEntropy g' c = 1).
Proof.
  apply (collapsed_iff_entropy_one 3 3 (fun _ => 0%Q) 4); try lia.
  exact unit_draws_zero.
Defined.

(** ** The tile catalogue *)

Lemma terrain_eqb_refl t : terrain_eqb t t = true.
Proof. destruct t; reflexivity. Qed.

(** X23. The catalogue holds no tile twice, so a terrain and an elevation
    name at most one tile index, and the elevation of every tile lies in
    the range of its terrain: 0 for the sea, 0 to 5 for ground, 6 to 10 for
    mountains and 0 to 10 for houses. *)
Theorem catalogue_tiles_distinct i j :
  is_tile i -> is_tile j ->
  (tile_at i = tile_at j -> i = j) /\
  match t_terrain (tile_at i) with
  | sea => t_z (tile_at i) = 0
  | ground => 0 <= t_z (tile_at i) <= 5
  | mountain => 6 <= t_z (tile_at i) <= 10
  | house => 0 <= t_z (tile_at i) <= 10
  end.
Proof.
  intros Hi%in_range Hj%in_range. split.
  - intros E.
    assert (H : forallb (fun i => forallb (fun j =>
                  implb (terrain_eqb (t_terrain (tile_at i)) (t_terrain (tile_at j))
                         && (t_z (tile_at i) =? t_z (tile_at j)))
                        (i =? j))
                (range N_TILES)) (range N_TILES) = true) by (vm_compute; reflexivity).
    rewrite forallb_forall in H. specialize (H i Hi).
    rewrite forallb_forall in H. specialize (H j Hj).
    rewrite E, terrain_eqb_refl, Z.eqb_refl in H. cbn [andb implb] in H.
    now apply Z.eqb_eq.
  - assert (H : forallb (fun i =>
                  match t_terrain (tile_at i) with
                  | sea => t_z (tile_at i) =? 0
                  | ground => (0 <=? t_z (tile_at i)) && (t_z (tile_at i) <=? 5)
                  | mountain => (6 <=? t_z (tile_at i)) && (t_z (tile_at i) <=? 10)
                  | house => (0 <=? t_z (tile_at i)) && (t_z (tile_at i) <=? 10)
                  end) (range N_TILES) = true) by (vm_compute; reflexivity).
    rewrite forallb_forall in H. specialize (H i Hi).
    destruct (t_terrain (tile_at i));
      rewrite ?andb_true_iff, ?Z.eqb_eq, ?Z.leb_le in H; lia.
Qed.

Lemma catalogue_tiles_distinct_witness :
  (tile_at 3 = tile_at 15 -> 3 = 15) /\
  match t_terrain (tile_at 3) with
  | sea => t_z (tile_at 3) = 0
  | ground => 0 <= t_z (tile_at 3) <= 5
  | mountain => 6 <= t_z (tile_at 3) <= 10
  | house => 0 <= t_z (tile_at 3) <= 10
  end.
Proof.
  apply (catalogue_tiles_distinct 3 15); unfold is_tile, N_TILES; lia.
Defined.
